(** * The poker-server load harness: session protocol and worker cancellation

    A shallow embedding of three programs of the repository:

    - [CreateAndPlay]: cmd/create-and-play/main.go, the session that
      registers, joins and then plays all-in once and folds ever after;
    - [CreatePlayers]: the registration-only client (registerPlayer);
    - [Attack]: the duration-bounded request workers (attackWorker, main);
    - [Discovery]: how main finds the game before it starts the workers
      (getAndUnmarshal, findTargetPlayerGameIDInCurrentList);
    - [Pool]: the loop of main that the two TCP clients share, which starts
      the goroutines under a semaphore and a wait group.

    Conventions.  Go's [int] is taken to be 64 bits wide.  The network, the
    clock and the JSON scanner are the environment: a session is a function
    of what the environment answers to each of its operations, and returns
    the sequence of its observable operations (lines written, lines
    logged, atomic additions to the process-wide counters).  JSON text,
    sent or received, is represented by the document it denotes
    ([Json.value]); [None] stands for a received line that the scanner of
    encoding/json rejects. *)

From Stdlib Require Import ZArith List String Ascii Bool Lia DecimalString.
From Stdlib Require DecimalZ DecimalFacts.
Import ListNotations.

#[local] Set Warnings "-register-all".

Open Scope string_scope.
Open Scope Z_scope.

(** ** Machine integers *)

Module Int.

(** Two's complement wrap-around to [w] bits. *)
Definition wrap (w : Z) (x : Z) : Z :=
  (x + 2 ^ (w - 1)) mod 2 ^ w - 2 ^ (w - 1).

Definition min_int64 : Z := - 2 ^ 63.
Definition max_int64 : Z := 2 ^ 63 - 1.
Definition max_int32 : Z := 2 ^ 31 - 1.

Definition fits_int (z : Z) : bool := (min_int64 <=? z) && (z <=? max_int64).

(** strconv.Itoa *)
Definition Itoa (i : Z) : string := NilZero.string_of_int (Z.to_int i).

End Int.

(** ** JSON documents and the struct-directed decoding of encoding/json *)

Module Json.

(** A number literal: integer syntax, or a literal with a fraction or an
    exponent; for the latter only whether strconv.ParseFloat accepts it
    matters here. *)
Inductive number : Type :=
| Int (z : Z)
| Real (in_range : bool).

Inductive value : Type :=
| Null
| Bool (b : bool)
| Num (n : number)
| Str (s : string)
| Arr (items : list value)
| Obj (members : list (string * value)).

(** An integer literal is a float64 unless it rounds to infinity. *)
Definition float64_ok (n : number) : bool :=
  match n with
  | Int z => Z.abs z <? 2 ^ 1024 - 2 ^ 970
  | Real ok => ok
  end.

(** Decoding into [interface{}] fails only on a number outside float64. *)
Fixpoint decodable (v : value) : bool :=
  match v with
  | Null | Bool _ | Str _ => true
  | Num n => float64_ok n
  | Arr items =>
      (fix all (l : list value) : bool :=
         match l with
         | [] => true
         | x :: r => decodable x && all r
         end) items
  | Obj members =>
      (fix all (l : list (string * value)) : bool :=
         match l with
         | [] => true
         | (_, x) :: r => decodable x && all r
         end) members
  end.

Definition lower (c : ascii) : ascii :=
  let n := nat_of_ascii c in
  if (Nat.leb 65 n && Nat.leb n 90)%bool then ascii_of_nat (n + 32) else c.

(** Field names match object keys under Unicode simple case folding.  All
    tags below are lower-case ASCII, so a key is normalised by lowering
    ASCII letters and mapping U+017F (long s) and U+212A (Kelvin sign),
    the only other runes that fold to an ASCII letter. *)
Fixpoint foldName (s : string) : string :=
  match s with
  | EmptyString => EmptyString
  | String c rest =>
      match s with
      | String "197" (String "191" rest') => String "s" (foldName rest')
      | String "226" (String "132" (String "170" rest')) =>
          String "k" (foldName rest')
      | _ => String (lower c) (foldName rest)
      end
  end.

(** A [string] field: null leaves it alone, anything but a string is an
    UnmarshalTypeError. *)
Definition into_string (v : value) (cur : string) : option string :=
  match v with
  | Null => Some cur
  | Str s => Some s
  | _ => None
  end.

(** An [int] field: the literal must be accepted by ParseInt(_, 10, 64). *)
Definition into_int (v : value) (cur : Z) : option Z :=
  match v with
  | Null => Some cur
  | Num (Int z) => if Int.fits_int z then Some z else None
  | _ => None
  end.

(** An [interface{}] field. *)
Definition into_any (v : value) : option value :=
  if decodable v then Some v else None.

Section Struct.
Context {S : Type}.
(** [assign k v s]: store [v] in the field of [s] whose tag is the folded
    key [k]; an unknown key is skipped. *)
Variable assign : string -> value -> S -> option S.

(** Members are decoded in order, so a repeated key overwrites. *)
Fixpoint fill (members : list (string * value)) (s : S) : option S :=
  match members with
  | [] => Some s
  | (k, v) :: rest =>
      match assign (foldName k) v s with
      | Some s' => fill rest s'
      | None => None
      end
  end.

Definition into_struct (v : value) (cur : S) : option S :=
  match v with
  | Null => Some cur
  | Obj members => fill members cur
  | _ => None
  end.
End Struct.

Definition keys (members : list (string * value)) : list string :=
  map (fun kv => foldName (fst kv)) members.

End Json.

(** ** main of the two TCP clients: the semaphore and the wait group *)

Module Pool.
#[local] Open Scope list_scope.

(** What an operation of a goroutine does to the two shared objects. *)
Inductive Sync : Type :=
| Receive   (* <-semaphore *)
| Done      (* wg.Done() *)
| Local.

(** Where main is.  [i] is the loop variable. *)
Inductive Main : Type :=
| AtAdd (i : nat)    (* i < n has to be tested, then wg.Add(1) *)
| AtSend (i : nat)   (* semaphore <- struct{}{} *)
| AtGo (i : nat)     (* go f(i, &wg, semaphore); i++ *)
| AtWait             (* wg.Wait() *)
| AtClose            (* close(semaphore) *)
| AtReport           (* the counters are loaded and printed *)
| Exited.

Inductive Step : Type :=
| OfMain
| Of (n : nat).      (* the goroutine started in iteration [n] *)

Fixpoint replace {A : Type} (n : nat) (x : A) (l : list A) : list A :=
  match l, n with
  | [], _ => []
  | _ :: rest, O => x :: rest
  | y :: rest, S n' => y :: replace n' x rest
  end.

Section Main.
Context {Op : Type}.
Variable sync : Op -> Sync.
(** make(chan struct{}, capacity) *)
Variable capacity : Z.
(** The operations of the goroutine of each iteration, deferred calls
    included; the loop runs [List.length threads] times. *)
Variable threads : list (list Op).

Record System : Type := {
  main : Main;
  wg : Z;
  semaphore : Z;                (* len(semaphore) *)
  closed : bool;
  goroutines : list (list Op);  (* what each started goroutine has still to do *)
  log : list Op;                (* what the goroutines have done, in order *)
  reported : option (list Op)   (* the operations the printed counters sum up *)
}.

Definition init : System :=
  {| main := AtAdd 0; wg := 0; semaphore := 0; closed := false;
     goroutines := []; log := []; reported := None |}.

Inductive Result : Type :=
| Moves (s : System)
| Waits
| Panics.

Definition main_at (m : Main) (s : System) : System :=
  {| main := m; wg := wg s; semaphore := semaphore s; closed := closed s;
     goroutines := goroutines s; log := log s; reported := reported s |}.

(** Goroutine [n] has executed [o] and has [rest] to do. *)
Definition did (n : nat) (o : Op) (rest : list Op) (s : System) : System :=
  {| main := main s; wg := wg s; semaphore := semaphore s; closed := closed s;
     goroutines := replace n rest (goroutines s); log := log s ++ [o];
     reported := reported s |}.

Definition step (s : System) (a : Step) : Result :=
  match a with
  | OfMain =>
      match main s with
      | AtAdd i =>
          match nth_error threads i with
          | Some _ =>
              Moves {| main := AtSend i; wg := wg s + 1; semaphore := semaphore s;
                       closed := closed s; goroutines := goroutines s;
                       log := log s; reported := reported s |}
          | None => Moves (main_at AtWait s)
          end
      | AtSend i =>
          if closed s then Panics
          else if semaphore s <? capacity then
            Moves {| main := AtGo i; wg := wg s; semaphore := semaphore s + 1;
                     closed := closed s; goroutines := goroutines s;
                     log := log s; reported := reported s |}
          else Waits
      | AtGo i =>
          match nth_error threads i with
          | Some t =>
              Moves {| main := AtAdd (S i); wg := wg s; semaphore := semaphore s;
                       closed := closed s; goroutines := goroutines s ++ [t];
                       log := log s; reported := reported s |}
          | None => Waits
          end
      | AtWait => if wg s =? 0 then Moves (main_at AtClose s) else Waits
      | AtClose =>
          if closed s then Panics
          else
            Moves {| main := AtReport; wg := wg s; semaphore := semaphore s;
                     closed := true; goroutines := goroutines s;
                     log := log s; reported := reported s |}
      | AtReport =>
          Moves {| main := Exited; wg := wg s; semaphore := semaphore s;
                   closed := closed s; goroutines := goroutines s;
                   log := log s; reported := Some (log s) |}
      | Exited => Waits
      end
  | Of n =>
      match main s with
      | Exited => Waits
      | _ =>
          match nth_error (goroutines s) n with
          | Some (o :: rest) =>
              match sync o with
              | Receive =>
                  if 0 <? semaphore s then
                    Moves {| main := main s; wg := wg s;
                             semaphore := semaphore s - 1; closed := closed s;
                             goroutines := replace n rest (goroutines s);
                             log := log s ++ [o]; reported := reported s |}
                  else if closed s then Moves (did n o rest s)
                  else Waits
              | Done =>
                  if 0 <? wg s then
                    Moves {| main := main s; wg := wg s - 1;
                             semaphore := semaphore s; closed := closed s;
                             goroutines := replace n rest (goroutines s);
                             log := log s ++ [o]; reported := reported s |}
                  else Panics
              | Local => Moves (did n o rest s)
              end
          | _ => Waits
          end
      end
  end.

Fixpoint exec (s : System) (schedule : list Step) : option System :=
  match schedule with
  | [] => Some s
  | a :: rest =>
      match step s a with
      | Moves s' => exec s' rest
      | _ => None
      end
  end.

Definition reachable (s : System) : Prop :=
  exists schedule, exec init schedule = Some s.

(** The operations of the threads, each in its order, merged into one
    sequence. *)
Inductive Interleaving : list (list Op) -> list Op -> Prop :=
| Interleaving_done (ts : list (list Op)) :
    Forall (fun t => t = []) ts ->
    Interleaving ts []
| Interleaving_step (before after : list (list Op)) (o : Op)
      (t tr : list Op) :
    Interleaving (before ++ t :: after) tr ->
    Interleaving (before ++ (o :: t) :: after) (o :: tr).

(** A goroutine that comes to its deferred calls: it gives its slot back,
    then calls wg.Done(), and touches neither object before. *)
Definition returns (t : list Op) : Prop :=
  exists body r d,
    t = (body ++ [r; d])%list /\ Forall (fun o => sync o = Local) body /\
    sync r = Receive /\ sync d = Done.

(** The goroutine has its slot still. *)
Definition holds (t : list Op) : bool :=
  existsb (fun o => match sync o with Receive => true | _ => false end) t.

Definition unfinished (t : list Op) : bool :=
  match t with [] => false | _ => true end.

(** The steps main and the goroutines have still to take. *)
Definition main_left (m : Main) : nat :=
  match m with
  | AtAdd i => 3 * (List.length threads - i) + 4
  | AtSend i => 3 * (List.length threads - i) + 3
  | AtGo i => 3 * (List.length threads - i) + 2
  | AtWait => 3
  | AtClose => 2
  | AtReport => 1
  | Exited => 0
  end.

Definition sum (l : list nat) : nat := fold_right Nat.add O l.

Definition work (s : System) : nat :=
  main_left (main s) + sum (map (@List.length Op) (goroutines s))
  + sum (map (@List.length Op) (skipn (List.length (goroutines s)) threads)).

Definition count {A : Type} (p : A -> bool) (l : list A) : Z :=
  Z.of_nat (List.length (filter p l)).

(** What a started goroutine that returns may have left to do. *)
Definition remaining (t : list Op) : Prop :=
  t = [] \/ (exists d, t = [d] /\ sync d = Done) \/ returns t.

(** What holds in every state main and the goroutines reach. *)
Definition invariant (s : System) : Prop :=
  Forall remaining (goroutines s) /\
  semaphore s =
    count holds (goroutines s) + match main s with AtGo _ => 1 | _ => 0 end /\
  wg s =
    count unfinished (goroutines s)
    + match main s with AtSend _ | AtGo _ => 1 | _ => 0 end /\
  semaphore s <= capacity /\
  match main s with
  | AtAdd i =>
      List.length (goroutines s) = i /\ (i <= List.length threads)%nat /\
      closed s = false /\ reported s = None
  | AtSend i | AtGo i =>
      List.length (goroutines s) = i /\ (i < List.length threads)%nat /\
      closed s = false /\ reported s = None
  | AtWait =>
      List.length (goroutines s) = List.length threads /\
      closed s = false /\ reported s = None
  | AtClose =>
      List.length (goroutines s) = List.length threads /\
      Forall (fun t => t = []) (goroutines s) /\
      closed s = false /\ reported s = None
  | AtReport =>
      List.length (goroutines s) = List.length threads /\
      Forall (fun t => t = []) (goroutines s) /\
      closed s = true /\ reported s = None
  | Exited =>
      List.length (goroutines s) = List.length threads /\
      Forall (fun t => t = []) (goroutines s) /\
      closed s = true /\ reported s = Some (log s)
  end /\
  (forall tr,
      Interleaving (goroutines s ++ skipn (List.length (goroutines s)) threads) tr ->
      Interleaving threads (log s ++ tr)).

End Main.
End Pool.

(** ** cmd/create-and-play/main.go *)

Module CreateAndPlay.
Import Json.

(** *** Configuration *)

Definition Second : Z := 1000000000.

Definition numPlayersToCreate : Z := 1000000.
Definition maxConcurrentRegistrations : Z := 1000.
Definition baseUsername : string := "over-".
Definition basePassword : string := "password".
Definition connectionTimeout : Z := 10 * Second.
Definition readWriteTimeout : Z := 10 * Second.
Definition gameActivityTimeout : Z := 60 * Second.
Definition verboseLogging : bool := true.

(** *** Structs *)

Record RegistrationMsg : Type := {
  Username : string;
  Password : string
}.

(** [Amount] is a [*int]: [None] is the nil pointer. *)
Record ActionMsg : Type := {
  Action : string;
  Amount : option Z
}.

Record PlayerStateForBet : Type := {
  PlayerID : string;
  Chips : Z
}.

Record ActionPlayerBetFullState : Type := {
  Player : PlayerStateForBet
}.

Record ServerResponse : Type := {
  Type_ : string;
  Event : value;
  Code : Z;
  Message : string;
  GameID : string;
  Stage : string;
  State : ActionPlayerBetFullState;
  MinimumBet : Z
}.

(** The connection and its reader are the environment's; what remains of
    the session state is the identity and the one mutable flag. *)
Record PlayerSessionState : Type := {
  username : string;
  hasPerformedAllIn : bool;
  logPrefix : string
}.

(** *** Global counters *)

Inductive Counter : Type :=
| successfulRegistrations
| failedRegistrations
| gamesJoined
| allInsMade
| foldsMade.

Definition Counter_eqb (a b : Counter) : bool :=
  match a, b with
  | successfulRegistrations, successfulRegistrations
  | failedRegistrations, failedRegistrations
  | gamesJoined, gamesJoined
  | allInsMade, allInsMade
  | foldsMade, foldsMade => true
  | _, _ => false
  end.

(** The values of the five [int32] variables. *)
Definition Globals : Type := Counter -> Z.

Definition zero : Globals := fun _ => 0.

(** atomic.AddInt32 *)
Definition AddInt32 (g : Globals) (addr : Counter) (delta : Z) : Globals :=
  fun c => if Counter_eqb c addr then Int.wrap 32 (g c + delta) else g c.

(** atomic.LoadInt32 *)
Definition LoadInt32 (g : Globals) (addr : Counter) : Z := g addr.

(** *** Encoding: json.Marshal on the two request structs *)

(** The [data interface{}] argument of sendJSON: the program passes a
    RegistrationMsg or an ActionMsg. *)
Inductive Data : Type :=
| OfRegistrationMsg (m : RegistrationMsg)
| OfActionMsg (m : ActionMsg).

(** [amount] carries omitempty: it is left out when the pointer is nil. *)
Definition Marshal (data : Data) : value :=
  match data with
  | OfRegistrationMsg m =>
      Obj [("username", Str (Username m)); ("password", Str (Password m))]
  | OfActionMsg m =>
      Obj (("action", Str (Action m)) ::
           match Amount m with
           | Some n => [("amount", Num (Int n))]
           | None => []
           end)
  end.

(** *** Decoding: json.Unmarshal into ServerResponse *)

Definition assign_PlayerStateForBet (k : string) (v : value)
    (p : PlayerStateForBet) : option PlayerStateForBet :=
  if String.eqb k "player_id" then
    option_map (fun s => {| PlayerID := s; Chips := Chips p |})
               (into_string v (PlayerID p))
  else if String.eqb k "chips" then
    option_map (fun z => {| PlayerID := PlayerID p; Chips := z |})
               (into_int v (Chips p))
  else Some p.

Definition assign_ActionPlayerBetFullState (k : string) (v : value)
    (s : ActionPlayerBetFullState) : option ActionPlayerBetFullState :=
  if String.eqb k "player" then
    option_map (fun p => {| Player := p |})
               (into_struct assign_PlayerStateForBet v (Player s))
  else Some s.

Definition assign_ServerResponse (k : string) (v : value)
    (r : ServerResponse) : option ServerResponse :=
  let '{| Type_ := ty; Event := ev; Code := co; Message := me; GameID := gi;
          Stage := sg; State := st; MinimumBet := mb |} := r in
  if String.eqb k "type" then
    option_map (fun x => {| Type_ := x; Event := ev; Code := co; Message := me;
                            GameID := gi; Stage := sg; State := st; MinimumBet := mb |})
               (into_string v ty)
  else if String.eqb k "event" then
    option_map (fun x => {| Type_ := ty; Event := x; Code := co; Message := me;
                            GameID := gi; Stage := sg; State := st; MinimumBet := mb |})
               (into_any v)
  else if String.eqb k "code" then
    option_map (fun x => {| Type_ := ty; Event := ev; Code := x; Message := me;
                            GameID := gi; Stage := sg; State := st; MinimumBet := mb |})
               (into_int v co)
  else if String.eqb k "message" then
    option_map (fun x => {| Type_ := ty; Event := ev; Code := co; Message := x;
                            GameID := gi; Stage := sg; State := st; MinimumBet := mb |})
               (into_string v me)
  else if String.eqb k "game_id" then
    option_map (fun x => {| Type_ := ty; Event := ev; Code := co; Message := me;
                            GameID := x; Stage := sg; State := st; MinimumBet := mb |})
               (into_string v gi)
  else if String.eqb k "stage" then
    option_map (fun x => {| Type_ := ty; Event := ev; Code := co; Message := me;
                            GameID := gi; Stage := x; State := st; MinimumBet := mb |})
               (into_string v sg)
  else if String.eqb k "state" then
    option_map (fun x => {| Type_ := ty; Event := ev; Code := co; Message := me;
                            GameID := gi; Stage := sg; State := x; MinimumBet := mb |})
               (into_struct assign_ActionPlayerBetFullState v st)
  else if String.eqb k "minimum_bet" then
    option_map (fun x => {| Type_ := ty; Event := ev; Code := co; Message := me;
                            GameID := gi; Stage := sg; State := st; MinimumBet := x |})
               (into_int v mb)
  else Some r.

(** [var serverResp ServerResponse]: every field at its zero value. *)
Definition zero_ServerResponse : ServerResponse :=
  {| Type_ := ""; Event := Null; Code := 0; Message := ""; GameID := "";
     Stage := ""; State := {| Player := {| PlayerID := ""; Chips := 0 |} |};
     MinimumBet := 0 |}.

Definition Unmarshal (doc : value) : option ServerResponse :=
  into_struct assign_ServerResponse doc zero_ServerResponse.

(** *** The environment and the observable operations *)

Inductive error : Type :=
| DialError
| SetWriteDeadlineError
| WriteError
| SetReadDeadlineError
| ReadError
| UnmarshalError.

(** What the connection answers to one sendJSON. *)
Inductive WriteOutcome : Type :=
| WriteOk
| SetWriteDeadlineFails
| WriteFails.

(** What the connection answers to one readServerMessage: a failure (of
    SetReadDeadline, or of ReadString: timeout, EOF, reset), or a line,
    given by the document it scans to, if any. *)
Inductive ReadOutcome : Type :=
| SetReadDeadlineFails
| ReadFails
| Line (responseLine : option value).

(** Arguments of a log line, kept unformatted. *)
Inductive Arg : Type :=
| AString (s : string)
| ATrimSpace (responseLine : option value)
| AInt (z : Z)
| AError (e : error)
| AValue (v : value)
| AResponse (r : ServerResponse).

Inductive Op : Type :=
| Printf (format : string) (args : list Arg)
| ConnWrite (payload : value)
| AtomicAddInt32 (addr : Counter) (delta : Z)
| ConnClose
| SemaphoreRelease
| WgDone.

(** A computation is the list of operations it performed and its result. *)
Definition M (A : Type) : Type := (list Op * A)%type.

Definition ret {A : Type} (a : A) : M A := ([], a).

Definition bind {A B : Type} (m : M A) (k : A -> M B) : M B :=
  let (t1, a) := m in
  let (t2, b) := k a in
  ((t1 ++ t2)%list, b).

Definition emit (o : Op) : M unit := ([o], tt).

Declare Scope session_scope.
Delimit Scope session_scope with session.
Notation "x <- m ;; k" := (bind m (fun x => k))
  (at level 61, m at next level, right associativity) : session_scope.
Notation "m ;; k" := (bind m (fun _ => k))
  (at level 61, right associativity) : session_scope.
Open Scope session_scope.

Definition ops {A : Type} (m : M A) : list Op := fst m.
Definition result {A : Type} (m : M A) : A := snd m.

(** The effect of a sequence of operations on the counters. *)
Definition exec (g : Globals) (o : Op) : Globals :=
  match o with
  | AtomicAddInt32 addr delta => AddInt32 g addr delta
  | _ => g
  end.

Definition run (g : Globals) (t : list Op) : Globals := fold_left exec t g.

(** *** The session *)

Definition newline : string := String "010" EmptyString.

Definition logVerbose (ps : PlayerSessionState) (format : string)
    (args : list Arg) : M unit :=
  if verboseLogging || (numPlayersToCreate =? 1) then
    emit (Printf (logPrefix ps ++ format ++ newline) args)
  else ret tt.

(** json.Marshal cannot fail on the two request structs, so that branch of
    the source is not reachable. *)
Definition sendJSON (ps : PlayerSessionState) (data : Data)
    (w : WriteOutcome) : M (option error) :=
  let payload := Marshal data in
  logVerbose ps "Sending: %s" [AValue payload] ;;
  match w with
  | SetWriteDeadlineFails =>
      logVerbose ps "Error setting write deadline: %v"
                 [AError SetWriteDeadlineError] ;;
      ret (Some SetWriteDeadlineError)
  | WriteFails =>
      emit (ConnWrite payload) ;;
      logVerbose ps "Error sending data: %v" [AError WriteError] ;;
      ret (Some WriteError)
  | WriteOk =>
      emit (ConnWrite payload) ;;
      ret None
  end.

Definition readServerMessage (ps : PlayerSessionState) (r : ReadOutcome)
    : M (ServerResponse + error) :=
  match r with
  | SetReadDeadlineFails =>
      logVerbose ps "Error setting read deadline: %v"
                 [AError SetReadDeadlineError] ;;
      ret (inr SetReadDeadlineError)
  | ReadFails =>
      logVerbose ps "Error reading server response line: %v"
                 [AError ReadError] ;;
      ret (inr ReadError)
  | Line responseLine =>
      logVerbose ps "Received: %s" [ATrimSpace responseLine] ;;
      match match responseLine with Some d => Unmarshal d | None => None end with
      | None =>
          logVerbose ps "Error unmarshalling server response '%s': %v"
                     [ATrimSpace responseLine; AError UnmarshalError] ;;
          ret (inr UnmarshalError)
      | Some serverResp => ret (inl serverResp)
      end
  end.

Definition register (ps : PlayerSessionState) (password : string)
    (w : WriteOutcome) (r : ReadOutcome) : M bool :=
  let regMsg := {| Username := username ps; Password := password |} in
  err <- sendJSON ps (OfRegistrationMsg regMsg) w ;;
  match err with
  | Some _ =>
      emit (AtomicAddInt32 failedRegistrations 1) ;;
      ret false
  | None =>
      resp <- readServerMessage ps r ;;
      match resp with
      | inr _ =>
          emit (AtomicAddInt32 failedRegistrations 1) ;;
          ret false
      | inl resp =>
          if String.eqb (Type_ resp) "event_player_leaderboard_entry_start" then
            ret true
          else if negb (Code resp =? 0) then
            logVerbose ps "Registration failed: Code %d, Message: %s"
                       [AInt (Code resp); AString (Message resp)] ;;
            emit (AtomicAddInt32 failedRegistrations 1) ;;
            ret false
          else
            logVerbose ps "Registration resulted in unexpected response: Type='%s'"
                       [AString (Type_ resp)] ;;
            emit (AtomicAddInt32 failedRegistrations 1) ;;
            ret false
      end
  end.

Definition joinGame (ps : PlayerSessionState) (w : WriteOutcome) : M bool :=
  let joinMsg := {| Action := "join"; Amount := None |} in
  err <- sendJSON ps (OfActionMsg joinMsg) w ;;
  match err with
  | Some _ => ret false
  | None => ret true
  end.

(** Helper to get a pointer to an int. *)
Definition pint (i : Z) : option Z := Some i.

(** What the environment answers during one iteration of the game loop:
    the value of time.Since(gameStartTime) at its top, the outcome of its
    read, and the outcome of its write should it send. *)
Record Tick : Type := {
  elapsed : Z;
  incoming : ReadOutcome;
  outgoing : WriteOutcome
}.

(** How an iteration leaves the [for] loop. *)
Inductive Flow : Type :=
| Continue
| Return.

Definition gameLoop_body (ps : PlayerSessionState) (t : Tick)
    : M (PlayerSessionState * Flow) :=
  if elapsed t >? gameActivityTimeout then
    logVerbose ps "Game activity timeout. Ending session." [] ;;
    ret (ps, Return)
  else
    r <- readServerMessage ps (incoming t) ;;
    match r with
    | inr err =>
        logVerbose ps "Exiting game loop due to read error: %v" [AError err] ;;
        ret (ps, Return)
    | inl resp =>
        if String.eqb (Type_ resp) "action_player_bet" then
          if String.eqb (PlayerID (Player (State resp))) (username ps) then
            logVerbose ps "It's my turn to bet. Stage: %s, My Chips: %d"
                       [AString (Stage resp); AInt (Chips (Player (State resp)))] ;;
            if negb (hasPerformedAllIn ps) then
              let amountToBet := Chips (Player (State resp)) in
              if amountToBet <=? 0 then
                logVerbose ps
                  "Chips are %d, cannot make a positive bet. Will fold instead of all-in."
                  [AInt amountToBet] ;;
                let betAction := {| Action := "bet"; Amount := pint (-1) |} in
                err <- sendJSON ps (OfActionMsg betAction) (outgoing t) ;;
                match err with
                | Some e =>
                    logVerbose ps "Error sending fold action: %v. Exiting."
                               [AError e] ;;
                    ret (ps, Return)
                | None =>
                    emit (AtomicAddInt32 foldsMade 1) ;;
                    ret (ps, Continue)
                end
              else
                logVerbose ps "Going all-in with %d chips." [AInt amountToBet] ;;
                let betAction := {| Action := "bet"; Amount := pint amountToBet |} in
                err <- sendJSON ps (OfActionMsg betAction) (outgoing t) ;;
                match err with
                | Some e =>
                    logVerbose ps "Error sending all-in bet: %v. Exiting."
                               [AError e] ;;
                    ret (ps, Return)
                | None =>
                    emit (AtomicAddInt32 allInsMade 1) ;;
                    ret ({| username := username ps;
                            hasPerformedAllIn := true;
                            logPrefix := logPrefix ps |}, Continue)
                end
            else
              logVerbose ps "Already performed all-in, now folding." [] ;;
              let foldAction := {| Action := "bet"; Amount := pint (-1) |} in
              err <- sendJSON ps (OfActionMsg foldAction) (outgoing t) ;;
              match err with
              | Some e =>
                  logVerbose ps "Error sending fold action: %v. Exiting."
                             [AError e] ;;
                  ret (ps, Return)
              | None =>
                  emit (AtomicAddInt32 foldsMade 1) ;;
                  ret (ps, Continue)
              end
          else ret (ps, Continue)
        else if String.eqb (Type_ resp) "event_game_over"
                || String.eqb (Type_ resp) "event_player_leaderboard_entry_end" then
          logVerbose ps "Received terminal event: %s. Ending session."
                     [AString (Type_ resp)] ;;
          (if String.eqb (Type_ resp) "event_game_over" && verboseLogging then
             logVerbose ps "Game Over Event Data: %s" [AValue (Event resp)]
           else ret tt) ;;
          ret (ps, Return)
        else if String.eqb (Type_ resp) "event_pot_won" then
          ret (ps, Continue)
        else if String.eqb (Type_ resp) "" then
          (if negb (Code resp =? 0) then
             logVerbose ps "Received error from server: Code %d, Message: %s"
                        [AInt (Code resp); AString (Message resp)]
           else
             logVerbose ps
               "Received message with empty type and no error code. Raw: %+v"
               [AResponse resp]) ;;
          ret (ps, Continue)
        else ret (ps, Continue)
    end.

(** Whether a call has returned, or is still waiting for the environment. *)
Inductive Status : Type :=
| Returned
| Pending.

(** [for { ... }] over the iterations the environment has supplied so far. *)
Fixpoint gameLoop (ps : PlayerSessionState) (env : list Tick)
    : M (PlayerSessionState * Status) :=
  match env with
  | [] => ret (ps, Pending)
  | t :: env' =>
      x <- gameLoop_body ps t ;;
      match x with
      | (ps', Return) => ret (ps', Returned)
      | (ps', Continue) => gameLoop ps' env'
      end
  end.

(** A deferred call runs when the function returns. *)
Definition defer (o : Op) (body : M Status) : M Status :=
  st <- body ;;
  match st with
  | Returned => emit o ;; ret Returned
  | Pending => ret Pending
  end.

(** What the environment answers to one session. *)
Record Network : Type := {
  dial : bool;
  register_write : WriteOutcome;
  register_read : ReadOutcome;
  join_write : WriteOutcome;
  game : list Tick
}.

Definition managePlayerSession (id : Z) (net : Network) : M Status :=
  defer WgDone (defer SemaphoreRelease (
    let playerState :=
      {| username := baseUsername ++ Int.Itoa id;
         hasPerformedAllIn := false;
         logPrefix := "[" ++ (baseUsername ++ Int.Itoa id) ++ "] " |} in
    let password := basePassword ++ Int.Itoa id in
    if negb (dial net) then
      logVerbose playerState "Error dialing TCP server: %v" [AError DialError] ;;
      emit (AtomicAddInt32 failedRegistrations 1) ;;
      ret Returned
    else defer ConnClose (
      ok <- register playerState password (register_write net) (register_read net) ;;
      if negb ok then ret Returned
      else
        emit (AtomicAddInt32 successfulRegistrations 1) ;;
        logVerbose playerState "Successfully registered." [] ;;
        ok <- joinGame playerState (join_write net) ;;
        if negb ok then ret Returned
        else
          emit (AtomicAddInt32 gamesJoined 1) ;;
          logVerbose playerState
            "Successfully sent join action. Waiting for game events..." [] ;;
          x <- gameLoop playerState (game net) ;;
          match snd x with
          | Pending => ret Pending
          | Returned =>
              logVerbose playerState "Session ended." [] ;;
              ret Returned
          end))).

(** *** main: the sessions run concurrently *)

(** The goroutines started by [for i := 0; i < n; i++], one per entry. *)
Fixpoint spawn (i : Z) (nets : list Network) : list (list Op) :=
  match nets with
  | [] => []
  | net :: rest => ops (managePlayerSession i net) :: spawn (i + 1) rest
  end.

(** The sessions share nothing but the counters, which they only add to
    atomically, so an execution of the process is an interleaving of the
    sessions' operation sequences.  (The semaphore and the wait group
    only rule some interleavings out.) *)
Inductive Interleaving : list (list Op) -> list Op -> Prop :=
| Interleaving_done (threads : list (list Op)) :
    Forall (fun t => t = []) threads ->
    Interleaving threads []
| Interleaving_step (before after : list (list Op)) (o : Op)
      (t tr : list Op) :
    Interleaving (before ++ t :: after) tr ->
    Interleaving (before ++ (o :: t) :: after) (o :: tr).

(** The counters main prints after wg.Wait(). *)
Definition report (tr : list Op) : Globals := run zero tr.

(** *** Vocabulary of the statements below *)

(** The documents handed to conn.Write, in order. *)
Fixpoint writes (tr : list Op) : list value :=
  match tr with
  | [] => []
  | ConnWrite payload :: rest => payload :: writes rest
  | _ :: rest => writes rest
  end.

(** How much a sequence of operations adds to one counter. *)
Fixpoint total (c : Counter) (tr : list Op) : Z :=
  match tr with
  | [] => 0
  | AtomicAddInt32 addr delta :: rest =>
      (if Counter_eqb c addr then delta else 0) + total c rest
  | _ :: rest => total c rest
  end.

(** The wire forms of the three requests. *)
Definition registration (user password : string) : value :=
  Marshal (OfRegistrationMsg {| Username := user; Password := password |}).
Definition join : value :=
  Marshal (OfActionMsg {| Action := "join"; Amount := None |}).
Definition bet (amount : Z) : value :=
  Marshal (OfActionMsg {| Action := "bet"; Amount := pint amount |}).

(** The session state after the iterations [env] of the game loop. *)
Definition state_after (ps : PlayerSessionState) (env : list Tick)
    : PlayerSessionState :=
  fst (result (gameLoop ps env)).

(** A betting turn addressed to the session arrives in iteration [t]. *)
Definition my_turn (ps : PlayerSessionState) (t : Tick) (resp : ServerResponse)
    : Prop :=
  elapsed t <= gameActivityTimeout /\
  (exists doc, incoming t = Line (Some doc) /\ Unmarshal doc = Some resp) /\
  Type_ resp = "action_player_bet" /\
  PlayerID (Player (State resp)) = username ps.

(** A bet document whose amount is the fold value or a positive stake. *)
Definition fold_or_stake (v : value) : Prop :=
  exists n, v = bet n /\ (n = -1 \/ 0 < n).

(** The documents session [id] may write. *)
Definition request (id : Z) (v : value) : Prop :=
  v = registration (baseUsername ++ Int.Itoa id) (basePassword ++ Int.Itoa id) \/
  v = join \/
  fold_or_stake v.

(** The tags of ServerResponse. *)
Definition tags : list string :=
  ["type"; "event"; "code"; "message"; "game_id"; "stage"; "state";
   "minimum_bet"].

(** The session takes the success path of registration. *)
Definition registers (net : Network) : bool :=
  dial net &&
  match register_write net with WriteOk => true | _ => false end &&
  match register_read net with
  | Line (Some doc) =>
      match Unmarshal doc with
      | Some resp => String.eqb (Type_ resp) "event_player_leaderboard_entry_start"
      | None => false
      end
  | _ => false
  end.

Definition sumZ (l : list Z) : Z := fold_right Z.add 0 l.

(** The state managePlayerSession starts session [id] with. *)
Definition playerState (id : Z) : PlayerSessionState :=
  {| username := baseUsername ++ Int.Itoa id;
     hasPerformedAllIn := false;
     logPrefix := "[" ++ (baseUsername ++ Int.Itoa id) ++ "] " |}.

(** Every counter holds an [int32]. *)
Definition int32 (g : Globals) : Prop :=
  forall c, - 2 ^ 31 <= g c < 2 ^ 31.

(** *** The scenarios of the specification *)

Module Scenario.

Definition p7 : PlayerSessionState :=
  {| username := "p7"; hasPerformedAllIn := false; logPrefix := "[p7] " |}.

Definition p7_all_in : PlayerSessionState :=
  {| username := "p7"; hasPerformedAllIn := true; logPrefix := "[p7] " |}.

(** A betting turn for [player] holding [chips]. *)
Definition betting_turn (player : string) (chips : Z) : value :=
  Obj [("type", Str "action_player_bet");
       ("state", Obj [("player", Obj [("player_id", Str player);
                                     ("chips", Num (Int chips))])])].

Definition decoded_turn (player : string) (chips : Z) : ServerResponse :=
  {| Type_ := "action_player_bet"; Event := Null; Code := 0; Message := "";
     GameID := ""; Stage := "";
     State := {| Player := {| PlayerID := player; Chips := chips |} |};
     MinimumBet := 0 |}.

(** An iteration in which [doc] arrives in time and the write succeeds. *)
Definition receive (doc : value) : Tick :=
  {| elapsed := 1 * Second; incoming := Line (Some doc); outgoing := WriteOk |}.

Definition entry_start : value :=
  Obj [("type", Str "event_player_leaderboard_entry_start")].

Definition exists_409 : value :=
  Obj [("code", Num (Int 409)); ("message", Str "exists")].

Definition bad_400 : value :=
  Obj [("code", Num (Int 400)); ("message", Str "bad")].

(** A registration answered by [doc]; nothing arrives afterwards. *)
Definition answered (doc : value) : Network :=
  {| dial := true; register_write := WriteOk;
     register_read := Line (Some doc); join_write := WriteOk; game := [] |}.

Definition unreachable : Network :=
  {| dial := false; register_write := WriteOk; register_read := ReadFails;
     join_write := WriteOk; game := [] |}.

(** The success type together with an error code. *)
Definition entry_start_409 : value :=
  Obj [("type", Str "event_player_leaderboard_entry_start");
       ("code", Num (Int 409))].

(** The schedule that alternates between two goroutines. *)
Fixpoint alternate (a b : list Op) : list Op :=
  match a with
  | [] => b
  | o :: a' => o :: match b with
                    | [] => a'
                    | o' :: b' => o' :: alternate a' b'
                    end
  end.

End Scenario.

(** *** Vocabulary of the further properties *)

(** The amount of a bet document. *)
Definition amount_of (v : value) : option Z :=
  match v with
  | Obj [(k1, Str a); (k2, Num (Int n))] =>
      if String.eqb k1 "action" && String.eqb a "bet" && String.eqb k2 "amount"
      then Some n else None
  | _ => None
  end.

(** A bet of a positive amount: an all-in. *)
Definition is_stake (v : value) : bool :=
  match amount_of v with
  | Some n => 0 <? n
  | None => false
  end.

(** The deferred calls of managePlayerSession. *)
Definition is_deferred (o : Op) : bool :=
  match o with
  | ConnClose | SemaphoreRelease | WgDone => true
  | _ => false
  end.

(** The read of an iteration yields no envelope. *)
Definition read_fails (r : ReadOutcome) : bool :=
  match r with
  | Line (Some doc) =>
      match Unmarshal doc with
      | Some _ => false
      | None => true
      end
  | _ => true
  end.

(** The read of an iteration yields the envelope [resp]. *)
Definition decodes (r : ReadOutcome) (resp : ServerResponse) : Prop :=
  exists doc, r = Line (Some doc) /\ Unmarshal doc = Some resp.

(** The two events that end the game loop. *)
Definition terminal (resp : ServerResponse) : bool :=
  String.eqb (Type_ resp) "event_game_over"
  || String.eqb (Type_ resp) "event_player_leaderboard_entry_end".

(** A trace from its first deferred call on. *)
Fixpoint deferred_tail (tr : list Op) : list Op :=
  match tr with
  | [] => []
  | o :: rest => if is_deferred o then tr else deferred_tail rest
  end.

(** The lines of a game loop: folds, at most one all-in, folds. *)
Definition bets_shape (vs : list value) (all_ins : Z) : Prop :=
  exists (a b : nat) (stake : list value),
    vs = (repeat (bet (-1)) a ++ stake ++ repeat (bet (-1)) b)%list /\
    (stake = [] /\ all_ins = 0 \/
     exists n, 0 < n /\ stake = [bet n] /\ (all_ins = 0 \/ all_ins = 1)).

Definition well_formed (r : ServerResponse) : Prop :=
  Int.fits_int (Code r) = true /\
  Int.fits_int (MinimumBet r) = true /\
  Int.fits_int (Chips (Player (State r))) = true /\
  decodable (Event r) = true.

(** The session sent its join and counted the game. *)
Definition joins (net : Network) : bool :=
  registers net && match join_write net with WriteOk => true | _ => false end.

(** *** main: the semaphore and the wait group *)

(** What an operation of a session does to main's semaphore and wait
    group. *)
Definition sync (o : Op) : Pool.Sync :=
  match o with
  | SemaphoreRelease => Pool.Receive
  | WgDone => Pool.Done
  | _ => Pool.Local
  end.

(** main as far as it synchronises, for the sessions the environment
    [nets] gives: the state a schedule of main and the goroutines leads to.
    (The lines main prints before the report are left out.) *)
Definition main (nets : list Network) (schedule : list Pool.Step)
    : option (@Pool.System Op) :=
  Pool.exec sync maxConcurrentRegistrations (spawn 0 nets) Pool.init schedule.

(** Every session comes to its deferred calls. *)
Fixpoint all_return (i : Z) (nets : list Network) : Prop :=
  match nets with
  | [] => True
  | net :: rest =>
      result (managePlayerSession i net) = Returned /\ all_return (i + 1) rest
  end.

(** The sessions started that have their slot of the semaphore still. *)
Definition in_flight (s : @Pool.System Op) : Z :=
  Pool.count (Pool.holds sync) (Pool.goroutines s).

End CreateAndPlay.

(** ** The registration-only client (registerPlayer) *)

Module CreatePlayers.
Import Json.

Definition numPlayersToCreate : Z := 100000000.
Definition maxConcurrentRegistrations : Z := 100.
Definition baseUsername : string := "over".
Definition basePassword : string := "password".

Record RegistrationMsg : Type := {
  Username : string;
  Password : string
}.

Record ServerResponse : Type := {
  Type_ : string;
  Event : value;
  Code : Z;
  Message : string;
  GameID : string
}.

Inductive Counter : Type :=
| successfulRegistrations
| failedRegistrations.

Definition Marshal (m : RegistrationMsg) : value :=
  Obj [("username", Str (Username m)); ("password", Str (Password m))].

Definition assign_ServerResponse (k : string) (v : value)
    (r : ServerResponse) : option ServerResponse :=
  let '{| Type_ := ty; Event := ev; Code := co; Message := me; GameID := gi |} := r in
  if String.eqb k "type" then
    option_map (fun x => {| Type_ := x; Event := ev; Code := co; Message := me;
                            GameID := gi |}) (into_string v ty)
  else if String.eqb k "event" then
    option_map (fun x => {| Type_ := ty; Event := x; Code := co; Message := me;
                            GameID := gi |}) (into_any v)
  else if String.eqb k "code" then
    option_map (fun x => {| Type_ := ty; Event := ev; Code := x; Message := me;
                            GameID := gi |}) (into_int v co)
  else if String.eqb k "message" then
    option_map (fun x => {| Type_ := ty; Event := ev; Code := co; Message := x;
                            GameID := gi |}) (into_string v me)
  else if String.eqb k "game_id" then
    option_map (fun x => {| Type_ := ty; Event := ev; Code := co; Message := me;
                            GameID := x |}) (into_string v gi)
  else Some r.

Definition Unmarshal (doc : value) : option ServerResponse :=
  into_struct assign_ServerResponse doc
    {| Type_ := ""; Event := Null; Code := 0; Message := ""; GameID := "" |}.

(** What the environment answers to one registration attempt. *)
Record Network : Type := {
  dial : bool;
  set_deadline : bool;
  write : bool;
  read : option (option value)
}.

Inductive Arg : Type :=
| AString (s : string)
| ALine (responseLine : option value)
| AInt (z : Z)
| AError.

Inductive Op : Type :=
| Fprintf_Stderr (format : string) (args : list Arg)
| ConnWrite (payload : value)
| AtomicAddInt32 (addr : Counter) (delta : Z)
| ConnClose
| SemaphoreRelease
| WgDone.

(** The operations of one call, in order; the deferred calls come last,
    innermost first. *)
Definition registerPlayer (id : Z) (net : Network) : list Op :=
  let username := baseUsername ++ Int.Itoa id in
  let password := basePassword ++ Int.Itoa id in
  (if negb (dial net) then
     [Fprintf_Stderr "[%s] Error dialing TCP server: %v"
                     [AString username; AError];
      AtomicAddInt32 failedRegistrations 1]
   else
     (if negb (set_deadline net) then
        [Fprintf_Stderr "[%s] Error setting deadline: %v"
                        [AString username; AError];
         AtomicAddInt32 failedRegistrations 1]
      else
        let regMsg := {| Username := username; Password := password |} in
        let regPayload := Marshal regMsg in
        ConnWrite regPayload ::
        (if negb (write net) then
           [Fprintf_Stderr "[%s] Error sending registration data: %v"
                           [AString username; AError];
            AtomicAddInt32 failedRegistrations 1]
         else
           match read net with
           | None =>
               [Fprintf_Stderr "[%s] Error reading server response: %v"
                               [AString username; AError];
                AtomicAddInt32 failedRegistrations 1]
           | Some responseLine =>
               match match responseLine with Some d => Unmarshal d | None => None end with
               | None =>
                   [Fprintf_Stderr
                      "[%s] Error unmarshalling server response '%s': %v"
                      [AString username; ALine responseLine; AError];
                    AtomicAddInt32 failedRegistrations 1]
               | Some serverResp =>
                   if String.eqb (Type_ serverResp)
                                 "event_player_leaderboard_entry_start" then
                     [AtomicAddInt32 successfulRegistrations 1]
                   else if negb (Code serverResp =? 0) then
                     [Fprintf_Stderr
                        "[%s] Registration failed: Code %d, Message: %s"
                        [AString username; AInt (Code serverResp);
                         AString (Message serverResp)];
                      AtomicAddInt32 failedRegistrations 1]
                   else
                     [Fprintf_Stderr
                        "[%s] Registration resulted in unexpected response: Type='%s', Message='%s'"
                        [AString username; AString (Type_ serverResp);
                         AString (Message serverResp)];
                      AtomicAddInt32 failedRegistrations 1]
               end
           end))
     ++ [ConnClose])
  ++ [SemaphoreRelease; WgDone].

(** *** The counters, and main *)

Definition Counter_eqb (a b : Counter) : bool :=
  match a, b with
  | successfulRegistrations, successfulRegistrations => true
  | failedRegistrations, failedRegistrations => true
  | _, _ => false
  end.

Definition Globals : Type := Counter -> Z.

Definition zero : Globals := fun _ => 0.

(** atomic.AddInt32 *)
Definition AddInt32 (g : Globals) (addr : Counter) (delta : Z) : Globals :=
  fun c => if Counter_eqb c addr then Int.wrap 32 (g c + delta) else g c.

(** atomic.LoadInt32 *)
Definition LoadInt32 (g : Globals) (addr : Counter) : Z := g addr.

Definition exec (g : Globals) (o : Op) : Globals :=
  match o with
  | AtomicAddInt32 addr delta => AddInt32 g addr delta
  | _ => g
  end.

Definition run (g : Globals) (t : list Op) : Globals := fold_left exec t g.

(** The counters main prints after wg.Wait(). *)
Definition report (tr : list Op) : Globals := run zero tr.

(** How much a sequence of operations adds to one counter. *)
Fixpoint total (c : Counter) (tr : list Op) : Z :=
  match tr with
  | [] => 0
  | AtomicAddInt32 addr delta :: rest =>
      (if Counter_eqb c addr then delta else 0) + total c rest
  | _ :: rest => total c rest
  end.

(** The documents handed to conn.Write, in order. *)
Fixpoint writes (tr : list Op) : list value :=
  match tr with
  | [] => []
  | ConnWrite payload :: rest => payload :: writes rest
  | _ :: rest => writes rest
  end.

Definition sumZ (l : list Z) : Z := fold_right Z.add 0 l.

(** The goroutines started by [for i := 0; i < n; i++], one per entry. *)
Fixpoint spawn (i : Z) (nets : list Network) : list (list Op) :=
  match nets with
  | [] => []
  | net :: rest => registerPlayer i net :: spawn (i + 1) rest
  end.

(** What an operation of registerPlayer does to main's semaphore and wait
    group. *)
Definition sync (o : Op) : Pool.Sync :=
  match o with
  | SemaphoreRelease => Pool.Receive
  | WgDone => Pool.Done
  | _ => Pool.Local
  end.

(** main as far as it synchronises: the state a schedule of main and the
    goroutines leads to.  (Its pause before the loop and the lines it prints
    before the report are left out.) *)
Definition main (nets : list Network) (schedule : list Pool.Step)
    : option (@Pool.System Op) :=
  Pool.exec sync maxConcurrentRegistrations (spawn 0 nets) Pool.init schedule.

(** The attempts started that have their slot still. *)
Definition in_flight (s : @Pool.System Op) : Z :=
  Pool.count (Pool.holds sync) (Pool.goroutines s).

(** The deferred calls of registerPlayer. *)
Definition is_deferred (o : Op) : bool :=
  match o with
  | ConnClose | SemaphoreRelease | WgDone => true
  | _ => false
  end.

(** The attempt takes the success path. *)
Definition accepted (net : Network) : bool :=
  dial net && set_deadline net && write net &&
  match read net with
  | Some (Some doc) =>
      match Unmarshal doc with
      | Some resp => String.eqb (Type_ resp) "event_player_leaderboard_entry_start"
      | None => false
      end
  | _ => false
  end.

(** The registration the attempt [id] sends. *)
Definition registration (id : Z) : value :=
  Marshal {| Username := baseUsername ++ Int.Itoa id;
             Password := basePassword ++ Int.Itoa id |}.

(** Two answers of the environment. *)
Definition unreachable : Network :=
  {| dial := false; set_deadline := true; write := true; read := None |}.

Definition answered (doc : value) : Network :=
  {| dial := true; set_deadline := true; write := true;
     read := Some (Some doc) |}.

End CreatePlayers.

(** ** The duration-bounded attack: attackWorker and the end of main *)

Module Attack.

Definition numAttackers : Z := 5000.
Definition attackDurationSeconds : Z := 30.
Definition StatusOK : Z := 200.

Inductive Counter : Type :=
| requestsSent
| successfulHits
| failedHits.

Definition Counter_eqb (a b : Counter) : bool :=
  match a, b with
  | requestsSent, requestsSent
  | successfulHits, successfulHits
  | failedHits, failedHits => true
  | _, _ => false
  end.

Definition Globals : Type := Counter -> Z.

(** atomic.AddInt64 *)
Definition AddInt64 (g : Globals) (addr : Counter) (delta : Z) : Globals :=
  fun c => if Counter_eqb c addr then Int.wrap 64 (g c + delta) else g c.

(** Where a worker goroutine stands in attackWorker. *)
Inductive Worker : Type :=
| AtSelect                    (* top of the loop: the select statement *)
| AtAdd                       (* default taken: atomic.AddInt64(&requestsSent, 1) is next *)
| AtGet                       (* client.Get(attackURL) is next *)
| InGet                       (* the request is in flight *)
| AtFailed                    (* err != nil: atomic.AddInt64(&failedHits, 1) is next *)
| AtSleep                     (* time.Sleep(50 * time.Millisecond) *)
| AtDrain (StatusCode : Z)    (* io.Copy(io.Discard, resp.Body); resp.Body.Close() *)
| AtStatus (StatusCode : Z)   (* if resp.StatusCode == http.StatusOK *)
| Exited.                     (* returned; the deferred wg.Done() has run *)

(** One atomic step of a worker; what the network answers is part of the
    step's name. *)
Inductive WorkerStep : Type :=
| SeeStop                     (* case <-stopSignal: return *)
| SeeNoStop                   (* default: *)
| CountRequest
| CallGet
| GetFails
| GetReturns (StatusCode : Z)
| CountFailure
| WakeUp
| Drain
| Classify.

(** Where main stands, from the creation of stopSignal on. *)
Inductive Main : Type :=
| Spawning (i : Z)            (* for i := 0; i < numAttackers; i++ *)
| Running                     (* for running { select { ... } } with running true *)
| Closing                     (* running is false: close(stopSignal) is next *)
| Waiting                     (* wg.Wait() *)
| Finished.

Inductive Step : Type :=
| Go_attackWorker             (* wg.Add(1); go attackWorker(...) *)
| LoopEnds                    (* i == numAttackers: the ticker is started *)
| Tick (after : bool)         (* <-ticker.C, and time.Now().After(attackEndTime) *)
| Close_stopSignal
| WaitReturns
| Of (w : nat) (a : WorkerStep).

Record System : Type := {
  main : Main;
  stopSignal : bool;          (* whether the channel has been closed *)
  workers : list Worker;
  wg : Z;
  globals : Globals
}.

Definition init : System :=
  {| main := Spawning 0; stopSignal := false; workers := []; wg := 0;
     globals := fun _ => 0 |}.

(** A select whose channel case is ready never takes its default; the
    channel is ready exactly when it has been closed, nothing being sent
    on it. *)
Definition worker_step (closed : bool) (w : Worker) (a : WorkerStep)
    : option (Worker * option Counter) :=
  match w, a with
  | AtSelect, SeeStop => if closed then Some (Exited, None) else None
  | AtSelect, SeeNoStop => if closed then None else Some (AtAdd, None)
  | AtAdd, CountRequest => Some (AtGet, Some requestsSent)
  | AtGet, CallGet => Some (InGet, None)
  | InGet, GetFails => Some (AtFailed, None)
  | InGet, GetReturns code => Some (AtDrain code, None)
  | AtFailed, CountFailure => Some (AtSleep, Some failedHits)
  | AtSleep, WakeUp => Some (AtSelect, None)
  | AtDrain code, Drain => Some (AtStatus code, None)
  | AtStatus code, Classify =>
      if code =? StatusOK then Some (AtSelect, Some successfulHits)
      else Some (AtSelect, Some failedHits)
  | _, _ => None
  end.

Fixpoint replace (n : nat) (w : Worker) (l : list Worker) : list Worker :=
  match l, n with
  | [], _ => []
  | _ :: r, O => w :: r
  | x :: r, S m => x :: replace m w r
  end.

Definition step (s : System) (a : Step) : option System :=
  match a with
  | Go_attackWorker =>
      match main s with
      | Spawning i =>
          if i <? numAttackers then
            Some {| main := Spawning (i + 1); stopSignal := stopSignal s;
                    workers := workers s ++ [AtSelect]; wg := wg s + 1;
                    globals := globals s |}
          else None
      | _ => None
      end
  | LoopEnds =>
      match main s with
      | Spawning i =>
          if i <? numAttackers then None
          else Some {| main := Running; stopSignal := stopSignal s;
                       workers := workers s; wg := wg s; globals := globals s |}
      | _ => None
      end
  | Tick after =>
      match main s with
      | Running =>
          Some {| main := if after then Closing else Running;
                  stopSignal := stopSignal s; workers := workers s;
                  wg := wg s; globals := globals s |}
      | _ => None
      end
  | Close_stopSignal =>
      match main s with
      | Closing =>
          Some {| main := Waiting; stopSignal := true; workers := workers s;
                  wg := wg s; globals := globals s |}
      | _ => None
      end
  | WaitReturns =>
      match main s with
      | Waiting =>
          if wg s =? 0 then
            Some {| main := Finished; stopSignal := stopSignal s;
                    workers := workers s; wg := wg s; globals := globals s |}
          else None
      | _ => None
      end
  | Of n a =>
      match nth_error (workers s) n with
      | None => None
      | Some w =>
          match worker_step (stopSignal s) w a with
          | None => None
          | Some (w', add) =>
              Some {| main := main s; stopSignal := stopSignal s;
                      workers := replace n w' (workers s);
                      wg := match w' with Exited => wg s - 1 | _ => wg s end;
                      globals := match add with
                                 | Some c => AddInt64 (globals s) c 1
                                 | None => globals s
                                 end |}
          end
      end
  end.

(** The state after a schedule, if every step of it is enabled. *)
Fixpoint exec (s : System) (schedule : list Step) : option System :=
  match schedule with
  | [] => Some s
  | a :: rest =>
      match step s a with
      | Some s' => exec s' rest
      | None => None
      end
  end.

(** The steps of worker [n] in a schedule, in order. *)
Fixpoint steps_of (n : nat) (schedule : list Step) : list WorkerStep :=
  match schedule with
  | [] => []
  | Of m a :: rest =>
      if Nat.eqb m n then a :: steps_of n rest else steps_of n rest
  | _ :: rest => steps_of n rest
  end.

(** The part of a schedule after close(stopSignal). *)
Fixpoint after_close (schedule : list Step) : list Step :=
  match schedule with
  | [] => []
  | Close_stopSignal :: rest => rest
  | _ :: rest => after_close rest
  end.

Definition starts_request (a : WorkerStep) : bool :=
  match a with CallGet => true | _ => false end.

Definition completes_request (a : WorkerStep) : bool :=
  match a with GetFails | GetReturns _ => true | _ => false end.

Definition count (p : WorkerStep -> bool) (steps : list WorkerStep) : nat :=
  List.length (filter p steps).

(** Where a step leads a worker while the channel is in state [closed]. *)
Definition next (closed : bool) (w : Worker) (a : WorkerStep) : option Worker :=
  option_map fst (worker_step closed w a).

(** Where a step leads a worker, whatever the state of the channel. *)
Definition next_any (w : Worker) (a : WorkerStep) : option Worker :=
  match next false w a with
  | Some w' => Some w'
  | None => next true w a
  end.

Fixpoint path (f : Worker -> WorkerStep -> option Worker) (w : Worker)
    (steps : list WorkerStep) : option Worker :=
  match steps with
  | [] => Some w
  | a :: rest =>
      match f w a with
      | Some w' => path f w' rest
      | None => None
      end
  end.

(** Worker [n] of a system; a goroutine not yet started stands at the top
    of its loop. *)
Definition worker (s : System) (n : nat) : Worker := nth n (workers s) AtSelect.

(** How many requests a worker can still start, and complete, once the
    channel is closed. *)
Definition may_start (w : Worker) : nat :=
  match w with AtAdd | AtGet => 1 | _ => 0 end.
Definition may_complete (w : Worker) : nat :=
  match w with AtAdd | AtGet | InGet => 1 | _ => 0 end.

(** A run in which worker 0 has a request in flight when main closes the
    channel: all workers are started, worker 0 passes the select and
    calls Get, the deadline tick arrives, the channel is closed, the
    response comes back and worker 0 sees the signal at its next select. *)
Definition in_flight_at_close : list Step :=
  Go_attackWorker :: Of 0 SeeNoStop :: Of 0 CountRequest ::
  repeat Go_attackWorker 4999 ++
  [LoopEnds; Tick false; Of 0 CallGet; Tick true; Close_stopSignal;
   Of 0 (GetReturns 200); Of 0 Drain; Of 0 Classify; Of 0 SeeStop].

(** *** Vocabulary of the further properties *)

(** A worker has counted a request in requestsSent and not yet its
    outcome. *)
Definition pending (w : Worker) : Z :=
  match w with
  | AtGet | InGet | AtFailed | AtDrain _ | AtStatus _ => 1
  | _ => 0
  end.

(** A worker has not yet called wg.Done(). *)
Definition live (w : Worker) : Z :=
  match w with
  | Exited => 0
  | _ => 1
  end.

Definition sumZ (l : list Z) : Z := fold_right Z.add 0 l.

(** The steps a worker needs at most to return once the channel is
    closed. *)
Definition steps_left (w : Worker) : nat :=
  match w with
  | AtAdd => 6
  | AtGet => 5
  | InGet => 4
  | AtFailed | AtDrain _ => 3
  | AtSleep | AtStatus _ => 2
  | AtSelect => 1
  | Exited => 0
  end.

(** What holds of every state main and the workers can be in. *)
Definition invariant (s : System) : Prop :=
  Int.wrap 64 (globals s successfulHits + globals s failedHits
               + sumZ (map pending (workers s))) = globals s requestsSent /\
  wg s = sumZ (map live (workers s)) /\
  match main s with
  | Spawning i =>
      Z.of_nat (List.length (workers s)) = i /\ i <= numAttackers /\
      stopSignal s = false
  | Running | Closing =>
      Z.of_nat (List.length (workers s)) = numAttackers /\ stopSignal s = false
  | Waiting =>
      Z.of_nat (List.length (workers s)) = numAttackers /\ stopSignal s = true
  | Finished =>
      Z.of_nat (List.length (workers s)) = numAttackers /\ stopSignal s = true /\
      wg s = 0
  end.

(** A run to the end: worker 0 completes one request that was in flight
    when the channel was closed, the other workers see the signal at their
    first select, and main returns from wg.Wait(). *)
Definition full_run : list Step :=
  (in_flight_at_close ++
   map (fun n => Of n SeeStop) (seq 1 4999) ++ [WaitReturns])%list.

(** A state main and the workers can be in. *)
Definition reachable (s : System) : Prop :=
  exists schedule, exec init schedule = Some s.

End Attack.

(** ** The discovery of the game to attack (the first half of main) *)

Module Discovery.
Import Attack.

Definition baseURL : string := "http://eah-2025-ai-jam.dev.elastic.cloud:8082".
Definition targetPlayerID : string := "example-bot-go".
Definition findPlayerRetryDelaySeconds : Z := 1.
Definition maxFindPlayerAttempts : Z := 100.
Definition Second : Z := 1000000000.

Record ListedPlayer : Type := {
  PlayerID : string;
  Chips : Z
}.

(** A slice is [None] when it is nil. *)
Record ListedGameState : Type := {
  GameState_GameID : string;
  Players : option (list ListedPlayer)
}.

Record ListedGame : Type := {
  GameID : string;
  GameState : ListedGameState;
  Timestamp : string
}.

(** What the server answers to a GET, as far as the client looks at it:
    [Body] is what io.ReadAll reads, [Decoded] what Decode stores into a
    zero target ([None] when it returns an error). *)
Record Response (A : Type) : Type := {
  StatusCode : Z;
  Status : string;
  Body : string;
  Decoded : option A
}.
Arguments StatusCode {A} _.
Arguments Status {A} _.
Arguments Body {A} _.
Arguments Decoded {A} _.

(** client.Get: an error, or a response. *)
Inductive Get (A : Type) : Type :=
| NoResponse
| Responds (resp : Response A).
Arguments NoResponse {A}.
Arguments Responds {A} resp.

Inductive error : Type :=
| GetError (url : string)
    (* "error making GET request to %s: %w" *)
| StatusError (url : string) (StatusCode : Z) (Status Body : string)
    (* "received non-200 status code from %s: %d %s. Body: %s" *)
| DecodeError (url : string)
    (* "error decoding JSON from %s: %w" *)
| FetchError (err : error)
    (* "failed to fetch list of games: %w" *)
| NoGames.
    (* "no games found in the list from /api/v0/games (empty list received)" *)

(** The target after the call, and the error. *)
Definition getAndUnmarshal {A : Type} (url : string) (target : A) (get : Get A)
    : A * option error :=
  match get with
  | NoResponse => (target, Some (GetError url))
  | Responds resp =>
      if negb (StatusCode resp =? StatusOK) then
        (target, Some (StatusError url (StatusCode resp) (Status resp) (Body resp)))
      else
        match Decoded resp with
        | None => (target, Some (DecodeError url))
        | Some v => (v, None)
        end
  end.

Inductive Arg : Type :=
| AString (s : string)
| AInt (z : Z)
| AError (err : error).

Inductive Output : Type :=
| Printf (format : string) (args : list Arg)
| Fprintf_Stderr (format : string) (args : list Arg)
| Sleep (d : Z)
| Exit (code : Z).

(** [for _, player := range game.GameState.Players] up to its return. *)
Definition lists (playerIDToFind : string) (game : ListedGame) : bool :=
  match Players (GameState game) with
  | Some players =>
      existsb (fun player => String.eqb (PlayerID player) playerIDToFind) players
  | None => false
  end.

(** [for _, game := range listedGames] up to its return. *)
Fixpoint first_listing (playerIDToFind : string) (listedGames : list ListedGame)
    : option ListedGame :=
  match listedGames with
  | [] => None
  | game :: rest =>
      if lists playerIDToFind game then Some game
      else first_listing playerIDToFind rest
  end.

Definition len {A : Type} (slice : option (list A)) : Z :=
  match slice with
  | Some l => Z.of_nat (List.length l)
  | None => 0
  end.

(** What is printed, and the two results. *)
Definition findTargetPlayerGameIDInCurrentList (playerIDToFind : string)
    (get : Get (option (list ListedGame)))
    : list Output * (string * option error) :=
  let url := baseURL ++ "/api/v0/games" in
  let (listedGames, err) := getAndUnmarshal url None get in
  match err with
  | Some e => ([], ("", Some (FetchError e)))
  | None =>
      if len listedGames =? 0 then ([], ("", Some NoGames))
      else
        match first_listing playerIDToFind
                (match listedGames with Some l => l | None => [] end) with
        | Some game =>
            ([Printf "Found player %s in gameID: %s"
                     [AString playerIDToFind; AString (GameID game)]],
             (GameID game, None))
        | None => ([], ("", None))
        end
  end.

(** One iteration of [for attempt := 1; attempt <= maxFindPlayerAttempts;
    attempt++] in main: what is printed, and [gameIDToAttack] if the
    iteration sets [foundPlayer] and breaks. *)
Definition find_attempt (attempt : Z) (get : Get (option (list ListedGame)))
    : list Output * option string :=
  let (found, res) := findTargetPlayerGameIDInCurrentList targetPlayerID get in
  let (gameIDToAttack, err) := res in
  let tried :=
    (Printf "Attempt %d/%d to find player %s..."
            [AInt attempt; AInt maxFindPlayerAttempts; AString targetPlayerID]
     :: found)%list in
  match err, String.eqb gameIDToAttack "" with
  | None, false => (tried, Some gameIDToAttack)
  | _, _ =>
      let complained :=
        match err with
        | Some e =>
            [Fprintf_Stderr
               "  Error during attempt %d to find player's game: %v"
               [AInt attempt; AError e]]
        | None => []
        end in
      let missed :=
        if String.eqb gameIDToAttack "" &&
           match err with None => true | Some _ => false end
        then [Printf
                "  Player %s not found in current game list (attempt %d/%d)."
                [AString targetPlayerID; AInt attempt;
                 AInt maxFindPlayerAttempts]]
        else [] in
      let waited :=
        if attempt <? maxFindPlayerAttempts then
          [Printf "  Will retry in %d seconds..."
                  [AInt findPlayerRetryDelaySeconds];
           Sleep (findPlayerRetryDelaySeconds * Second)]
        else [] in
      ((tried ++ complained ++ missed ++ waited)%list, None)
  end.

(** The loop from the test of [attempt] on: what is printed, and
    [gameIDToAttack] if [foundPlayer] is set.  [answer attempt] is what the
    server answers to the request of that attempt; [None] is returned when
    [fuel] iterations do not finish the loop. *)
Fixpoint find_loop (fuel : nat) (attempt : Z)
    (answer : Z -> Get (option (list ListedGame)))
    : option (list Output * option string) :=
  match fuel with
  | O => None
  | S fuel' =>
      if attempt <=? maxFindPlayerAttempts then
        match find_attempt attempt (answer attempt) with
        | (tr, Some gameIDToAttack) => Some (tr, Some gameIDToAttack)
        | (tr, None) =>
            match find_loop fuel' (attempt + 1) answer with
            | Some (later, r) => Some ((tr ++ later)%list, r)
            | None => None
            end
        end
      else Some ([], None)
  end.

(** main from [var gameIDToAttack string] up to the start of the workers:
    what is printed, and the game the workers are started on, if they
    are. *)
Definition find_game (fuel : nat) (answer : Z -> Get (option (list ListedGame)))
    : option (list Output * option string) :=
  match find_loop fuel 1 answer with
  | None => None
  | Some (tr, Some gameIDToAttack) =>
      Some ((Printf "Attempting to find player %s in an active game..."
                    [AString targetPlayerID]
             :: tr ++
             [Printf "Starting DoS attack on gameID %s for %d seconds with %d attackers..."
                     [AString gameIDToAttack; AInt attackDurationSeconds;
                      AInt numAttackers]])%list,
            Some gameIDToAttack)
  | Some (tr, None) =>
      Some ((Printf "Attempting to find player %s in an active game..."
                    [AString targetPlayerID]
             :: tr ++
             [Fprintf_Stderr
                "Error: Could not find player %s in any game after %d attempts. Exiting."
                [AString targetPlayerID; AInt maxFindPlayerAttempts];
              Exit 1])%list,
            None)
  end.

(** *** Vocabulary *)

(** The game an attempt finds: the first listed game with the player, if
    its id is not empty. *)
Definition finds (get : Get (option (list ListedGame))) : option string :=
  match snd (findTargetPlayerGameIDInCurrentList targetPlayerID get) with
  | (gameID, None) => if String.eqb gameID "" then None else Some gameID
  | (_, Some _) => None
  end.

Definition is_sleep (o : Output) : bool :=
  match o with Sleep _ => true | _ => false end.

Definition is_attempt (o : Output) : bool :=
  match o with
  | Printf format _ => String.eqb format "Attempt %d/%d to find player %s..."
  | _ => false
  end.

(** The player is among the players of the game. *)
Definition plays (playerID : string) (game : ListedGame) : Prop :=
  exists players player,
    Players (GameState game) = Some players /\
    In player players /\ PlayerID player = playerID.

(** How often main sleeps, and how many attempts it announces. *)
Definition sleeps (tr : list Output) : Z :=
  Z.of_nat (List.length (filter is_sleep tr)).

Definition attempts (tr : list Output) : Z :=
  Z.of_nat (List.length (filter is_attempt tr)).

Definition is_exit (o : Output) : bool :=
  match o with Exit _ => true | _ => false end.

(** Answers of the environment: a list of one game, and a server that
    fails the first request and lists the player on the second. *)
Definition listing (gameID : string) (players : list string)
    : Get (option (list ListedGame)) :=
  Responds
    {| StatusCode := 200; Status := "200 OK"; Body := "";
       Decoded :=
         Some (Some [{| GameID := gameID;
                        GameState :=
                          {| GameState_GameID := gameID;
                             Players :=
                               Some (map (fun p => {| PlayerID := p; Chips := 1000 |})
                                         players) |};
                        Timestamp := "" |}]) |}.

Definition second_time (attempt : Z) : Get (option (list ListedGame)) :=
  if attempt =? 2 then listing "g7" ["p1"; targetPlayerID] else NoResponse.

End Discovery.

(** * The semaphore and the wait group of main *)

Section Launch.
Import Pool.
#[local] Open Scope list_scope.
Context {Op : Type}.
Variable sync : Op -> Sync.
Variable capacity : Z.
Variable threads : list (list Op).
Hypothesis capacity_positive : 0 < capacity.
Hypothesis threads_return : Forall (returns sync) threads.

#[local] Abbreviation System := (@System Op).
#[local] Abbreviation step := (step sync capacity threads).
#[local] Abbreviation exec := (exec sync capacity threads).
#[local] Abbreviation invariant := (invariant sync capacity threads).
#[local] Abbreviation remaining := (remaining sync).
#[local] Abbreviation holds := (holds sync).

Lemma nth_error_split_replace {A : Type} (l : list A) :
  forall (n : nat) (x y : A),
    nth_error l n = Some x ->
    exists before after,
      l = (before ++ x :: after)%list /\
      replace n y l = (before ++ y :: after)%list.
Proof.
  induction l as [|z l IH]; intros [|n] x y H; cbn in H; try discriminate.
  - injection H as ->. exists [], l. split; reflexivity.
  - destruct (IH n x y H) as (before & after & -> & Hr).
    exists (z :: before), after. cbn. rewrite Hr. split; reflexivity.
Qed.

Lemma count_app {A : Type} (p : A -> bool) (l r : list A) :
  count p (l ++ r) = count p l + count p r.
Proof. unfold count. rewrite filter_app, length_app. lia. Qed.

Lemma count_cons {A : Type} (p : A -> bool) (x : A) (l : list A) :
  count p (x :: l) = (if p x then 1 else 0) + count p l.
Proof. unfold count. cbn. destruct (p x); cbn [List.length]; lia. Qed.

Lemma count_nonneg {A : Type} (p : A -> bool) (l : list A) : 0 <= count p l.
Proof. unfold count. lia. Qed.

Lemma count_exists {A : Type} (p : A -> bool) (l : list A) :
  0 < count p l -> exists n x, nth_error l n = Some x /\ p x = true.
Proof.
  induction l as [|y l IH]; [unfold count; cbn; lia|].
  rewrite count_cons. destruct (p y) eqn:Hy.
  - intros _. exists O, y. split; [reflexivity | exact Hy].
  - intros H. destruct IH as (n & x & Hn & Hx); [lia|].
    exists (S n), x. split; assumption.
Qed.

Lemma count_none {A : Type} (p : A -> bool) (l : list A) :
  count p l = 0 -> Forall (fun x => p x = false) l.
Proof.
  induction l as [|y l IH]; [constructor|].
  rewrite count_cons. pose proof (count_nonneg p l).
  destruct (p y) eqn:Hy; intros H0; [lia|].
  constructor; [exact Hy | apply IH; lia].
Qed.

(** What the head of a started goroutine is, and what it leaves. *)
Lemma remaining_head (o : Op) (rest : list Op) :
  remaining (o :: rest) ->
  remaining rest /\
  match sync o with
  | Done => rest = []
  | Receive => holds rest = false /\ unfinished rest = true
  | Local => holds rest = true /\ unfinished rest = true
  end.
Proof.
  intros [H | [(d & H & Hd) | (body & r & d & H & Hb & Hr & Hd)]].
  - discriminate.
  - injection H as -> ->. rewrite Hd. split; [left|]; reflexivity.
  - destruct body as [|b body]; cbn in H; injection H as -> ->.
    + rewrite Hr. split; [right; left; exists d; split; [reflexivity | exact Hd]|].
      cbn. rewrite Hd. split; reflexivity.
    + inversion Hb as [|? ? Hb1 Hb2]; subst. rewrite Hb1. split.
      * right; right. exists body, r, d. repeat split; assumption.
      * split.
        -- unfold Pool.holds. rewrite existsb_app. cbn. rewrite Hr.
           apply orb_true_r.
        -- destruct body; reflexivity.
Qed.

Lemma holds_head (o : Op) (rest : list Op) :
  holds (o :: rest) =
  match sync o with Receive => true | _ => holds rest end.
Proof. unfold Pool.holds. cbn. destruct (sync o); reflexivity. Qed.

Lemma returns_holds (t : list Op) : returns sync t -> holds t = true.
Proof.
  intros (body & r & d & -> & _ & Hr & _).
  unfold Pool.holds. rewrite existsb_app. cbn. rewrite Hr. apply orb_true_r.
Qed.

Lemma returns_unfinished (t : list Op) : returns sync t -> unfinished t = true.
Proof. intros (body & r & d & -> & _). destruct body; reflexivity. Qed.

Lemma returns_base (r d : Op) :
  sync r = Receive -> sync d = Done -> returns sync [r; d].
Proof. intros Hr Hd. exists [], r, d. repeat split; try assumption. constructor. Qed.

Lemma returns_cons (o : Op) (l : list Op) :
  sync o = Local -> returns sync l -> returns sync (o :: l).
Proof.
  intros Ho (body & r & d & -> & Hb & Hr & Hd).
  exists (o :: body), r, d. repeat split; try assumption.
  constructor; assumption.
Qed.

Lemma returns_app (tr l : list Op) :
  Forall (fun o => sync o = Local) tr ->
  returns sync l -> returns sync (tr ++ l).
Proof.
  induction 1 as [|o tr Ho _ IH]; intros Hl; [exact Hl|].
  cbn. apply returns_cons; [exact Ho | exact (IH Hl)].
Qed.

Lemma skipn_nth_error {A : Type} (l : list A) :
  forall (i : nat) (x : A),
    nth_error l i = Some x -> skipn i l = x :: skipn (S i) l.
Proof.
  induction l as [|y l IH]; intros [|i] x H; cbn in H; try discriminate.
  - injection H as ->. reflexivity.
  - exact (IH i x H).
Qed.

Lemma holds_initially : invariant init.
Proof.
  unfold Pool.invariant. cbn. repeat split; try lia.
  - constructor.
  - intros tr H. exact H.
Qed.

Lemma step_of (s s' : System) (n : nat) :
  step s (Of n) = Moves s' ->
  main s <> Exited /\
  exists o rest,
    nth_error (goroutines s) n = Some (o :: rest) /\
    main s' = main s /\ closed s' = closed s /\ reported s' = reported s /\
    goroutines s' = replace n rest (goroutines s) /\
    log s' = (log s ++ [o])%list /\
    match sync o with
    | Receive =>
        wg s' = wg s /\
        (0 < semaphore s /\ semaphore s' = semaphore s - 1 \/
         semaphore s <= 0 /\ closed s = true /\ semaphore s' = semaphore s)
    | Done => 0 < wg s /\ wg s' = wg s - 1 /\ semaphore s' = semaphore s
    | Local => wg s' = wg s /\ semaphore s' = semaphore s
    end.
Proof.
  unfold Pool.step. intros H.
  assert (Hm : main s <> Exited) by (intros Hm; rewrite Hm in H; discriminate).
  split; [exact Hm|].
  assert (H' :
    match nth_error (goroutines s) n with
    | Some (o :: rest) =>
        match sync o with
        | Receive =>
            if 0 <? semaphore s then
              Moves {| main := main s; wg := wg s;
                       semaphore := semaphore s - 1; closed := closed s;
                       goroutines := replace n rest (goroutines s);
                       log := log s ++ [o]; reported := reported s |}
            else if closed s then Moves (did n o rest s)
            else Waits
        | Done =>
            if 0 <? wg s then
              Moves {| main := main s; wg := wg s - 1;
                       semaphore := semaphore s; closed := closed s;
                       goroutines := replace n rest (goroutines s);
                       log := log s ++ [o]; reported := reported s |}
            else Panics
        | Local => Moves (did n o rest s)
        end
    | _ => Waits
    end = Moves s') by (destruct (main s); try exact H; contradiction).
  clear H.
  destruct (nth_error (goroutines s) n) as [[|o rest]|]; try discriminate.
  exists o, rest. split; [reflexivity|].
  destruct (sync o).
  - destruct (Z.ltb_spec 0 (semaphore s)).
    + injection H' as <-. cbn. repeat split. left. lia.
    + destruct (closed s) eqn:Hc; [|discriminate].
      injection H' as <-. cbn. repeat split; try assumption. right. lia.
  - destruct (Z.ltb_spec 0 (wg s)); [|discriminate].
    injection H' as <-. cbn. repeat split. exact H.
  - injection H' as <-. cbn. repeat split.
Qed.

Lemma replace_length {A : Type} (l : list A) :
  forall (n : nat) (x : A), List.length (replace n x l) = List.length l.
Proof.
  induction l as [|y l IH]; intros [|n] x; cbn; try reflexivity.
  rewrite IH. reflexivity.
Qed.

Lemma kept_by_goroutine (s s' : System) (n : nat) :
  invariant s -> step s (Of n) = Moves s' -> invariant s'.
Proof.
  intros (Hrem & Hsem & Hwg & Hcap & Hmain & Hlog) Hstep.
  destruct (step_of s s' n Hstep)
    as (Hne & o & rest & Hn & Em & Ec & Er & Eg & El & Hsync).
  destruct (nth_error_split_replace (goroutines s) n (o :: rest) rest Hn)
    as (before & after & Hg & Hg').
  rewrite Hg' in Eg.
  rewrite Hg in Hrem. apply Forall_app in Hrem. destruct Hrem as [Hb Ha].
  inversion Ha as [|? ? Ho Ha']; subst.
  destruct (remaining_head o rest Ho) as [Hrest Hhead].
  assert (Hlen : List.length (goroutines s') = List.length (goroutines s)).
  { rewrite Eg, Hg, !length_app. reflexivity. }
  unfold Pool.invariant. rewrite Em, Ec, Er, Hlen.
  split; [|split; [|split; [|split; [|split]]]].
  - rewrite Eg. apply Forall_app. split; [exact Hb|].
    constructor; assumption.
  - rewrite Eg. rewrite Hg, count_app, count_cons, holds_head in Hsem.
    rewrite count_app, count_cons.
    pose proof (count_nonneg holds before).
    pose proof (count_nonneg holds after).
    destruct (sync o); [destruct Hhead as [Hh Hu] | | destruct Hhead as [Hh Hu]].
    + rewrite Hh. destruct Hsync as [_ [[_ ->] | [Hle _]]]; [lia|].
      destruct (main s); lia.
    + subst rest. cbn. destruct Hsync as (_ & _ & ->). cbn in Hsem. lia.
    + rewrite Hh in *. destruct Hsync as [_ ->]. lia.
  - rewrite Eg. rewrite Hg, count_app, count_cons in Hwg.
    rewrite count_app, count_cons. cbn [unfinished] in Hwg.
    destruct (sync o); [destruct Hhead as [Hh Hu] | | destruct Hhead as [Hh Hu]].
    + rewrite Hu. destruct Hsync as [-> _]. lia.
    + subst rest. cbn. destruct Hsync as (_ & -> & _). lia.
    + rewrite Hu. destruct Hsync as [-> _]. lia.
  - destruct (sync o).
    + destruct Hsync as [_ [[_ ->] | (_ & _ & ->)]]; lia.
    + destruct Hsync as (_ & _ & ->). lia.
    + destruct Hsync as [_ ->]. lia.
  - assert (Hsome : ~ Forall (fun t : list Op => t = []) (goroutines s)).
    { intros Hall. rewrite Hg in Hall. apply Forall_app in Hall.
      destruct Hall as [_ Hall]. inversion Hall; discriminate. }
    destruct (main s); try tauto.
  - intros tr Htr. rewrite El, <- app_assoc. cbn. apply Hlog.
    rewrite Eg, <- app_assoc in Htr. cbn in Htr.
    remember (skipn (List.length (goroutines s)) threads) as later.
    rewrite Hg, <- app_assoc. cbn.
    apply Interleaving_step. exact Htr.
Qed.

Lemma kept_by_main (s s' : System) :
  invariant s -> step s OfMain = Moves s' -> invariant s'.
Proof.
  intros (Hrem & Hsem & Hwg & Hcap & Hmain & Hlog).
  unfold Pool.step, Pool.invariant.
  destruct (main s) as [i | i | i | | | |] eqn:Hm.
  - destruct Hmain as (Hlen & Hi & Hc & Hr).
    destruct (nth_error threads i) eqn:Hn; intros H; injection H as <-; cbn.
    + assert (i < List.length threads)%nat
        by (apply nth_error_Some; rewrite Hn; discriminate).
      repeat split; try assumption; lia.
    + apply nth_error_None in Hn.
      repeat split; try assumption; try rewrite Hm; try assumption; lia.
  - destruct Hmain as (Hlen & Hi & Hc & Hr). rewrite Hc.
    destruct (Z.ltb_spec (semaphore s) capacity); [|discriminate].
    intros H'; injection H' as <-; cbn.
    repeat split; try assumption; lia.
  - destruct Hmain as (Hlen & Hi & Hc & Hr).
    destruct (nth_error threads i) as [t|] eqn:Hn; [|discriminate].
    intros H; injection H as <-; cbn.
    assert (Ht : returns sync t).
    { eapply Forall_forall; [exact threads_return|].
      eapply nth_error_In. exact Hn. }
    rewrite !count_app, !count_cons, (returns_holds t Ht),
      (returns_unfinished t Ht), length_app.
    unfold count at 2 4. cbn [filter List.length].
    split; [|split; [|split; [|split; [|split]]]]; try lia.
    + apply Forall_app. split; [exact Hrem|].
      constructor; [|constructor]. right. right. exact Ht.
    + cbn. repeat split; try assumption; lia.
    + intros tr Htr. apply Hlog.
      rewrite Hlen, (skipn_nth_error threads i t Hn).
      rewrite <- app_assoc in Htr. cbn in Htr.
      rewrite Hlen in Htr.
      replace (i + 1)%nat with (S i) in Htr by lia. exact Htr.
  - destruct Hmain as (Hlen & Hc & Hr).
    destruct (Z.eqb_spec (wg s) 0) as [H0|]; [|discriminate].
    intros H; injection H as <-; cbn; rewrite ?Hm.
    rewrite Hwg in H0.
    repeat split; try assumption; try lia.
    assert (Hnone := count_none unfinished (goroutines s)).
    eapply Forall_impl; [|apply Hnone; lia].
    intros [|o t]; [reflexivity | discriminate].
  - destruct Hmain as (Hlen & Hall & Hc & Hr). rewrite Hc.
    intros H; injection H as <-; cbn.
    repeat split; try assumption; lia.
  - destruct Hmain as (Hlen & Hall & Hc & Hr).
    intros H; injection H as <-; cbn.
    repeat split; try assumption; lia.
  - discriminate.
Qed.

Lemma kept_by_step (s s' : System) (a : Step) :
  invariant s -> step s a = Moves s' -> invariant s'.
Proof.
  destruct a; [apply kept_by_main | apply kept_by_goroutine].
Qed.

Lemma kept_by_exec (schedule : list Step) :
  forall s s', invariant s -> exec s schedule = Some s' -> invariant s'.
Proof.
  induction schedule as [|a schedule IH]; intros s s' Hs; cbn.
  - intros H; injection H as <-. exact Hs.
  - destruct (step s a) as [s1| |] eqn:Ha; try discriminate.
    apply IH. exact (kept_by_step s s1 a Hs Ha).
Qed.

Lemma kept_when_reachable (s : System) :
  reachable sync capacity threads s -> invariant s.
Proof. intros [schedule H]. exact (kept_by_exec schedule _ _ holds_initially H). Qed.

Lemma never_panics (s : System) (a : Step) :
  invariant s -> step s a <> Panics.
Proof.
  intros (Hrem & Hsem & Hwg & Hcap & Hmain & Hlog).
  destruct a as [|n]; unfold Pool.step.
  - destruct (main s) as [i | i | i | | | |]; try discriminate.
    + destruct (nth_error threads i); discriminate.
    + destruct Hmain as (_ & _ & -> & _).
      destruct (semaphore s <? capacity); discriminate.
    + destruct (nth_error threads i); discriminate.
    + destruct (wg s =? 0); discriminate.
    + destruct Hmain as (_ & _ & -> & _). discriminate.
  - assert (Hn :
      match nth_error (goroutines s) n with
      | Some (o :: rest) =>
          match sync o with Done => 0 < wg s | _ => True end
      | _ => True
      end).
    { destruct (nth_error (goroutines s) n) as [[|o rest]|] eqn:Hn; try exact I.
      destruct (sync o); try exact I.
      destruct (nth_error_split_replace _ n _ rest Hn) as (before & after & Hg & _).
      rewrite Hg, count_app, count_cons in Hwg. cbn [unfinished] in Hwg.
      pose proof (count_nonneg unfinished before).
      pose proof (count_nonneg unfinished after).
      destruct (main s); lia. }
    destruct (main s); try discriminate;
      destruct (nth_error (goroutines s) n) as [[|o rest]|]; try discriminate;
      destruct (sync o); try discriminate;
      try (destruct (0 <? semaphore s); [discriminate|];
           destruct (closed s); discriminate);
      destruct (Z.ltb_spec 0 (wg s)); try discriminate; lia.
Qed.

(** A goroutine that has something left to do can do it, whenever it has
    its slot still or the wait group counts it. *)
Lemma goroutine_moves (s : System) (n : nat) (t : list Op) :
  invariant s -> main s <> Exited ->
  nth_error (goroutines s) n = Some t -> unfinished t = true ->
  exists s', step s (Of n) = Moves s'.
Proof.
  intros (Hrem & Hsem & Hwg & Hcap & Hmain & Hlog) Hne Hn Hu.
  destruct t as [|o rest]; [discriminate|].
  destruct (nth_error_split_replace _ n _ rest Hn) as (before & after & Hg & _).
  assert (Ho : remaining (o :: rest)).
  { rewrite Hg in Hrem. apply Forall_app in Hrem. destruct Hrem as [_ Hrem].
    inversion Hrem; assumption. }
  rewrite Hg, count_app, count_cons, holds_head in Hsem.
  rewrite Hg, count_app, count_cons in Hwg. cbn [unfinished] in Hwg.
  pose proof (count_nonneg unfinished before).
  pose proof (count_nonneg unfinished after).
  pose proof (count_nonneg holds before).
  pose proof (count_nonneg holds after).
  assert (H' : exists s',
    match sync o with
    | Receive =>
        if 0 <? semaphore s then
          Moves {| main := main s; wg := wg s;
                   semaphore := semaphore s - 1; closed := closed s;
                   goroutines := replace n rest (goroutines s);
                   log := log s ++ [o]; reported := reported s |}
        else if closed s then Moves (did n o rest s)
        else Waits
    | Done =>
        if 0 <? wg s then
          Moves {| main := main s; wg := wg s - 1;
                   semaphore := semaphore s; closed := closed s;
                   goroutines := replace n rest (goroutines s);
                   log := log s ++ [o]; reported := reported s |}
        else Panics
    | Local => Moves (did n o rest s)
    end = Moves s').
  { destruct (sync o).
    - destruct (Z.ltb_spec 0 (semaphore s)); [eexists; reflexivity|].
      destruct (main s); lia.
    - destruct (Z.ltb_spec 0 (wg s)); [eexists; reflexivity|].
      destruct (main s); lia.
    - eexists; reflexivity. }
  destruct H' as [s' H']. exists s'. unfold Pool.step. rewrite Hn.
  destruct (main s); try exact H'. contradiction.
Qed.

Lemma progress (s : System) :
  invariant s -> main s <> Exited -> exists a s', step s a = Moves s'.
Proof.
  intros Hinv Hne.
  pose proof Hinv as (Hrem & Hsem & Hwg & Hcap & Hmain & Hlog).
  destruct (main s) as [i | i | i | | | |] eqn:Hm; try contradiction.
  - exists OfMain. unfold Pool.step. rewrite Hm.
    destruct (nth_error threads i); eexists; reflexivity.
  - destruct (Z.ltb_spec (semaphore s) capacity) as [Hlt | Hge].
    + exists OfMain. unfold Pool.step. rewrite Hm.
      destruct Hmain as (_ & _ & -> & _).
      apply Z.ltb_lt in Hlt. rewrite Hlt. eexists; reflexivity.
    + destruct (count_exists holds (goroutines s)) as (n & t & Hn & Ht); [lia|].
      exists (Of n). apply (goroutine_moves s n t Hinv); try assumption.
      * rewrite Hm. discriminate.
      * destruct t; [discriminate | reflexivity].
  - exists OfMain. unfold Pool.step. rewrite Hm.
    destruct Hmain as (_ & Hi & _).
    apply nth_error_Some in Hi.
    destruct (nth_error threads i); [eexists; reflexivity | contradiction].
  - destruct (Z.eqb_spec (wg s) 0) as [H0 | Hpos].
    + exists OfMain. unfold Pool.step. rewrite Hm.
      apply Z.eqb_eq in H0. rewrite H0. eexists; reflexivity.
    + pose proof (count_nonneg unfinished (goroutines s)).
      destruct (count_exists unfinished (goroutines s)) as (n & t & Hn & Ht);
        [lia|].
      exists (Of n). apply (goroutine_moves s n t Hinv); try assumption.
      rewrite Hm. discriminate.
  - exists OfMain. unfold Pool.step. rewrite Hm.
    destruct Hmain as (_ & _ & -> & _). eexists; reflexivity.
  - exists OfMain. unfold Pool.step. rewrite Hm. eexists; reflexivity.
Qed.

Lemma in_flight_bound (s : System) :
  invariant s -> count holds (goroutines s) <= capacity.
Proof.
  intros (_ & Hsem & _ & Hcap & _). destruct (main s); lia.
Qed.

Lemma reported_interleaving (s : System) (tr : list Op) :
  invariant s -> reported s = Some tr ->
  main s = Exited /\ tr = log s /\ Interleaving threads tr /\
  List.length (goroutines s) = List.length threads /\
  Forall (fun t => t = []) (goroutines s).
Proof.
  intros (_ & _ & _ & _ & Hmain & Hlog) Hr.
  destruct (main s);
    try (rewrite (proj2 (proj2 (proj2 Hmain))) in Hr; discriminate);
    try (rewrite (proj2 (proj2 Hmain)) in Hr; discriminate).
  destruct Hmain as (Hlen & Hall & _ & Hr'). rewrite Hr' in Hr.
  injection Hr as <-. repeat split; try assumption.
  rewrite <- (app_nil_r (log s)). apply Hlog.
  rewrite Hlen, skipn_all, app_nil_r. apply Interleaving_done. exact Hall.
Qed.

#[local] Abbreviation work := (work threads).

Lemma sum_app (l r : list nat) : sum (l ++ r) = (sum l + sum r)%nat.
Proof. unfold sum. induction l as [|x l IH]; cbn; [reflexivity | rewrite IH; lia]. Qed.

Lemma step_work (s s' : System) (a : Step) :
  invariant s -> step s a = Moves s' -> work s = S (work s').
Proof.
  intros Hinv Hstep. destruct a as [|n].
  - destruct Hinv as (_ & _ & _ & _ & Hmain & _).
    revert Hstep. unfold Pool.step, Pool.work.
    destruct (main s) as [i | i | i | | | |] eqn:Hm.
    + destruct Hmain as (Hlen & Hi & _).
      destruct (nth_error threads i) eqn:Hn; intros H; injection H as <-; cbn [main goroutines main_left main_at].
      * lia.
      * apply nth_error_None in Hn. lia.
    + destruct (closed s); [discriminate|].
      destruct (semaphore s <? capacity); [|discriminate].
      intros H; injection H as <-; cbn [main goroutines main_left main_at]. lia.
    + destruct Hmain as (Hlen & Hi & _).
      destruct (nth_error threads i) as [t|] eqn:Hn; [|discriminate].
      intros H; injection H as <-; cbn [main goroutines main_left].
      rewrite length_app, map_app, sum_app, Hlen. cbn [List.length map].
      rewrite (skipn_nth_error threads i t Hn). cbn [map].
      replace (i + 1)%nat with (S i) by lia.
      unfold sum. cbn [fold_right]. lia.
    + destruct (wg s =? 0); [|discriminate].
      intros H; injection H as <-; cbn [main goroutines main_left main_at]. lia.
    + destruct (closed s); [discriminate|].
      intros H; injection H as <-; cbn [main goroutines main_left main_at]. lia.
    + intros H; injection H as <-; cbn [main goroutines main_left main_at]. lia.
    + discriminate.
  - destruct (step_of s s' n Hstep)
      as (Hne & o & rest & Hn & Em & _ & _ & Eg & _).
    destruct (nth_error_split_replace (goroutines s) n (o :: rest) rest Hn)
      as (before & after & Hg & Hg').
    assert (Hlen : List.length (goroutines s') = List.length (goroutines s)).
    { rewrite Eg. apply replace_length. }
    unfold Pool.work. rewrite Em, Hlen, Eg, Hg'.
    remember (skipn (List.length (goroutines s)) threads) as later.
    rewrite Hg, !map_app, !sum_app. cbn [map List.length].
    unfold sum. cbn [fold_right]. lia.
Qed.

Lemma exec_work (schedule : list Step) :
  forall s s',
    invariant s -> exec s schedule = Some s' ->
    work s = (List.length schedule + work s')%nat.
Proof.
  induction schedule as [|a schedule IH]; intros s s' Hs; cbn.
  - intros H; injection H as <-. reflexivity.
  - destruct (step s a) as [s1| |] eqn:Ha; try discriminate.
    intros H. rewrite (step_work s s1 a Hs Ha).
    rewrite (IH s1 s' (kept_by_step s s1 a Hs Ha) H). reflexivity.
Qed.

Lemma exited_work (s : System) :
  invariant s -> (main s = Exited <-> work s = O).
Proof.
  intros (_ & _ & _ & _ & Hmain & _). unfold Pool.work. split.
  - intros Hm. rewrite Hm in *. destruct Hmain as (Hlen & Hall & _).
    rewrite Hlen, skipn_all. cbn. clear Hlen.
    induction Hall as [|t ts Ht _ IH]; [reflexivity|].
    subst t. exact IH.
  - destruct (main s); cbn; try lia. reflexivity.
Qed.

Lemma finishes (k : nat) :
  forall s,
    invariant s -> work s = k ->
    exists schedule s',
      exec s schedule = Some s' /\ main s' = Exited /\ List.length schedule = k.
Proof.
  induction k as [|k IH]; intros s Hs Hk.
  - exists [], s. repeat split. apply exited_work; assumption.
  - assert (Hne : main s <> Exited).
    { intros Hm. apply (exited_work s Hs) in Hm. lia. }
    destruct (progress s Hs Hne) as (a & s1 & Ha).
    pose proof (step_work s s1 a Hs Ha) as Hw.
    destruct (IH s1 (kept_by_step s s1 a Hs Ha)) as (schedule & s' & He & Hm & Hl);
      [lia|].
    exists (a :: schedule), s'. cbn. rewrite Ha.
    repeat split; try assumption. lia.
Qed.

Lemma exec_then (first rest : list Step) :
  forall s,
    exec s (first ++ rest) =
    match exec s first with
    | Some s1 => exec s1 rest
    | None => None
    end.
Proof.
  induction first as [|a first IH]; intros s; cbn; [reflexivity|].
  destruct (step s a); try reflexivity. apply IH.
Qed.

(** From any state main and the goroutines reach, they can go on until
    main has exited, and however they go on, main has exited when they
    can go no further: the number of steps is fixed from the start. *)
Lemma runs_to_the_end (schedule : list Step) (s : System) :
  exec init schedule = Some s ->
  (List.length schedule + work s =
   3 * List.length threads + 4 + sum (map (@List.length Op) threads))%nat /\
  (main s = Exited <-> work s = O) /\
  exists rest s',
    exec init (schedule ++ rest) = Some s' /\ main s' = Exited /\
    List.length rest = work s.
Proof.
  intros He.
  pose proof (kept_by_exec schedule _ _ holds_initially He) as Hs.
  split; [|split].
  - rewrite <- (exec_work schedule _ _ holds_initially He).
    unfold Pool.work, Pool.init.
    cbn [main goroutines main_left List.length skipn].
    change (sum (map (@List.length Op) [])) with O. lia.
  - apply exited_work. exact Hs.
  - destruct (finishes (work s) s Hs eq_refl) as (rest & s' & Hr & Hm & Hl).
    exists rest, s'. rewrite exec_then, He. repeat split; assumption.
Qed.

End Launch.

(** * Properties of the session (cmd/create-and-play) *)

Section Session.
Import Json CreateAndPlay.

(** *** The model on concrete inputs *)

Example Itoa_7 : Int.Itoa 7 = "7".
Proof. reflexivity. Qed.

Example decode_betting_turn :
  Unmarshal (Scenario.betting_turn "p7" 500) = Some (Scenario.decoded_turn "p7" 500).
Proof. reflexivity. Qed.

Example decode_null : Unmarshal Null = Some zero_ServerResponse.
Proof. reflexivity. Qed.

Example decode_upper_case_key :
  option_map Type_ (Unmarshal (Obj [("TYPE", Str "event_pot_won")])) =
  Some "event_pot_won".
Proof. reflexivity. Qed.

(** The key is U+017F followed by "tage". *)
Example decode_long_s_key :
  option_map Stage
    (Unmarshal (Obj [(String "197" (String "191" "tage"), Str "flop")])) =
  Some "flop".
Proof. reflexivity. Qed.

Example decode_repeated_key :
  option_map Code
    (Unmarshal (Obj [("code", Num (Int 1)); ("code", Num (Int 2))])) = Some 2.
Proof. reflexivity. Qed.

Example decode_string_for_int : Unmarshal (Obj [("code", Str "400")]) = None.
Proof. reflexivity. Qed.

Example decode_fraction_for_int :
  Unmarshal (Obj [("code", Num (Real true))]) = None.
Proof. reflexivity. Qed.

Example decode_int_out_of_range :
  Unmarshal (Obj [("code", Num (Int (2 ^ 63)))]) = None.
Proof. reflexivity. Qed.

Example decode_array : Unmarshal (Arr []) = None.
Proof. reflexivity. Qed.

Example session_refused_with_409 :
  writes (ops (managePlayerSession 7 (Scenario.answered Scenario.exists_409))) =
    [Obj [("username", Str "over-7"); ("password", Str "password7")]] /\
  result (managePlayerSession 7 (Scenario.answered Scenario.exists_409)) = Returned.
Proof. split; reflexivity. Qed.

Example session_all_in_then_fold :
  writes (ops (gameLoop Scenario.p7
                 [Scenario.receive (Scenario.betting_turn "p8" 40);
                  Scenario.receive (Scenario.betting_turn "p7" 500);
                  Scenario.receive (Scenario.betting_turn "p7" 1000);
                  Scenario.receive (Obj [("type", Str "event_game_over")])])) =
    [bet 500; bet (-1)] /\
  result (gameLoop Scenario.p7
            [Scenario.receive (Scenario.betting_turn "p8" 40);
             Scenario.receive (Scenario.betting_turn "p7" 500);
             Scenario.receive (Scenario.betting_turn "p7" 1000);
             Scenario.receive (Obj [("type", Str "event_game_over")])]) =
    (Scenario.p7_all_in, Returned).
Proof. split; reflexivity. Qed.

(** *** Traces and counters *)

Lemma Counter_eqb_eq (a b : Counter) : Counter_eqb a b = true <-> a = b.
Proof. destruct a, b; simpl; split; intro H; try reflexivity; discriminate. Qed.

Lemma Counter_eqb_refl (a : Counter) : Counter_eqb a a = true.
Proof. destruct a; reflexivity. Qed.

Lemma run_app (g : Globals) (t1 t2 : list Op) :
  run g (t1 ++ t2) = run (run g t1) t2.
Proof. apply fold_left_app. Qed.

Lemma writes_app (t1 t2 : list Op) : writes (t1 ++ t2) = (writes t1 ++ writes t2)%list.
Proof.
  induction t1 as [|o t1 IH]; simpl; [reflexivity|].
  destruct o; simpl; rewrite IH; reflexivity.
Qed.

Lemma total_app (c : Counter) (t1 t2 : list Op) :
  total c (t1 ++ t2) = total c t1 + total c t2.
Proof.
  induction t1 as [|o t1 IH]; simpl; [reflexivity|].
  destruct o; simpl; rewrite IH; lia.
Qed.

(** Reading one decodable line. *)
Lemma readServerMessage_line ps doc resp :
  Unmarshal doc = Some resp ->
  readServerMessage ps (Line (Some doc)) =
  ([Printf (logPrefix ps ++ "Received: %s" ++ newline) [ATrimSpace (Some doc)]],
   inl resp).
Proof. intros H. unfold readServerMessage. rewrite H. reflexivity. Qed.

Lemma ops_bind {A B : Type} (m : M A) (k : A -> M B) :
  ops (bind m k) = (ops m ++ ops (k (result m)))%list.
Proof. destruct m as [t a]. unfold bind, ops, result; simpl. destruct (k a); reflexivity. Qed.

Lemma result_bind {A B : Type} (m : M A) (k : A -> M B) :
  result (bind m k) = result (k (result m)).
Proof. destruct m as [t a]. unfold bind, ops, result; simpl. destruct (k a); reflexivity. Qed.

Lemma wrap32_small (x : Z) : - 2 ^ 31 <= x < 2 ^ 31 -> Int.wrap 32 x = x.
Proof.
  intros H. unfold Int.wrap. change (32 - 1) with 31.
  rewrite Z.mod_small; lia.
Qed.

(** Enter the branch of the loop body that handles the session's own
    betting turn. *)
Ltac enter_turn H :=
  let Hel := fresh "Hel" in
  let doc := fresh "doc" in
  let Hin := fresh "Hin" in
  let Hdec := fresh "Hdec" in
  let Hty := fresh "Hty" in
  let Hid := fresh "Hid" in
  destruct H as (Hel & (doc & Hin & Hdec) & Hty & Hid);
  unfold gameLoop_body;
  match goal with
  | |- context [?a >? ?b] => destruct (Z.gtb_spec a b)
  end; [lia|];
  rewrite Hin, (readServerMessage_line _ doc _ Hdec);
  cbn [bind];
  rewrite Hty, Hid, !String.eqb_refl;
  cbn [String.eqb Ascii.eqb Bool.eqb].

Ltac other_counters :=
  let c := fresh "c" in
  let Hc := fresh "Hc" in
  intros c Hc; destruct c; try reflexivity; congruence.

(** C1.  A session that has not yet gone all-in and receives its own
    betting turn with a strictly positive chip count calls sendJSON once,
    with a bet of exactly that many chips.  When the send succeeds this
    is the one line written, the all-in counter is incremented by one
    (atomic.AddInt32, so modulo 2^32; no other counter moves), the
    all-in flag becomes set and the loop goes on.  When the send fails
    the session ends with the flag and every counter untouched. *)
Theorem all_in_on_own_turn (ps : PlayerSessionState) (t : Tick)
    (resp : ServerResponse) (g : Globals) :
  hasPerformedAllIn ps = false ->
  my_turn ps t resp ->
  0 < Chips (Player (State resp)) ->
  (outgoing t = WriteOk ->
   writes (ops (gameLoop_body ps t)) = [bet (Chips (Player (State resp)))] /\
   bet (Chips (Player (State resp))) =
     Obj [("action", Str "bet"); ("amount", Num (Int (Chips (Player (State resp)))))] /\
   run g (ops (gameLoop_body ps t)) allInsMade = Int.wrap 32 (g allInsMade + 1) /\
   (- 2 ^ 31 <= g allInsMade < Int.max_int32 ->
    run g (ops (gameLoop_body ps t)) allInsMade = g allInsMade + 1) /\
   (forall c, c <> allInsMade -> run g (ops (gameLoop_body ps t)) c = g c) /\
   hasPerformedAllIn (fst (result (gameLoop_body ps t))) = true /\
   snd (result (gameLoop_body ps t)) = Continue) /\
  (outgoing t <> WriteOk ->
   result (gameLoop_body ps t) = (ps, Return) /\
   (forall c, run g (ops (gameLoop_body ps t)) c = g c)).
Proof.
  intros Hflag Hturn Hchips.
  enter_turn Hturn.
  rewrite Hflag. cbn [negb].
  destruct (Z.leb_spec (Chips (Player (State resp))) 0); [lia|].
  split; intros Hw.
  - rewrite Hw. cbn. repeat split.
    + intros Hg. apply wrap32_small. unfold Int.max_int32 in Hg. lia.
    + other_counters.
  - destruct (outgoing t); [congruence| |]; cbn; split; reflexivity.
Qed.

Lemma all_in_on_own_turn_witness :
  my_turn Scenario.p7 (Scenario.receive (Scenario.betting_turn "p7" 500))
          (Scenario.decoded_turn "p7" 500) /\
  writes (ops (gameLoop_body Scenario.p7
                 (Scenario.receive (Scenario.betting_turn "p7" 500)))) =
    [Obj [("action", Str "bet"); ("amount", Num (Int 500))]] /\
  run zero (ops (gameLoop_body Scenario.p7
                   (Scenario.receive (Scenario.betting_turn "p7" 500)))) allInsMade = 1 /\
  hasPerformedAllIn
    (fst (result (gameLoop_body Scenario.p7
                    (Scenario.receive (Scenario.betting_turn "p7" 500))))) = true.
Proof.
  assert (Hturn : my_turn Scenario.p7
                    (Scenario.receive (Scenario.betting_turn "p7" 500))
                    (Scenario.decoded_turn "p7" 500)).
  { split; [vm_compute; discriminate|].
    split; [exists (Scenario.betting_turn "p7" 500); split; reflexivity|].
    split; reflexivity. }
  split; [exact Hturn|].
  destruct (all_in_on_own_turn Scenario.p7
              (Scenario.receive (Scenario.betting_turn "p7" 500))
              (Scenario.decoded_turn "p7" 500) zero eq_refl Hturn eq_refl)
    as [Hok _].
  destruct (Hok eq_refl) as (Hw & _ & Hc & _ & _ & Hf & _).
  split; [exact Hw|]. split; [exact Hc|]. exact Hf.
Defined.

(** C3.  A session that has not gone all-in and receives its own betting
    turn with zero or negative chips sends a fold (a bet of -1), not an
    all-in; when the send succeeds the fold counter is incremented by one
    and the all-in flag stays unset. *)
Theorem forced_fold_leaves_flag_unset (ps : PlayerSessionState) (t : Tick)
    (resp : ServerResponse) (g : Globals) :
  hasPerformedAllIn ps = false ->
  my_turn ps t resp ->
  Chips (Player (State resp)) <= 0 ->
  (outgoing t = WriteOk ->
   writes (ops (gameLoop_body ps t)) = [bet (-1)] /\
   run g (ops (gameLoop_body ps t)) foldsMade = Int.wrap 32 (g foldsMade + 1) /\
   (- 2 ^ 31 <= g foldsMade < Int.max_int32 ->
    run g (ops (gameLoop_body ps t)) foldsMade = g foldsMade + 1) /\
   (forall c, c <> foldsMade -> run g (ops (gameLoop_body ps t)) c = g c) /\
   result (gameLoop_body ps t) = (ps, Continue) /\
   hasPerformedAllIn (fst (result (gameLoop_body ps t))) = false) /\
  (outgoing t <> WriteOk ->
   result (gameLoop_body ps t) = (ps, Return) /\
   (forall c, run g (ops (gameLoop_body ps t)) c = g c)).
Proof.
  intros Hflag Hturn Hchips.
  enter_turn Hturn.
  rewrite Hflag. cbn [negb].
  destruct (Z.leb_spec (Chips (Player (State resp))) 0); [|lia].
  split; intros Hw.
  - rewrite Hw. cbn. repeat split.
    + intros Hg. apply wrap32_small. unfold Int.max_int32 in Hg. lia.
    + other_counters.
    + exact Hflag.
  - destruct (outgoing t); [congruence| |]; cbn; split; reflexivity.
Qed.

Lemma forced_fold_leaves_flag_unset_witness :
  my_turn Scenario.p7 (Scenario.receive (Scenario.betting_turn "p7" 0))
          (Scenario.decoded_turn "p7" 0) /\
  writes (ops (gameLoop_body Scenario.p7
                 (Scenario.receive (Scenario.betting_turn "p7" 0)))) =
    [Obj [("action", Str "bet"); ("amount", Num (Int (-1)))]] /\
  run zero (ops (gameLoop_body Scenario.p7
                   (Scenario.receive (Scenario.betting_turn "p7" 0)))) foldsMade = 1 /\
  hasPerformedAllIn
    (fst (result (gameLoop_body Scenario.p7
                    (Scenario.receive (Scenario.betting_turn "p7" 0))))) = false.
Proof.
  assert (Hturn : my_turn Scenario.p7
                    (Scenario.receive (Scenario.betting_turn "p7" 0))
                    (Scenario.decoded_turn "p7" 0)).
  { split; [vm_compute; discriminate|].
    split; [exists (Scenario.betting_turn "p7" 0); split; reflexivity|].
    split; reflexivity. }
  split; [exact Hturn|].
  destruct (forced_fold_leaves_flag_unset Scenario.p7
              (Scenario.receive (Scenario.betting_turn "p7" 0))
              (Scenario.decoded_turn "p7" 0) zero eq_refl Hturn
              ltac:(vm_compute; discriminate))
    as [Hok _].
  destruct (Hok eq_refl) as (Hw & Hc & _ & _ & _ & Hf).
  split; [exact Hw|]. split; [exact Hc|]. exact Hf.
Defined.

(** Case analysis on every test of a function body, innermost first. *)
Ltac break_step :=
  match goal with
  | |- context [match ?x with _ => _ end] =>
      lazymatch x with
      | context [match _ with _ => _ end] => fail
      | _ => destruct x eqn:?
      end
  end.
Ltac break_body := repeat (cbn; break_step); cbn.

Lemma body_after_all_in (ps : PlayerSessionState) (t : Tick) :
  hasPerformedAllIn ps = true ->
  fst (result (gameLoop_body ps t)) = ps /\
  Forall (fun v => v = bet (-1)) (writes (ops (gameLoop_body ps t))).
Proof.
  intros Hflag. unfold gameLoop_body, readServerMessage. rewrite Hflag.
  break_body; (split; [reflexivity | repeat constructor]).
Qed.

Lemma gameLoop_cons (ps : PlayerSessionState) (t : Tick) (env : list Tick) :
  gameLoop ps (t :: env) =
  match gameLoop_body ps t with
  | (tr, (ps', Return)) => (tr, (ps', Returned))
  | (tr, (ps', Continue)) =>
      ((tr ++ ops (gameLoop ps' env))%list, result (gameLoop ps' env))
  end.
Proof.
  cbn [gameLoop]. destruct (gameLoop_body ps t) as [tr [ps' []]]; cbn.
  - destruct (gameLoop ps' env); reflexivity.
  - rewrite app_nil_r. reflexivity.
Qed.

Lemma gameLoop_after_all_in (env : list Tick) (ps : PlayerSessionState) :
  hasPerformedAllIn ps = true ->
  state_after ps env = ps /\
  Forall (fun v => v = bet (-1)) (writes (ops (gameLoop ps env))).
Proof.
  unfold state_after.
  induction env as [|t env IH]; intros Hflag.
  - split; [reflexivity | constructor].
  - rewrite gameLoop_cons.
    destruct (body_after_all_in ps t Hflag) as [Hps Hw].
    destruct (gameLoop_body ps t) as [tr [ps' f]].
    cbn in Hps, Hw. subst ps'.
    destruct f; cbn.
    + destruct (IH Hflag) as [Hps' Hw'].
      split; [exact Hps'|].
      rewrite writes_app. apply Forall_app. split; assumption.
    + split; [reflexivity | exact Hw].
Qed.

(** The loop over [pre ++ post] is the loop over [pre], resumed over
    [post] from the state it reached unless it has returned. *)
Lemma gameLoop_app (pre post : list Tick) (ps : PlayerSessionState) :
  gameLoop ps (pre ++ post) =
  match snd (result (gameLoop ps pre)) with
  | Returned => gameLoop ps pre
  | Pending =>
      ((ops (gameLoop ps pre) ++ ops (gameLoop (state_after ps pre) post))%list,
       result (gameLoop (state_after ps pre) post))
  end.
Proof.
  unfold state_after.
  revert ps. induction pre as [|t pre IH]; intros ps.
  - cbn. destruct (gameLoop ps post); reflexivity.
  - rewrite <- app_comm_cons, !gameLoop_cons.
    destruct (gameLoop_body ps t) as [tr [ps' []]]; cbn; [|reflexivity].
    rewrite IH.
    destruct (gameLoop ps' pre) as [tr' [ps'' []]]; cbn; [reflexivity|].
    rewrite app_assoc. reflexivity.
Qed.

(** C2.  Once the all-in flag is set (after the iterations [pre], from any
    session state), it is still set after any further iterations
    [post]; every line the loop writes from then on is a fold (a bet of
    -1), never another bet; and on each later betting turn of its own the
    session calls sendJSON with a fold and, when the send succeeds,
    increments the fold counter by one and goes on (when it fails, the
    session ends with the counters untouched). *)
Theorem folds_after_all_in (ps0 : PlayerSessionState) (pre post : list Tick) :
  hasPerformedAllIn (state_after ps0 pre) = true ->
  hasPerformedAllIn (state_after ps0 (pre ++ post)) = true /\
  (exists later,
      ops (gameLoop ps0 (pre ++ post)) = (ops (gameLoop ps0 pre) ++ later)%list /\
      Forall (fun v => v = Obj [("action", Str "bet"); ("amount", Num (Int (-1)))])
             (writes later)) /\
  (forall (t : Tick) (resp : ServerResponse) (g : Globals),
      my_turn (state_after ps0 (pre ++ post)) t resp ->
      hasPerformedAllIn
        (fst (result (gameLoop_body (state_after ps0 (pre ++ post)) t))) = true /\
      (outgoing t = WriteOk ->
       writes (ops (gameLoop_body (state_after ps0 (pre ++ post)) t)) = [bet (-1)] /\
       run g (ops (gameLoop_body (state_after ps0 (pre ++ post)) t)) foldsMade =
         Int.wrap 32 (g foldsMade + 1) /\
       (- 2 ^ 31 <= g foldsMade < Int.max_int32 ->
        run g (ops (gameLoop_body (state_after ps0 (pre ++ post)) t)) foldsMade =
          g foldsMade + 1) /\
       (forall c, c <> foldsMade ->
                  run g (ops (gameLoop_body (state_after ps0 (pre ++ post)) t)) c = g c) /\
       snd (result (gameLoop_body (state_after ps0 (pre ++ post)) t)) = Continue) /\
      (outgoing t <> WriteOk ->
       snd (result (gameLoop_body (state_after ps0 (pre ++ post)) t)) = Return /\
       (forall c, run g (ops (gameLoop_body (state_after ps0 (pre ++ post)) t)) c = g c))).
Proof.
  intros Hset.
  assert (Hstate : state_after ps0 (pre ++ post) = state_after ps0 pre).
  { unfold state_after. rewrite gameLoop_app.
    destruct (snd (result (gameLoop ps0 pre))); [reflexivity|].
    cbn. apply (gameLoop_after_all_in post _ Hset). }
  rewrite Hstate. split; [exact Hset|]. split.
  - rewrite gameLoop_app.
    destruct (snd (result (gameLoop ps0 pre))).
    + exists []. rewrite app_nil_r. split; [reflexivity | constructor].
    + exists (ops (gameLoop (state_after ps0 pre) post)).
      split; [reflexivity|].
      apply (gameLoop_after_all_in post _ Hset).
  - intros t resp g Hturn.
    split; [rewrite (proj1 (body_after_all_in _ t Hset)); exact Hset|].
    enter_turn Hturn.
    rewrite Hset. cbn [negb].
    split; intros Hw.
    + rewrite Hw. cbn. repeat split.
      * intros Hg. apply wrap32_small. unfold Int.max_int32 in Hg. lia.
      * other_counters.
    + destruct (outgoing t); [congruence| |]; cbn; split; reflexivity.
Qed.

Lemma folds_after_all_in_witness :
  hasPerformedAllIn
    (state_after Scenario.p7 [Scenario.receive (Scenario.betting_turn "p7" 500)]) = true /\
  writes (ops (gameLoop Scenario.p7
                 ([Scenario.receive (Scenario.betting_turn "p7" 500)] ++
                  [Scenario.receive (Scenario.betting_turn "p7" 300)]))) =
    [bet 500; bet (-1)] /\
  hasPerformedAllIn
    (state_after Scenario.p7
       ([Scenario.receive (Scenario.betting_turn "p7" 500)] ++
        [Scenario.receive (Scenario.betting_turn "p7" 300)])) = true.
Proof.
  split; [reflexivity|]. split; [reflexivity|].
  exact (proj1 (folds_after_all_in Scenario.p7
                  [Scenario.receive (Scenario.betting_turn "p7" 500)]
                  [Scenario.receive (Scenario.betting_turn "p7" 300)] eq_refl)).
Defined.

(** *** What a session writes *)

Lemma body_writes (ps : PlayerSessionState) (t : Tick) :
  Forall fold_or_stake (writes (ops (gameLoop_body ps t))).
Proof.
  unfold gameLoop_body, readServerMessage.
  break_body; repeat first [apply Forall_nil | apply Forall_cons];
    (eexists; split; [reflexivity|]); try (left; reflexivity).
  all: right; lia.
Qed.

Lemma gameLoop_writes (env : list Tick) :
  forall ps, Forall fold_or_stake (writes (ops (gameLoop ps env))).
Proof.
  induction env as [|t env IH]; intros ps; [constructor|].
  rewrite gameLoop_cons.
  pose proof (body_writes ps t) as Hb.
  destruct (gameLoop_body ps t) as [tr [ps' []]]; cbn in *; [|exact Hb].
  rewrite writes_app. apply Forall_app. split; [exact Hb | apply IH].
Qed.

Lemma session_writes (id : Z) (net : Network) :
  Forall (request id) (writes (ops (managePlayerSession id net))).
Proof.
  unfold managePlayerSession, defer, register, joinGame, readServerMessage.
  pose proof (gameLoop_writes (game net)
     {| username := baseUsername ++ Int.Itoa id; hasPerformedAllIn := false;
        logPrefix := "[" ++ (baseUsername ++ Int.Itoa id) ++ "] " |}) as Hg.
  destruct (gameLoop _ (game net)) as [tr [ps' st]].
  cbn in Hg.
  break_body.
  all: repeat first
         [ apply Forall_nil
         | apply Forall_cons; [first [left; reflexivity | right; left; reflexivity]|]
         | rewrite writes_app; apply Forall_app; split ].
  all: try (eapply Forall_impl; [|exact Hg]; intros x Hx; right; right; exact Hx).
Qed.

(** C10.  Both fold branches of the loop (the forced fold on non-positive
    chips and the fold after the all-in) call sendJSON with amount
    exactly -1, and over a whole session every document written is the
    registration, the join, or a bet whose amount is -1 or strictly
    positive: no other negative amount is ever emitted. *)
Theorem every_fold_is_minus_one (id : Z) (net : Network) :
  (forall (ps : PlayerSessionState) (t : Tick) (resp : ServerResponse),
      my_turn ps t resp ->
      hasPerformedAllIn ps = true \/ Chips (Player (State resp)) <= 0 ->
      outgoing t <> SetWriteDeadlineFails ->
      writes (ops (gameLoop_body ps t)) =
        [Obj [("action", Str "bet"); ("amount", Num (Int (-1)))]]) /\
  Forall (fun v =>
            v = registration (baseUsername ++ Int.Itoa id) (basePassword ++ Int.Itoa id) \/
            v = Obj [("action", Str "join")] \/
            exists n, v = Obj [("action", Str "bet"); ("amount", Num (Int n))] /\
                      (n = -1 \/ 0 < n))
         (writes (ops (managePlayerSession id net))).
Proof.
  split.
  - intros ps t resp Hturn Hcase Hw.
    enter_turn Hturn.
    destruct (hasPerformedAllIn ps) eqn:Hflag; cbn [negb].
    + destruct (outgoing t); [| congruence |]; reflexivity.
    + destruct Hcase as [Hcase | Hcase]; [discriminate|].
      destruct (Z.leb_spec (Chips (Player (State resp))) 0); [|lia].
      destruct (outgoing t); [| congruence |]; reflexivity.
  - exact (session_writes id net).
Qed.

(** C7.  The join action is encoded without an amount member; a bet is
    encoded with an integer amount member; in general the member is
    present exactly when the pointer is not nil; and every action a
    session writes lacks the amount exactly when its action is join. *)
Theorem amount_omitted_exactly_for_join :
  Marshal (OfActionMsg {| Action := "join"; Amount := None |}) =
    Obj [("action", Str "join")] /\
  (forall n : Z,
      Marshal (OfActionMsg {| Action := "bet"; Amount := pint n |}) =
        Obj [("action", Str "bet"); ("amount", Num (Int n))]) /\
  (forall m : ActionMsg,
      (exists v, Marshal (OfActionMsg m) =
                 Obj [("action", Str (Action m)); ("amount", v)]) <->
      Amount m <> None) /\
  (forall (id : Z) (net : Network),
      Forall (fun v =>
                v = registration (baseUsername ++ Int.Itoa id)
                                 (basePassword ++ Int.Itoa id) \/
                exists m : ActionMsg,
                  v = Marshal (OfActionMsg m) /\
                  (Action m = "join" \/ Action m = "bet") /\
                  (Amount m = None <-> Action m = "join"))
             (writes (ops (managePlayerSession id net)))).
Proof.
  split; [reflexivity|]. split; [reflexivity|]. split.
  - intros [a [n|]]; cbn; split.
    + intros _. discriminate.
    + intros _. eexists. reflexivity.
    + intros [v Hv]. discriminate.
    + intros H. congruence.
  - intros id net.
    eapply Forall_impl; [|exact (session_writes id net)].
    intros v [Hv | [Hv | (n & Hv & _)]].
    + left. exact Hv.
    + right. exists {| Action := "join"; Amount := None |}.
      split; [exact Hv|]. split; [left; reflexivity|]. split; reflexivity.
    + right. exists {| Action := "bet"; Amount := pint n |}.
      split; [exact Hv|]. split; [right; reflexivity|].
      cbn. split; intros H; discriminate.
Qed.

(** *** Leaving the loop without an action *)

Lemma body_timeout (ps : PlayerSessionState) (t : Tick) :
  gameActivityTimeout < elapsed t ->
  gameLoop_body ps t =
    ([Printf (logPrefix ps ++ "Game activity timeout. Ending session." ++ newline) []],
     (ps, Return)).
Proof.
  intros Hlate. unfold gameLoop_body.
  destruct (Z.gtb_spec (elapsed t) gameActivityTimeout); [reflexivity | lia].
Qed.

(** The loop has returned by the first iteration that finds the activity
    timeout exceeded. *)
Lemma gameLoop_returns_by_timeout (env : list Tick) :
  Exists (fun t => gameActivityTimeout < elapsed t) env ->
  forall ps, snd (result (gameLoop ps env)) = Returned.
Proof.
  induction 1 as [t env Hlate | t env _ IH]; intros ps; rewrite gameLoop_cons.
  - rewrite (body_timeout ps t Hlate). reflexivity.
  - destruct (gameLoop_body ps t) as [tr [ps' []]]; [apply IH | reflexivity].
Qed.

(** A session returns if its registration fails, and otherwise by the
    activity timeout at the latest. *)
Lemma session_returns (id : Z) (net : Network) :
  registers net = false \/
  Exists (fun t => gameActivityTimeout < elapsed t) (game net) ->
  result (managePlayerSession id net) = Returned.
Proof.
  intros [Hreg | Hlate].
  - revert Hreg.
    unfold managePlayerSession, defer, register, joinGame, readServerMessage,
      registers.
    destruct (gameLoop _ (game net)) as [tr [ps' st]].
    destruct (dial net) eqn:Hdial.
    all: break_body; try reflexivity; discriminate.
  - pose proof (gameLoop_returns_by_timeout (game net) Hlate (playerState id)) as Hg.
    unfold managePlayerSession, defer, register, joinGame, readServerMessage.
    unfold playerState in Hg.
    destruct (gameLoop _ (game net)) as [tr [ps' st]].
    cbn in Hg. subst st.
    break_body; reflexivity.
Qed.

(** C8.  An iteration that finds the activity timeout exceeded only logs
    and returns: the session ends with nothing written and no counter
    changed.  The same holds on the read-error exit: a failed
    SetReadDeadline, a failed read, or a line that does not decode ends
    the session with every counter as it was. *)
Theorem timeout_and_read_error_are_not_counted (ps : PlayerSessionState)
    (t : Tick) (rest : list Tick) (g : Globals) :
  (gameActivityTimeout < elapsed t ->
   gameLoop_body ps t =
     ([Printf (logPrefix ps ++ "Game activity timeout. Ending session." ++ newline) []],
      (ps, Return)) /\
   result (gameLoop ps (t :: rest)) = (ps, Returned) /\
   writes (ops (gameLoop ps (t :: rest))) = [] /\
   (forall c, run g (ops (gameLoop ps (t :: rest))) c = g c)) /\
  (elapsed t <= gameActivityTimeout ->
   incoming t = SetReadDeadlineFails \/
   incoming t = ReadFails \/
   incoming t = Line None \/
   (exists doc, incoming t = Line (Some doc) /\ Unmarshal doc = None) ->
   result (gameLoop ps (t :: rest)) = (ps, Returned) /\
   writes (ops (gameLoop ps (t :: rest))) = [] /\
   (forall c, run g (ops (gameLoop ps (t :: rest))) c = g c)).
Proof.
  split.
  - intros Hlate.
    pose proof (body_timeout ps t Hlate) as Hbody.
    split; [exact Hbody|].
    rewrite gameLoop_cons, Hbody. repeat split.
  - intros Hintime Hread.
    rewrite gameLoop_cons. unfold gameLoop_body.
    destruct (Z.gtb_spec (elapsed t) gameActivityTimeout); [lia|].
    destruct Hread as [Hr | [Hr | [Hr | (doc & Hr & Hdoc)]]]; rewrite Hr;
      unfold readServerMessage; try rewrite Hdoc; cbn; repeat split.
Qed.

Lemma timeout_and_read_error_are_not_counted_witness :
  result (gameLoop Scenario.p7_all_in
            [{| elapsed := 61 * Second;
                incoming := Line (Some (Scenario.betting_turn "p7" 500));
                outgoing := WriteOk |}]) = (Scenario.p7_all_in, Returned) /\
  result (gameLoop Scenario.p7_all_in
            [{| elapsed := 1 * Second; incoming := ReadFails;
                outgoing := WriteOk |}]) = (Scenario.p7_all_in, Returned).
Proof.
  split.
  - refine (proj1 (proj2 (proj1 (timeout_and_read_error_are_not_counted
             Scenario.p7_all_in
             {| elapsed := 61 * Second;
                incoming := Line (Some (Scenario.betting_turn "p7" 500));
                outgoing := WriteOk |} [] zero) _))).
    reflexivity.
  - refine (proj1 (proj2 (timeout_and_read_error_are_not_counted
             Scenario.p7_all_in
             {| elapsed := 1 * Second; incoming := ReadFails;
                outgoing := WriteOk |} [] zero) _ _)).
    + vm_compute. discriminate.
    + right. left. reflexivity.
Defined.

(** *** Messages without a type *)

Lemma assign_unknown (k : string) (v : value) (r : ServerResponse) :
  ~ In k tags -> assign_ServerResponse k v r = Some r.
Proof.
  intros Hk. unfold assign_ServerResponse. destruct r.
  repeat match goal with
         | |- context [String.eqb k ?tag] =>
             destruct (String.eqb_spec k tag) as [->|_];
             [exfalso; apply Hk; cbn; tauto|]
         end.
  reflexivity.
Qed.

Lemma assign_keeps_type (k : string) (v : value) (r r' : ServerResponse) :
  k <> "type" -> assign_ServerResponse k v r = Some r' -> Type_ r' = Type_ r.
Proof.
  intros Hk. unfold assign_ServerResponse. destruct r.
  destruct (String.eqb_spec k "type") as [->|_]; [congruence|].
  repeat match goal with
         | |- context [String.eqb k ?tag] => destruct (String.eqb k tag)
         end;
    intros H;
    first [ injection H as <-; reflexivity
          | match type of H with
            | option_map _ ?o = _ =>
                destruct o; cbn in H;
                [injection H as <-; reflexivity | discriminate]
            end ].
Qed.

Lemma fill_unknown (members : list (string * value)) (r : ServerResponse) :
  (forall k, In k (keys members) -> ~ In k tags) ->
  fill assign_ServerResponse members r = Some r.
Proof.
  induction members as [|[k v] members IH]; intros Hk; [reflexivity|].
  cbn [fill]. rewrite assign_unknown.
  - apply IH. intros k' Hk'. apply Hk. right. exact Hk'.
  - apply Hk. left. reflexivity.
Qed.

Lemma fill_keeps_type (members : list (string * value)) :
  forall r r' : ServerResponse,
    ~ In "type" (keys members) ->
    fill assign_ServerResponse members r = Some r' -> Type_ r' = Type_ r.
Proof.
  induction members as [|[k v] members IH]; intros r r' Hk; cbn [fill].
  - intros H. injection H as <-. reflexivity.
  - destruct (assign_ServerResponse (foldName k) v r) as [r1|] eqn:Hr1;
      [|discriminate].
    intros H. rewrite (IH r1 r').
    + apply (assign_keeps_type (foldName k) v); [|exact Hr1].
      intros Heq. apply Hk. left. exact Heq.
    + intros Hin. apply Hk. right. exact Hin.
    + exact H.
Qed.

(** C6.  A line none of whose members is a field of ServerResponse
    decodes to the zero envelope, with type "" and code 0; a line without
    a type member decodes, if at all, to an envelope with type "" (for
    instance {code: 400, message: bad} to the bare error with code 400).
    In the loop an envelope with empty type is only logged (as an error
    from the server when its code is not zero, whatever the code; as a
    message with empty type and no error code otherwise): nothing is
    written, no counter changes, and the loop goes on. *)
Theorem untyped_messages_are_logged_and_skipped :
  (forall members : list (string * value),
      (forall k, In k (keys members) -> ~ In k tags) ->
      Unmarshal (Obj members) = Some zero_ServerResponse) /\
  Type_ zero_ServerResponse = "" /\
  Code zero_ServerResponse = 0 /\
  (forall (members : list (string * value)) (resp : ServerResponse),
      ~ In "type" (keys members) ->
      Unmarshal (Obj members) = Some resp ->
      Type_ resp = "") /\
  Unmarshal Scenario.bad_400 =
    Some {| Type_ := ""; Event := Null; Code := 400; Message := "bad";
            GameID := ""; Stage := "";
            State := {| Player := {| PlayerID := ""; Chips := 0 |} |};
            MinimumBet := 0 |} /\
  (forall (ps : PlayerSessionState) (t : Tick) (doc : value)
          (resp : ServerResponse),
      elapsed t <= gameActivityTimeout ->
      incoming t = Line (Some doc) ->
      Unmarshal doc = Some resp ->
      Type_ resp = "" ->
      gameLoop_body ps t =
        ([Printf (logPrefix ps ++ "Received: %s" ++ newline) [ATrimSpace (Some doc)];
          if Code resp =? 0 then
            Printf (logPrefix ps ++
                    "Received message with empty type and no error code. Raw: %+v"
                    ++ newline) [AResponse resp]
          else
            Printf (logPrefix ps ++
                    "Received error from server: Code %d, Message: %s" ++ newline)
                   [AInt (Code resp); AString (Message resp)]],
         (ps, Continue))).
Proof.
  split; [intros members Hk; apply fill_unknown; exact Hk|].
  split; [reflexivity|]. split; [reflexivity|].
  split; [intros members resp Hk H; exact (fill_keeps_type members _ resp Hk H)|].
  split; [reflexivity|].
  intros ps t doc resp Hel Hin Hdec Hty.
  unfold gameLoop_body.
  destruct (Z.gtb_spec (elapsed t) gameActivityTimeout); [lia|].
  rewrite Hin, (readServerMessage_line _ doc _ Hdec).
  cbn [bind]. rewrite Hty. cbn [String.eqb Ascii.eqb Bool.eqb orb].
  destruct (Code resp =? 0); reflexivity.
Qed.

Lemma untyped_messages_are_logged_and_skipped_witness :
  snd (gameLoop_body Scenario.p7 (Scenario.receive Scenario.bad_400)) =
    (Scenario.p7, Continue) /\
  snd (gameLoop_body Scenario.p7 (Scenario.receive (Obj []))) =
    (Scenario.p7, Continue).
Proof.
  destruct untyped_messages_are_logged_and_skipped as (_ & _ & _ & _ & _ & H).
  split.
  - rewrite (H Scenario.p7 (Scenario.receive Scenario.bad_400) Scenario.bad_400
               _ ltac:(vm_compute; discriminate) eq_refl eq_refl eq_refl).
    reflexivity.
  - rewrite (H Scenario.p7 (Scenario.receive (Obj [])) (Obj [])
               _ ltac:(vm_compute; discriminate) eq_refl eq_refl eq_refl).
    reflexivity.
Defined.

(** *** The counters *)

Lemma wrap32_idem (x d : Z) :
  Int.wrap 32 (Int.wrap 32 x + d) = Int.wrap 32 (x + d).
Proof.
  unfold Int.wrap. change (32 - 1) with 31.
  replace ((x + 2 ^ 31) mod 2 ^ 32 - 2 ^ 31 + d + 2 ^ 31)
    with ((x + 2 ^ 31) mod 2 ^ 32 + d) by lia.
  rewrite Zplus_mod_idemp_l.
  replace (x + 2 ^ 31 + d) with (x + d + 2 ^ 31) by lia. reflexivity.
Qed.

Lemma wrap32_range (x : Z) : - 2 ^ 31 <= Int.wrap 32 x < 2 ^ 31.
Proof.
  unfold Int.wrap. change (32 - 1) with 31.
  pose proof (Z.mod_pos_bound (x + 2 ^ 31) (2 ^ 32) ltac:(lia)). lia.
Qed.

Lemma AddInt32_int32 (g : Globals) (addr : Counter) (delta : Z) :
  int32 g -> int32 (AddInt32 g addr delta).
Proof.
  intros Hg c. unfold AddInt32.
  destruct (Counter_eqb c addr); [apply wrap32_range | apply Hg].
Qed.

(** Replaying a trace adds up its increments, modulo 2^32. *)
Lemma run_total (tr : list Op) :
  forall (g : Globals) (c : Counter),
    int32 g -> run g tr c = Int.wrap 32 (g c + total c tr).
Proof.
  induction tr as [|o tr IH]; intros g c Hg.
  - cbn. rewrite Z.add_0_r. symmetry. apply wrap32_small. apply Hg.
  - destruct o; cbn [run fold_left exec total];
      try (apply (IH g c Hg)).
    change (run (AddInt32 g addr delta) tr c =
            Int.wrap 32 (g c + ((if Counter_eqb c addr then delta else 0)
                                + total c tr))).
    rewrite (IH _ c (AddInt32_int32 g addr delta Hg)).
    unfold AddInt32. destruct (Counter_eqb c addr).
    + rewrite wrap32_idem. f_equal. lia.
    + f_equal.
Qed.

Section Totals.
#[local] Arguments Z.add : simpl never.

Lemma body_registration_totals (ps : PlayerSessionState) (t : Tick)
    (c : Counter) :
  c <> allInsMade -> c <> foldsMade -> total c (ops (gameLoop_body ps t)) = 0.
Proof.
  intros H1 H2. destruct c; try congruence;
    unfold gameLoop_body, readServerMessage; break_body; reflexivity.
Qed.

Lemma gameLoop_registration_totals (env : list Tick) (c : Counter) :
  c <> allInsMade -> c <> foldsMade ->
  forall ps, total c (ops (gameLoop ps env)) = 0.
Proof.
  intros H1 H2.
  induction env as [|t env IH]; intros ps; [reflexivity|].
  rewrite gameLoop_cons.
  pose proof (body_registration_totals ps t c H1 H2) as Hb.
  destruct (gameLoop_body ps t) as [tr [ps' []]]; cbn in *; [|exact Hb].
  rewrite total_app, Hb, IH. reflexivity.
Qed.

(** Whatever the network does, a session adds one to exactly one of the
    two registration counters. *)
Lemma session_totals (id : Z) (net : Network) :
  total successfulRegistrations (ops (managePlayerSession id net)) =
    (if registers net then 1 else 0) /\
  total failedRegistrations (ops (managePlayerSession id net)) =
    (if registers net then 0 else 1).
Proof.
  unfold managePlayerSession, defer, register, joinGame, readServerMessage,
    registers.
  pose proof (fun c H1 H2 =>
                gameLoop_registration_totals (game net) c H1 H2 (playerState id))
    as Hg.
  unfold playerState in Hg.
  destruct (gameLoop _ (game net)) as [tr [ps' st]].
  cbn in Hg.
  destruct (dial net) eqn:Hdial.
  all: break_body.
  all: rewrite ?total_app, ?Hg by discriminate.
  all: split; reflexivity.
Qed.

(** C4, as amended.  Once the registration has been sent and a line
    has been read and decoded, the outcome depends on the type alone.
    If it is event_player_leaderboard_entry_start the success counter
    is incremented by one, the failure counter is not, and the session
    goes on to joinGame (which logs the join it sends and, when the
    send succeeds, writes it and counts the game joined).  If the type
    is anything else (with a non-zero code or any other shape) the
    failure counter is incremented by one, the success counter is not,
    and the session returns having written the registration only: no
    join is sent. *)
Theorem registration_is_decided_by_type (id : Z) (net : Network)
    (doc : value) (resp : ServerResponse) :
  dial net = true ->
  register_write net = WriteOk ->
  register_read net = Line (Some doc) ->
  Unmarshal doc = Some resp ->
  (Type_ resp = "event_player_leaderboard_entry_start" ->
   total successfulRegistrations (ops (managePlayerSession id net)) = 1 /\
   total failedRegistrations (ops (managePlayerSession id net)) = 0 /\
   In (Printf (logPrefix (playerState id) ++ "Sending: %s" ++ newline)
              [AValue join])
      (ops (managePlayerSession id net)) /\
   (join_write net = WriteOk ->
    In join (writes (ops (managePlayerSession id net))) /\
    total gamesJoined (ops (managePlayerSession id net)) = 1)) /\
  (Type_ resp <> "event_player_leaderboard_entry_start" ->
   total successfulRegistrations (ops (managePlayerSession id net)) = 0 /\
   total failedRegistrations (ops (managePlayerSession id net)) = 1 /\
   result (managePlayerSession id net) = Returned /\
   writes (ops (managePlayerSession id net)) =
     [registration (baseUsername ++ Int.Itoa id) (basePassword ++ Int.Itoa id)] /\
   total gamesJoined (ops (managePlayerSession id net)) = 0).
Proof.
  intros Hdial Hw Hr Hdec.
  unfold managePlayerSession, defer, register, joinGame, readServerMessage,
    playerState.
  rewrite Hdial, Hw, Hr, Hdec.
  pose proof (fun c H1 H2 =>
                gameLoop_registration_totals (game net) c H1 H2 (playerState id))
    as Hg.
  unfold playerState in Hg.
  destruct (gameLoop _ (game net)) as [tr [ps' st]].
  cbn in Hg.
  cbn. split; intros Hty.
  - rewrite Hty. cbn [String.eqb Ascii.eqb Bool.eqb negb].
    break_body; rewrite ?total_app, ?Hg by discriminate.
    all: repeat split; try reflexivity; try discriminate.
    all: try (repeat first [left; reflexivity | right]; fail).
    all: intros _; split; [left; reflexivity|];
      rewrite ?total_app, ?Hg by discriminate; reflexivity.
  - destruct (String.eqb_spec (Type_ resp) "event_player_leaderboard_entry_start");
      [contradiction|].
    break_body; repeat split.
Qed.

Lemma registration_is_decided_by_type_witness :
  (total successfulRegistrations
     (ops (managePlayerSession 7 (Scenario.answered Scenario.entry_start))) = 1 /\
   In join
      (writes (ops (managePlayerSession 7 (Scenario.answered Scenario.entry_start))))) /\
  (total failedRegistrations
     (ops (managePlayerSession 7 (Scenario.answered Scenario.exists_409))) = 1 /\
   writes (ops (managePlayerSession 7 (Scenario.answered Scenario.exists_409))) =
     [registration "over-7" "password7"]).
Proof.
  split.
  - destruct (registration_is_decided_by_type 7
                (Scenario.answered Scenario.entry_start) Scenario.entry_start
                _ eq_refl eq_refl eq_refl eq_refl) as [Hyes _].
    destruct (Hyes eq_refl) as (Hs & _ & _ & Hj).
    split; [exact Hs | exact (proj1 (Hj eq_refl))].
  - destruct (registration_is_decided_by_type 7
                (Scenario.answered Scenario.exists_409) Scenario.exists_409
                _ eq_refl eq_refl eq_refl eq_refl) as [_ Hno].
    destruct (Hno ltac:(discriminate)) as (_ & Hf & _ & Hw & _).
    split; [exact Hf | exact Hw].
Defined.

(** C4 as stated fails on a response that carries both the success type
    and a non-zero code: the type is tested first, so the registration
    succeeds, the failure counter stays and the join is sent. *)
Lemma nonzero_code_with_success_type_registers :
  (exists resp,
      Unmarshal Scenario.entry_start_409 = Some resp /\
      Code resp <> 0 /\
      result (register (playerState 7) "password7" WriteOk
                       (Line (Some Scenario.entry_start_409))) = true) /\
  total failedRegistrations
    (ops (managePlayerSession 7 (Scenario.answered Scenario.entry_start_409))) = 0 /\
  total successfulRegistrations
    (ops (managePlayerSession 7 (Scenario.answered Scenario.entry_start_409))) = 1 /\
  writes (ops (managePlayerSession 7 (Scenario.answered Scenario.entry_start_409))) =
    [registration "over-7" "password7"; join].
Proof.
  split.
  - eexists. split; [reflexivity|]. split; [discriminate | reflexivity].
  - repeat split.
Qed.

(** *** All sessions together *)

Lemma sumZ_app (l1 l2 : list Z) : sumZ (l1 ++ l2) = sumZ l1 + sumZ l2.
Proof.
  unfold sumZ. induction l1 as [|x l1 IH]; cbn; [reflexivity | rewrite IH; lia].
Qed.

Lemma total_cons (c : Counter) (o : Op) (t : list Op) :
  total c (o :: t) = total c [o] + total c t.
Proof. destruct o; cbn; lia. Qed.

(** An execution adds to a counter what its sessions add to it. *)
Lemma interleaving_total (c : Counter) (threads : list (list Op))
    (tr : list Op) :
  Interleaving threads tr -> total c tr = sumZ (map (total c) threads).
Proof.
  induction 1 as [threads Hnil | before after o t tr _ IH].
  - induction Hnil as [|t threads Ht _ IH]; [reflexivity|].
    subst t. cbn [map]. unfold sumZ in *. cbn [fold_right].
    rewrite <- IH. reflexivity.
  - rewrite total_cons, IH, !map_app, !sumZ_app. cbn [map sumZ fold_right].
    rewrite (total_cons c o t). lia.
Qed.

Lemma spawn_totals (nets : list Network) :
  forall i : Z,
    sumZ (map (total successfulRegistrations) (spawn i nets)) =
      Z.of_nat (List.length (filter registers nets)) /\
    sumZ (map (total failedRegistrations) (spawn i nets)) =
      Z.of_nat (List.length (filter (fun net => negb (registers net)) nets)).
Proof.
  induction nets as [|net nets IH]; intros i; [split; reflexivity|].
  destruct (IH (i + 1)) as [IHs IHf].
  destruct (session_totals i net) as [Hs Hf].
  cbn [spawn map sumZ fold_right filter].
  fold (sumZ (map (total successfulRegistrations) (spawn (i + 1) nets))).
  fold (sumZ (map (total failedRegistrations) (spawn (i + 1) nets))).
  rewrite Hs, Hf, IHs, IHf.
  destruct (registers net); cbn [negb List.length]; split; lia.
Qed.

Lemma filter_split {A : Type} (f : A -> bool) (l : list A) :
  (List.length (filter f l) + List.length (filter (fun x => negb (f x)) l) = List.length l)%nat.
Proof.
  induction l as [|x l IH]; [reflexivity|].
  cbn. destruct (f x); cbn; lia.
Qed.

Lemma report_total (threads : list (list Op)) (tr : list Op) (c : Counter) :
  Interleaving threads tr ->
  0 <= sumZ (map (total c) threads) <= Int.max_int32 ->
  LoadInt32 (report tr) c = sumZ (map (total c) threads).
Proof.
  intros Hi Hrange. unfold LoadInt32, report.
  rewrite run_total by (intros c'; unfold zero; lia).
  rewrite (interleaving_total c threads tr Hi).
  unfold Int.max_int32 in Hrange.
  apply wrap32_small. cbn [zero]. lia.
Qed.

(** C5.  Take any number of sessions that fits an int32 (the program
    launches numPlayersToCreate of them, which does), whatever the
    network answers to each, and any interleaving of their operations.
    Each session adds one to exactly one of the two registration
    counters (to the success counter on the success path, to the
    failure counter on every other path: failed dial, failed send,
    failed read, undecodable line, non-zero code, unexpected shape) and
    returns, at once if the registration fails and by the activity
    timeout at the latest otherwise; so once all have run the two
    counters add up to the number of sessions. *)
Theorem registrations_account_for_every_session (nets : list Network)
    (tr : list Op) :
  Z.of_nat (List.length nets) <= Int.max_int32 ->
  Interleaving (spawn 0 nets) tr ->
  numPlayersToCreate <= Int.max_int32 /\
  (forall (id : Z) (net : Network),
      total successfulRegistrations (ops (managePlayerSession id net)) =
        (if registers net then 1 else 0) /\
      total failedRegistrations (ops (managePlayerSession id net)) =
        (if registers net then 0 else 1)) /\
  (forall (id : Z) (net : Network),
      registers net = false \/
      Exists (fun t => gameActivityTimeout < elapsed t) (game net) ->
      result (managePlayerSession id net) = Returned) /\
  LoadInt32 (report tr) successfulRegistrations =
    Z.of_nat (List.length (filter registers nets)) /\
  LoadInt32 (report tr) failedRegistrations =
    Z.of_nat (List.length (filter (fun net => negb (registers net)) nets)) /\
  LoadInt32 (report tr) successfulRegistrations +
  LoadInt32 (report tr) failedRegistrations = Z.of_nat (List.length nets).
Proof.
  intros HN Hi.
  split; [vm_compute; discriminate|].
  split; [exact session_totals|].
  split; [exact session_returns|].
  destruct (spawn_totals nets 0) as [Hs Hf].
  pose proof (filter_split registers nets) as Hsplit.
  assert (Hsucc : LoadInt32 (report tr) successfulRegistrations =
                  Z.of_nat (List.length (filter registers nets))).
  { rewrite (report_total _ tr _ Hi); rewrite Hs; lia. }
  assert (Hfail : LoadInt32 (report tr) failedRegistrations =
                  Z.of_nat (List.length
                              (filter (fun net => negb (registers net)) nets))).
  { rewrite (report_total _ tr _ Hi); rewrite Hf; lia. }
  split; [exact Hsucc|]. split; [exact Hfail|].
  rewrite Hsucc, Hfail. lia.
Qed.

Ltac schedule :=
  cbn [app];
  first [ solve [apply Interleaving_done; repeat constructor]
        | solve [apply (Interleaving_step [] [_]); schedule]
        | solve [apply (Interleaving_step [_] []); schedule] ].

Lemma registrations_account_for_every_session_witness :
  Interleaving
    (spawn 0 [Scenario.unreachable; Scenario.answered Scenario.entry_start])
    (Scenario.alternate
       (ops (managePlayerSession 0 Scenario.unreachable))
       (ops (managePlayerSession 1 (Scenario.answered Scenario.entry_start)))) /\
  LoadInt32
    (report (Scenario.alternate
               (ops (managePlayerSession 0 Scenario.unreachable))
               (ops (managePlayerSession 1 (Scenario.answered Scenario.entry_start)))))
    successfulRegistrations +
  LoadInt32
    (report (Scenario.alternate
               (ops (managePlayerSession 0 Scenario.unreachable))
               (ops (managePlayerSession 1 (Scenario.answered Scenario.entry_start)))))
    failedRegistrations = 2.
Proof.
  assert (Hi : Interleaving
            (spawn 0 [Scenario.unreachable; Scenario.answered Scenario.entry_start])
            (Scenario.alternate
               (ops (managePlayerSession 0 Scenario.unreachable))
               (ops (managePlayerSession 1
                       (Scenario.answered Scenario.entry_start))))).
  { vm_compute. schedule. }
  split; [exact Hi|].
  exact (proj2 (proj2 (proj2 (proj2 (proj2
           (registrations_account_for_every_session
              [Scenario.unreachable; Scenario.answered Scenario.entry_start]
              _ ltac:(vm_compute; discriminate) Hi)))))).
Defined.

End Totals.

(** ** Further properties of the session *)

Section Protocol.
#[local] Arguments Z.add : simpl never.

(** *** When the loop ends, and when it acts *)

(** The outcome of an iteration that read the envelope [resp]. *)
Lemma body_on_envelope (ps : PlayerSessionState) (t : Tick) (resp : ServerResponse) :
  elapsed t <= gameActivityTimeout ->
  decodes (incoming t) resp ->
  (snd (result (gameLoop_body ps t)) = Return <->
   terminal resp = true \/
   (Type_ resp = "action_player_bet" /\
    PlayerID (Player (State resp)) = username ps /\
    outgoing t <> WriteOk)).
Proof.
  intros Hin (doc & Hinc & Hdec).
  unfold gameLoop_body.
  destruct (Z.gtb_spec (elapsed t) gameActivityTimeout) as [Hlate | _]; [lia|].
  rewrite Hinc, (readServerMessage_line _ doc _ Hdec).
  cbn [bind]. unfold terminal.
  destruct (String.eqb_spec (Type_ resp) "action_player_bet") as [Hty | Hty].
  - rewrite Hty. cbn [String.eqb Ascii.eqb Bool.eqb orb].
    destruct (String.eqb_spec (PlayerID (Player (State resp))) (username ps))
      as [Hid | Hid].
    + destruct (hasPerformedAllIn ps), (Chips (Player (State resp)) <=? 0),
        (outgoing t); cbn;
        (split; [intros H; try discriminate; right; repeat split; congruence
                | intros [H | (_ & _ & H)]; try discriminate; try reflexivity;
                  congruence]).
    + cbn. split; [discriminate|].
      intros [H | (_ & H & _)]; [discriminate | contradiction].
  - destruct (String.eqb_spec (Type_ resp) "event_game_over") as [Hgo | Hgo].
    + cbn. split; [intros _; left; reflexivity | reflexivity].
    + destruct (String.eqb_spec (Type_ resp) "event_player_leaderboard_entry_end")
        as [He | He].
      * cbn. split; [intros _; left; reflexivity | reflexivity].
      * cbn [orb].
        destruct (String.eqb (Type_ resp) "event_pot_won");
          [|destruct (String.eqb (Type_ resp) ""); [destruct (Code resp =? 0)|]];
          cbn; (split; [discriminate|]);
          intros [H | (H & _)]; try discriminate; contradiction.
Qed.

(** X1.  An iteration of the game loop ends the session exactly when the
    activity timeout is exceeded, or the read yields no envelope, or the
    envelope is one of the two terminal events, or it is the session's own
    betting turn and the send fails; in every other case the loop goes
    on. *)
Theorem loop_ends_exactly_when (ps : PlayerSessionState) (t : Tick) :
  snd (result (gameLoop_body ps t)) = Return <->
  gameActivityTimeout < elapsed t \/
  read_fails (incoming t) = true \/
  (exists resp, decodes (incoming t) resp /\ terminal resp = true) \/
  (exists resp, my_turn ps t resp /\ outgoing t <> WriteOk).
Proof.
  destruct (Z.gtb_spec (elapsed t) gameActivityTimeout) as [Hlate | Hin].
  - rewrite (body_timeout ps t Hlate). cbn.
    split; [intros _; left; exact Hlate | reflexivity].
  - destruct (read_fails (incoming t)) eqn:Hread.
    + split; [intros _; right; left; reflexivity|]. intros _.
      unfold gameLoop_body, readServerMessage.
      destruct (Z.gtb_spec (elapsed t) gameActivityTimeout); [lia|].
      unfold read_fails in Hread.
      destruct (incoming t) as [| | [doc|]]; try reflexivity.
      destruct (Unmarshal doc); [discriminate | reflexivity].
    + assert (Hdec : exists resp, decodes (incoming t) resp).
      { unfold read_fails in Hread. unfold decodes.
        destruct (incoming t) as [| | [doc|]]; try discriminate.
        destruct (Unmarshal doc) as [resp|] eqn:Hd; [|discriminate].
        exists resp, doc. split; [reflexivity | exact Hd]. }
      destruct Hdec as [resp Hresp].
      assert (Huniq : forall r, decodes (incoming t) r -> r = resp).
      { intros r (d & Hd1 & Hd2). destruct Hresp as (d' & Hd1' & Hd2').
        rewrite Hd1 in Hd1'. injection Hd1' as <-. congruence. }
      rewrite (body_on_envelope ps t resp Hin Hresp).
      split.
      * intros [Hterm | (Hty & Hid & Hw)].
        -- right. right. left. exists resp. split; assumption.
        -- right. right. right. exists resp. split; [|exact Hw].
           split; [exact Hin|]. split; [exact Hresp|]. split; assumption.
      * intros [Hl | [Hr | [(r & Hr & Hterm) | (r & Hturn & Hw)]]].
        -- lia.
        -- discriminate.
        -- left. rewrite <- (Huniq r Hr). exact Hterm.
        -- destruct Hturn as (_ & Hr & Hty & Hid).
           rewrite (Huniq r Hr) in Hty, Hid. right. repeat split; assumption.
Qed.

(** X2.  Unless the iteration is the session's own betting turn, it writes
    nothing, changes no counter and leaves the session state as it was: a
    turn of another player, pot_won, an error envelope and every unknown
    event are passed over. *)
Theorem idle_unless_own_turn (ps : PlayerSessionState) (t : Tick) :
  (forall resp, ~ my_turn ps t resp) ->
  writes (ops (gameLoop_body ps t)) = [] /\
  fst (result (gameLoop_body ps t)) = ps /\
  (forall c, total c (ops (gameLoop_body ps t)) = 0).
Proof.
  intros Hnot. unfold gameLoop_body.
  destruct (Z.gtb_spec (elapsed t) gameActivityTimeout) as [Hlate | Hin];
    [repeat split|].
  destruct (incoming t) as [| | [doc|]] eqn:Hinc; try solve [repeat split].
  destruct (Unmarshal doc) as [resp|] eqn:Hdec;
    [|unfold readServerMessage; rewrite Hdec; repeat split].
  rewrite (readServerMessage_line _ doc _ Hdec). cbn [bind].
  destruct (String.eqb_spec (Type_ resp) "action_player_bet") as [Hty | Hty].
  - destruct (String.eqb_spec (PlayerID (Player (State resp))) (username ps))
      as [Hid | Hid]; [|repeat split].
    exfalso. apply (Hnot resp).
    split; [exact Hin|]. split; [|split; assumption].
    exists doc. split; [exact Hinc | exact Hdec].
  - break_body; repeat split.
Qed.

Lemma idle_unless_own_turn_witness :
  (forall resp,
      ~ my_turn Scenario.p7 (Scenario.receive (Scenario.betting_turn "p8" 40)) resp) /\
  writes (ops (gameLoop_body Scenario.p7
                 (Scenario.receive (Scenario.betting_turn "p8" 40)))) = [].
Proof.
  assert (Hnot : forall resp,
             ~ my_turn Scenario.p7
                 (Scenario.receive (Scenario.betting_turn "p8" 40)) resp).
  { intros resp (_ & (doc & Hinc & Hdec) & _ & Hid).
    injection Hinc as <-. vm_compute in Hdec. injection Hdec as <-.
    discriminate. }
  split; [exact Hnot|].
  exact (proj1 (idle_unless_own_turn Scenario.p7
                  (Scenario.receive (Scenario.betting_turn "p8" 40)) Hnot)).
Defined.

(** *** Cleanup *)

Lemma body_not_deferred (ps : PlayerSessionState) (t : Tick) :
  Forall (fun o => is_deferred o = false) (ops (gameLoop_body ps t)).
Proof.
  unfold gameLoop_body, readServerMessage.
  break_body; repeat constructor.
Qed.

Lemma gameLoop_not_deferred (env : list Tick) :
  forall ps, Forall (fun o => is_deferred o = false) (ops (gameLoop ps env)).
Proof.
  induction env as [|t env IH]; intros ps; [constructor|].
  rewrite gameLoop_cons.
  pose proof (body_not_deferred ps t) as Hb.
  destruct (gameLoop_body ps t) as [tr [ps' []]]; cbn in *; [|exact Hb].
  apply Forall_app. split; [exact Hb | apply IH].
Qed.

Lemma deferred_tail_app (tr rest : list Op) :
  Forall (fun o => is_deferred o = false) tr ->
  deferred_tail (tr ++ rest) = deferred_tail rest.
Proof.
  induction 1 as [|o tr Ho _ IH]; [reflexivity|].
  cbn. rewrite Ho. exact IH.
Qed.

(** X3.  From its first deferred call on, the trace of a session that
    has returned is exactly: the close of the connection if the dial had
    succeeded, the release of the semaphore slot, wg.Done().  So on every
    exit path the connection is closed once, nothing is written, logged or
    counted after the close, and the slot is released once, before
    wg.Done(); a session that has not returned has run none of them. *)
Theorem cleanup_runs_last (id : Z) (net : Network) :
  deferred_tail (ops (managePlayerSession id net)) =
  match result (managePlayerSession id net) with
  | Returned =>
      ((if dial net then [ConnClose] else []) ++ [SemaphoreRelease; WgDone])%list
  | Pending => []
  end.
Proof.
  unfold managePlayerSession, defer, register, joinGame, readServerMessage.
  pose proof (gameLoop_not_deferred (game net) (playerState id)) as Hg.
  unfold playerState in Hg.
  destruct (gameLoop _ (game net)) as [tr [ps' st]].
  cbn in Hg.
  destruct (dial net) eqn:Hdial.
  all: break_body.
  all: repeat rewrite <- app_assoc; cbn [app];
       rewrite ?(deferred_tail_app tr _ Hg); reflexivity.
Qed.

(** *** The order and number of the lines written *)

(** What one iteration does to the lines written, the all-in counter and
    the flag, before the all-in. *)
Lemma body_before_all_in (ps : PlayerSessionState) (t : Tick) :
  hasPerformedAllIn ps = false ->
  (fst (result (gameLoop_body ps t)) = ps /\
   total allInsMade (ops (gameLoop_body ps t)) = 0 /\
   (writes (ops (gameLoop_body ps t)) = [] \/
    writes (ops (gameLoop_body ps t)) = [bet (-1)] \/
    snd (result (gameLoop_body ps t)) = Return /\
    exists n, 0 < n /\ writes (ops (gameLoop_body ps t)) = [bet n])) \/
  (hasPerformedAllIn (fst (result (gameLoop_body ps t))) = true /\
   snd (result (gameLoop_body ps t)) = Continue /\
   total allInsMade (ops (gameLoop_body ps t)) = 1 /\
   exists n, 0 < n /\ writes (ops (gameLoop_body ps t)) = [bet n]).
Proof.
  intros Hflag. unfold gameLoop_body, readServerMessage. rewrite Hflag.
  break_body;
    first [ left; split; [reflexivity|]; split; [reflexivity|];
            first [ left; reflexivity
                  | right; left; reflexivity
                  | right; right; split; [reflexivity|];
                    eexists; split; [|reflexivity]; lia ]
          | right; split; [reflexivity|]; split; [reflexivity|];
            split; [reflexivity|]; eexists; split; [|reflexivity]; lia ].
Qed.

Lemma body_all_in_total_after (ps : PlayerSessionState) (t : Tick) :
  hasPerformedAllIn ps = true ->
  total allInsMade (ops (gameLoop_body ps t)) = 0.
Proof.
  intros Hflag. unfold gameLoop_body, readServerMessage. rewrite Hflag.
  break_body; reflexivity.
Qed.

Lemma gameLoop_all_in_total_after (env : list Tick) (ps : PlayerSessionState) :
  hasPerformedAllIn ps = true ->
  total allInsMade (ops (gameLoop ps env)) = 0.
Proof.
  intros Hflag. induction env as [|t env IH]; [reflexivity|].
  rewrite gameLoop_cons.
  pose proof (body_all_in_total_after ps t Hflag) as Hb.
  pose proof (proj1 (body_after_all_in ps t Hflag)) as Hps.
  destruct (gameLoop_body ps t) as [tr [ps' []]]; cbn in *; [|exact Hb].
  subst ps'. rewrite total_app, Hb, IH. reflexivity.
Qed.

Lemma all_equal_repeat {A : Type} (x : A) (l : list A) :
  Forall (fun v => v = x) l -> l = repeat x (List.length l).
Proof.
  induction 1 as [|v l Hv _ IH]; [reflexivity|].
  cbn. rewrite Hv, <- IH. reflexivity.
Qed.

Lemma gameLoop_shape (env : list Tick) :
  forall ps,
    bets_shape (writes (ops (gameLoop ps env)))
               (total allInsMade (ops (gameLoop ps env))).
Proof.
  induction env as [|t env IH]; intros ps.
  - exists 0%nat, 0%nat, []. split; [reflexivity | left; split; reflexivity].
  - destruct (hasPerformedAllIn ps) eqn:Hflag.
    + destruct (gameLoop_after_all_in (t :: env) ps Hflag) as [_ Hw].
      rewrite (gameLoop_all_in_total_after (t :: env) ps Hflag).
      exists 0%nat, (List.length (writes (ops (gameLoop ps (t :: env))))), [].
      split; [apply (all_equal_repeat _ _ Hw) | left; split; reflexivity].
    + rewrite gameLoop_cons.
      pose proof (body_before_all_in ps t Hflag) as Hb.
      destruct (gameLoop_body ps t) as [tr [ps' flow]]. cbn in Hb.
      destruct Hb as [(Hps & Htot & Hw) | (Hset & Hflow & Htot & n & Hn & Hw)].
      * subst ps'.
        assert (Hhere : bets_shape (writes tr) (total allInsMade tr)).
        { rewrite Htot.
          destruct Hw as [Hw | [Hw | (_ & n & Hn & Hw)]]; rewrite Hw.
          - exists 0%nat, 0%nat, []. split; [reflexivity | left; split; reflexivity].
          - exists 1%nat, 0%nat, []. split; [reflexivity | left; split; reflexivity].
          - exists 0%nat, 0%nat, [bet n]. split; [reflexivity|].
            right. exists n. repeat split; auto. }
        destruct flow; [|exact Hhere].
        cbn [ops result fst snd].
        destruct Hw as [Hw | [Hw | (Habs & _)]]; [| |discriminate];
          rewrite writes_app, total_app, Htot, Hw;
          destruct (IH ps) as (a & b & stake & Heq & Hst).
        -- exists a, b, stake. split; [exact Heq | exact Hst].
        -- exists (S a), b, stake. split; [rewrite Heq; reflexivity | exact Hst].
      * subst flow. cbn [ops result fst snd].
        rewrite writes_app, total_app, Htot, Hw.
        destruct (gameLoop_after_all_in env ps' Hset) as [_ Hrest].
        rewrite (gameLoop_all_in_total_after env ps' Hset).
        exists 0%nat, (List.length (writes (ops (gameLoop ps' env)))), [bet n].
        split.
        -- cbn [repeat app]. f_equal. apply (all_equal_repeat _ _ Hrest).
        -- right. exists n. repeat split; auto.
Qed.

(** X4.  What a session writes is a prefix of: its registration, the
    join, then bets.  The bets are folds, at most one all-in (a bet of a
    positive amount), then folds only; and the all-in counter is added to
    at most once, and only if such a bet was written. *)
Theorem session_writes_in_order (id : Z) (net : Network) :
  (writes (ops (managePlayerSession id net)) = [] \/
   writes (ops (managePlayerSession id net)) =
     [registration (baseUsername ++ Int.Itoa id) (basePassword ++ Int.Itoa id)]) /\
  total allInsMade (ops (managePlayerSession id net)) = 0 \/
  exists bets,
    writes (ops (managePlayerSession id net)) =
      registration (baseUsername ++ Int.Itoa id) (basePassword ++ Int.Itoa id)
      :: join :: bets /\
    bets_shape bets (total allInsMade (ops (managePlayerSession id net))).
Proof.
  unfold managePlayerSession, defer, register, joinGame, readServerMessage.
  pose proof (gameLoop_shape (game net) (playerState id)) as Hg.
  unfold playerState in Hg.
  destruct (gameLoop _ (game net)) as [tr [ps' st]].
  cbn in Hg.
  break_body.
  all: try (left; split; [first [left; reflexivity | right; reflexivity]
                         | reflexivity]).
  all: right; rewrite ?writes_app, ?total_app; cbn; rewrite ?app_nil_r, ?Z.add_0_r.
  all: try (exists []; split; [reflexivity|];
            exists 0%nat, 0%nat, []; split; [reflexivity | left; split; reflexivity]).
  all: exists (writes tr); split; [reflexivity | exact Hg].
Qed.

Lemma body_counts_its_bets (ps : PlayerSessionState) (t : Tick) :
  snd (result (gameLoop_body ps t)) = Continue /\
  Z.of_nat (List.length (writes (ops (gameLoop_body ps t)))) =
    total allInsMade (ops (gameLoop_body ps t)) +
    total foldsMade (ops (gameLoop_body ps t)) \/
  snd (result (gameLoop_body ps t)) = Return /\
  total allInsMade (ops (gameLoop_body ps t)) +
  total foldsMade (ops (gameLoop_body ps t)) = 0 /\
  (List.length (writes (ops (gameLoop_body ps t))) <= 1)%nat.
Proof.
  unfold gameLoop_body, readServerMessage.
  break_body;
    first [ left; split; reflexivity
          | right; split; [reflexivity|]; split; [reflexivity | cbn; lia] ].
Qed.

(** X5.  In the game loop every bet counted (in allInsMade or foldsMade)
    was written, and every bet written is counted except possibly the
    last one, whose write failed and ended the loop; while the loop has
    not returned the two numbers agree. *)
Theorem bets_written_and_counted (env : list Tick) :
  forall ps : PlayerSessionState,
    total allInsMade (ops (gameLoop ps env)) + total foldsMade (ops (gameLoop ps env))
    <= Z.of_nat (List.length (writes (ops (gameLoop ps env))))
    <= total allInsMade (ops (gameLoop ps env)) +
       total foldsMade (ops (gameLoop ps env)) + 1 /\
    (snd (result (gameLoop ps env)) = Pending ->
     Z.of_nat (List.length (writes (ops (gameLoop ps env)))) =
     total allInsMade (ops (gameLoop ps env)) +
     total foldsMade (ops (gameLoop ps env))).
Proof.
  induction env as [|t env IH]; intros ps.
  - cbn. split; [lia | reflexivity].
  - rewrite gameLoop_cons.
    pose proof (body_counts_its_bets ps t) as Hb.
    destruct (gameLoop_body ps t) as [tr [ps' flow]]. cbn in Hb.
    destruct Hb as [(-> & Heq) | (-> & Hzero & Hlen)].
    + cbn [ops result fst snd].
      rewrite writes_app, !total_app, length_app, Nat2Z.inj_add.
      destruct (IH ps') as [Hrange Hpend].
      split; [lia|]. intros Hp. specialize (Hpend Hp). lia.
    + cbn [ops result fst snd]. split; [lia | discriminate].
Qed.

(** *** The counters of a run *)

Lemma gameLoop_all_in_bound (env : list Tick) (ps : PlayerSessionState) :
  0 <= total allInsMade (ops (gameLoop ps env)) <= 1.
Proof.
  destruct (gameLoop_shape env ps) as (a & b & stake & _ & [[_ H] | (n & _ & _ & [H | H])]);
    rewrite H; lia.
Qed.

Lemma session_game_totals (id : Z) (net : Network) :
  total gamesJoined (ops (managePlayerSession id net)) =
    (if joins net then 1 else 0) /\
  0 <= total allInsMade (ops (managePlayerSession id net))
    <= (if joins net then 1 else 0).
Proof.
  unfold managePlayerSession, defer, register, joinGame, readServerMessage,
    joins, registers.
  pose proof (gameLoop_all_in_bound (game net) (playerState id)) as Ha.
  pose proof (gameLoop_registration_totals (game net) gamesJoined
                ltac:(discriminate) ltac:(discriminate) (playerState id)) as Hj.
  unfold playerState in Ha, Hj.
  destruct (gameLoop _ (game net)) as [tr [ps' st]].
  cbn in Ha, Hj.
  destruct (dial net) eqn:Hdial.
  all: break_body.
  all: rewrite ?total_app, ?Hj; cbn; split; try reflexivity; lia.
Qed.

Lemma joins_registers (net : Network) : joins net = true -> registers net = true.
Proof. unfold joins. destruct (registers net); [reflexivity | discriminate]. Qed.

Lemma spawn_game_totals (nets : list Network) :
  forall i : Z,
    sumZ (map (total gamesJoined) (spawn i nets)) =
      Z.of_nat (List.length (filter joins nets)) /\
    0 <= sumZ (map (total allInsMade) (spawn i nets))
      <= Z.of_nat (List.length (filter joins nets)) /\
    (List.length (filter joins nets) <= List.length (filter registers nets)
     <= List.length nets)%nat.
Proof.
  induction nets as [|net nets IH]; intros i.
  - cbn. repeat split; lia.
  - destruct (IH (i + 1)) as (IHj & IHa & IHn).
    destruct (session_game_totals i net) as [Hj Ha].
    cbn [spawn map sumZ fold_right filter].
    fold (sumZ (map (total gamesJoined) (spawn (i + 1) nets))).
    fold (sumZ (map (total allInsMade) (spawn (i + 1) nets))).
    rewrite Hj, IHj.
    pose proof (joins_registers net) as Hjr.
    destruct (joins net), (registers net); cbn [List.length];
      try (specialize (Hjr eq_refl); discriminate);
      repeat split; lia.
Qed.

(** X6.  After any interleaving of the sessions, the counters are ordered
    as the stages are: all-ins made <= games joined <= successful
    registrations <= sessions, and the games joined are exactly the
    sessions that registered and whose join was sent. *)
Theorem counters_are_ordered (nets : list Network) (tr : list Op) :
  Z.of_nat (List.length nets) <= Int.max_int32 ->
  Interleaving (spawn 0 nets) tr ->
  0 <= LoadInt32 (report tr) allInsMade <= LoadInt32 (report tr) gamesJoined /\
  LoadInt32 (report tr) gamesJoined
    <= LoadInt32 (report tr) successfulRegistrations
    <= Z.of_nat (List.length nets) /\
  LoadInt32 (report tr) gamesJoined = Z.of_nat (List.length (filter joins nets)).
Proof.
  intros HN Hi.
  destruct (spawn_game_totals nets 0) as (Hj & Ha & Hn).
  destruct (spawn_totals nets 0) as [Hs _].
  rewrite (report_total _ tr allInsMade Hi) by lia.
  rewrite (report_total _ tr gamesJoined Hi) by lia.
  rewrite (report_total _ tr successfulRegistrations Hi) by lia.
  lia.
Qed.

Lemma counters_are_ordered_witness :
  LoadInt32
    (report (Scenario.alternate
               (ops (managePlayerSession 0 Scenario.unreachable))
               (ops (managePlayerSession 1 (Scenario.answered Scenario.entry_start)))))
    gamesJoined = 1.
Proof.
  assert (Hi : Interleaving
            (spawn 0 [Scenario.unreachable; Scenario.answered Scenario.entry_start])
            (Scenario.alternate
               (ops (managePlayerSession 0 Scenario.unreachable))
               (ops (managePlayerSession 1
                       (Scenario.answered Scenario.entry_start))))).
  { vm_compute.
    repeat first [ apply Interleaving_done; repeat constructor
                 | apply (Interleaving_step [] [_])
                 | apply (Interleaving_step [_] []) ]. }
  exact (proj2 (proj2
           (counters_are_ordered
              [Scenario.unreachable; Scenario.answered Scenario.entry_start]
              _ ltac:(vm_compute; discriminate) Hi))).
Defined.

End Protocol.

(** ** Further properties of the decoding *)

Section Decoding.

Lemma fill_app {S : Type} (assign : string -> value -> S -> option S)
    (l1 l2 : list (string * value)) :
  forall s : S,
    fill assign (l1 ++ l2) s =
    match fill assign l1 s with
    | Some s1 => fill assign l2 s1
    | None => None
    end.
Proof.
  induction l1 as [|[k v] l1 IH]; intros s; cbn [app fill]; [reflexivity|].
  destruct (assign (foldName k) v s); [apply IH | reflexivity].
Qed.

Lemma assign_null (k : string) (r : ServerResponse) :
  k <> "event" -> assign_ServerResponse k Null r = Some r.
Proof.
  intros Hk. unfold assign_ServerResponse. destruct r.
  destruct (String.eqb_spec k "event") as [->|_]; [congruence|].
  repeat match goal with
         | |- context [String.eqb k ?tag] => destruct (String.eqb k tag)
         end; reflexivity.
Qed.

(** X7.  A member whose key is no field of ServerResponse, whatever its
    value, and a null member of any field but event, can be removed from a
    line without changing what it decodes to (or whether it decodes). *)
Theorem members_without_effect (l1 l2 : list (string * value)) (k : string)
    (v : value) :
  ~ In (foldName k) tags \/ (v = Null /\ foldName k <> "event") ->
  Unmarshal (Obj (l1 ++ (k, v) :: l2)) = Unmarshal (Obj (l1 ++ l2)).
Proof.
  intros H. unfold Unmarshal. cbn [into_struct]. rewrite !fill_app.
  destruct (fill assign_ServerResponse l1 zero_ServerResponse) as [r|];
    [|reflexivity].
  cbn [fill].
  destruct H as [Hk | [-> Hk]].
  - rewrite (assign_unknown _ v r Hk). reflexivity.
  - rewrite (assign_null _ r Hk). reflexivity.
Qed.

Lemma members_without_effect_witness :
  Unmarshal (Obj [("type", Str "event_pot_won"); ("pot", Str "12"); ("code", Null)]) =
  Unmarshal (Obj [("type", Str "event_pot_won"); ("code", Null)]) /\
  Unmarshal (Obj [("type", Str "event_pot_won"); ("code", Null)]) =
  Unmarshal (Obj [("type", Str "event_pot_won")]).
Proof.
  split.
  - apply (members_without_effect [("type", Str "event_pot_won")] [("code", Null)]
             "pot" (Str "12")).
    left. cbn. intuition discriminate.
  - apply (members_without_effect [("type", Str "event_pot_won")] [] "code" Null).
    right. split; [reflexivity | discriminate].
Defined.

Section Preserved.
Context {S : Type}.
Variable assign : string -> value -> S -> option S.
Variable P : S -> Prop.
Hypothesis assign_keeps :
  forall k v s s', P s -> assign k v s = Some s' -> P s'.

Lemma fill_keeps (members : list (string * value)) :
  forall s s', P s -> fill assign members s = Some s' -> P s'.
Proof.
  induction members as [|[k v] members IH]; intros s s' Hs; cbn [fill].
  - intros H; injection H as <-. exact Hs.
  - destruct (assign (foldName k) v s) as [s1|] eqn:H1; [|discriminate].
    apply IH. exact (assign_keeps _ _ _ _ Hs H1).
Qed.

Lemma into_struct_keeps (v : value) (s s' : S) :
  P s -> into_struct assign v s = Some s' -> P s'.
Proof.
  intros Hs. destruct v; cbn; try discriminate.
  - intros H; injection H as <-. exact Hs.
  - apply fill_keeps. exact Hs.
Qed.
End Preserved.

Lemma into_int_fits (v : value) (cur z : Z) :
  Int.fits_int cur = true -> into_int v cur = Some z -> Int.fits_int z = true.
Proof.
  intros Hc. destruct v as [| |[n|]| | |]; cbn; try discriminate.
  - intros H; injection H as <-. exact Hc.
  - destruct (Int.fits_int n) eqn:Hn; [|discriminate].
    intros H; injection H as <-. exact Hn.
Qed.

Lemma player_keeps_fit (k : string) (v : value) (p p' : PlayerStateForBet) :
  Int.fits_int (Chips p) = true ->
  assign_PlayerStateForBet k v p = Some p' ->
  Int.fits_int (Chips p') = true.
Proof.
  intros Hp. unfold assign_PlayerStateForBet.
  destruct (String.eqb k "player_id").
  - destruct (into_string v (PlayerID p)); cbn; [|discriminate].
    intros H; injection H as <-. exact Hp.
  - destruct (String.eqb k "chips").
    + destruct (into_int v (Chips p)) as [z|] eqn:Hz; cbn; [|discriminate].
      intros H; injection H as <-. exact (into_int_fits _ _ _ Hp Hz).
    + intros H; injection H as <-. exact Hp.
Qed.

Lemma state_keeps_fit (k : string) (v : value) (s s' : ActionPlayerBetFullState) :
  Int.fits_int (Chips (Player s)) = true ->
  assign_ActionPlayerBetFullState k v s = Some s' ->
  Int.fits_int (Chips (Player s')) = true.
Proof.
  intros Hs. unfold assign_ActionPlayerBetFullState.
  destruct (String.eqb k "player").
  - destruct (into_struct assign_PlayerStateForBet v (Player s)) as [p|] eqn:Hp;
      cbn; [|discriminate].
    intros H; injection H as <-. cbn.
    exact (into_struct_keeps _ (fun p => Int.fits_int (Chips p) = true)
             player_keeps_fit v _ _ Hs Hp).
  - intros H; injection H as <-. exact Hs.
Qed.

Lemma response_keeps_well_formed (k : string) (v : value) (r r' : ServerResponse) :
  well_formed r -> assign_ServerResponse k v r = Some r' -> well_formed r'.
Proof.
  unfold well_formed, assign_ServerResponse. destruct r. cbn.
  intros (Hc & Hm & Hp & He).
  repeat match goal with
         | |- context [String.eqb k ?tag] => destruct (String.eqb k tag)
         end;
    intros H;
    first [ injection H as <-; cbn; auto
          | match type of H with
            | option_map _ ?o = _ =>
                destruct o eqn:Ho; cbn in H; [injection H as <-|discriminate]
            end; cbn; repeat split; auto ].
  - unfold into_any in Ho. destruct (decodable v) eqn:Hv; [|discriminate].
    injection Ho as <-. exact Hv.
  - exact (into_int_fits _ _ _ Hc Ho).
  - exact (into_struct_keeps _ (fun s => Int.fits_int (Chips (Player s)) = true)
             state_keeps_fit v _ _ Hp Ho).
  - exact (into_int_fits _ _ _ Hm Ho).
Qed.

(** X8.  In every envelope that decodes, the code, the minimum bet and
    the chip count fit Go's int, and the event holds only numbers that
    fit a float64: a line with anything else is a decoding error. *)
Theorem decoded_envelope_is_well_formed (doc : value) (resp : ServerResponse) :
  Unmarshal doc = Some resp -> well_formed resp.
Proof.
  apply (into_struct_keeps _ well_formed response_keeps_well_formed).
  repeat split.
Qed.

Lemma decoded_envelope_is_well_formed_witness :
  Unmarshal (Scenario.betting_turn "p7" 500) = Some (Scenario.decoded_turn "p7" 500) /\
  well_formed (Scenario.decoded_turn "p7" 500).
Proof.
  split; [reflexivity|].
  exact (decoded_envelope_is_well_formed (Scenario.betting_turn "p7" 500)
           (Scenario.decoded_turn "p7" 500) eq_refl).
Defined.

End Decoding.

(** ** main: the sessions under the semaphore and the wait group *)

Section Launching.

Lemma not_deferred_local (tr : list Op) :
  Forall (fun o => is_deferred o = false) tr ->
  Forall (fun o => sync o = Pool.Local) tr.
Proof.
  apply Forall_impl. intros o. destruct o; cbn; try reflexivity; discriminate.
Qed.

Lemma returned_session (id : Z) (net : Network) :
  result (managePlayerSession id net) = Returned ->
  Pool.returns sync (ops (managePlayerSession id net)).
Proof.
  unfold managePlayerSession, defer, register, joinGame, readServerMessage.
  pose proof (not_deferred_local _ (gameLoop_not_deferred (game net) (playerState id))) as Hg.
  unfold playerState in Hg.
  destruct (gameLoop _ (game net)) as [tr [ps' st]].
  cbn in Hg.
  destruct (dial net) eqn:Hdial.
  all: break_body.
  all: try discriminate.
  all: intros _; repeat rewrite <- app_assoc; cbn [app].
  all: repeat first [ apply returns_base; reflexivity
                    | apply returns_cons; [reflexivity|]
                    | apply returns_app; [exact Hg|] ].
Qed.

Lemma returned_sessions (nets : list Network) :
  forall i, all_return i nets -> Forall (Pool.returns sync) (spawn i nets).
Proof.
  induction nets as [|net nets IH]; intros i; cbn; [constructor|].
  intros [Hr Hrest]. constructor; [apply returned_session; exact Hr|].
  apply IH. exact Hrest.
Qed.

Lemma sessions_allowed : 0 < maxConcurrentRegistrations.
Proof. reflexivity. Qed.

Lemma pool_interleaving (threads : list (list Op)) (tr : list Op) :
  Pool.Interleaving threads tr -> Interleaving threads tr.
Proof.
  induction 1 as [ts Hts | before after o t tr _ IH].
  - apply Interleaving_done. exact Hts.
  - apply Interleaving_step. exact IH.
Qed.

(** X13.  Take sessions that all come to their deferred calls.  In every
    state main and the sessions reach, at most maxConcurrentRegistrations
    of the sessions started have their slot of the semaphore still, and no
    step panics: wg.Done() never takes the counter below zero, and main
    neither sends on nor closes a closed channel. *)
Theorem sessions_in_flight_are_bounded (nets : list Network)
    (schedule : list Pool.Step) (s : Pool.System) :
  all_return 0 nets ->
  main nets schedule = Some s ->
  0 <= in_flight s <= maxConcurrentRegistrations /\
  forall a,
    Pool.step sync maxConcurrentRegistrations (spawn 0 nets) s a <> Pool.Panics.
Proof.
  intros Hret Hs.
  pose proof (kept_when_reachable sync _ _ sessions_allowed (returned_sessions nets 0 Hret) s
                (ex_intro _ schedule Hs)) as Hinv.
  split; [split|].
  - apply count_nonneg.
  - apply (in_flight_bound sync _ _ s Hinv).
  - intros a. apply never_panics. exact Hinv.
Qed.

Lemma sessions_in_flight_are_bounded_witness :
  exists s,
    main [Scenario.unreachable; Scenario.answered Scenario.exists_409]
         [Pool.OfMain; Pool.OfMain; Pool.OfMain; Pool.Of 0; Pool.OfMain;
          Pool.OfMain; Pool.OfMain; Pool.Of 1] = Some s /\
    0 <= in_flight s <= maxConcurrentRegistrations.
Proof.
  eexists. split; [vm_compute; reflexivity|].
  refine (proj1 (sessions_in_flight_are_bounded
                   [Scenario.unreachable; Scenario.answered Scenario.exists_409]
                   [Pool.OfMain; Pool.OfMain; Pool.OfMain; Pool.Of 0; Pool.OfMain;
                    Pool.OfMain; Pool.OfMain; Pool.Of 1] _ _ _)).
  - cbn. repeat split; reflexivity.
  - vm_compute. reflexivity.
Defined.

(** X14.  Take sessions that all come to their deferred calls.  From
    every state main and the sessions reach they can go on until main has
    returned, and the length of the whole run is fixed: three steps of main
    for each session, four more, and the operations of the sessions.  So
    main is never blocked for good, neither at the semaphore nor in
    wg.Wait(). *)
Theorem main_always_finishes (nets : list Network)
    (schedule : list Pool.Step) (s : Pool.System) :
  all_return 0 nets ->
  main nets schedule = Some s ->
  exists rest s',
    main nets (schedule ++ rest) = Some s' /\
    Pool.main s' = Pool.Exited /\
    (List.length schedule + List.length rest =
     3 * List.length nets + 4
     + Pool.sum (map (@List.length Op) (spawn 0 nets)))%nat.
Proof.
  intros Hret Hs.
  destruct (runs_to_the_end sync _ _ sessions_allowed
              (returned_sessions nets 0 Hret) schedule s Hs)
    as (Hlen & _ & rest & s' & Hrest & Hm & Hl).
  exists rest, s'. split; [exact Hrest|]. split; [exact Hm|].
  rewrite Hl, Hlen. f_equal. f_equal. f_equal.
  clear. generalize 0. induction nets as [|net nets IH]; intros i; cbn;
    [reflexivity | rewrite IH; reflexivity].
Qed.

Lemma main_always_finishes_witness :
  exists rest s',
    main [Scenario.unreachable; Scenario.answered Scenario.exists_409]
         ([Pool.OfMain; Pool.OfMain; Pool.OfMain; Pool.Of 0] ++ rest) = Some s' /\
    Pool.main s' = Pool.Exited /\
    (4 + List.length rest = 22)%nat.
Proof.
  refine (main_always_finishes
            [Scenario.unreachable; Scenario.answered Scenario.exists_409]
            [Pool.OfMain; Pool.OfMain; Pool.OfMain; Pool.Of 0] _ _ _).
  - cbn. repeat split; reflexivity.
  - vm_compute. reflexivity.
Defined.

(** X15.  Take at most MaxInt32 sessions that all come to their deferred
    calls.  When main prints the counters, every session has been started
    and has run all its operations, what the counters sum up is an
    interleaving of the operations of all the sessions, and the two
    registration counters printed add up to the number of sessions. *)
Theorem main_reports_every_session (nets : list Network)
    (schedule : list Pool.Step) (s : Pool.System) (tr : list Op) :
  all_return 0 nets ->
  Z.of_nat (List.length nets) <= Int.max_int32 ->
  main nets schedule = Some s ->
  Pool.reported s = Some tr ->
  Interleaving (spawn 0 nets) tr /\
  Forall (fun t => t = []) (Pool.goroutines s) /\
  List.length (Pool.goroutines s) = List.length nets /\
  LoadInt32 (report tr) successfulRegistrations
  + LoadInt32 (report tr) failedRegistrations = Z.of_nat (List.length nets).
Proof.
  intros Hret HN Hs Hr.
  pose proof (kept_when_reachable sync _ _ sessions_allowed (returned_sessions nets 0 Hret) s
                (ex_intro _ schedule Hs)) as Hinv.
  destruct (reported_interleaving sync _ _ s tr Hinv Hr)
    as (_ & _ & Hi & Hlen & Hall).
  apply pool_interleaving in Hi.
  assert (Hspawn : forall i, List.length (spawn i nets) = List.length nets).
  { clear. induction nets as [|net nets IH]; intros i; cbn;
      [reflexivity | rewrite IH; reflexivity]. }
  split; [exact Hi|]. split; [exact Hall|].
  split; [rewrite Hlen; apply Hspawn|].
  destruct (spawn_totals nets 0) as [Hsucc Hfail].
  pose proof (filter_length_le registers nets).
  pose proof (filter_length_le (fun net => negb (registers net)) nets).
  rewrite (report_total _ tr successfulRegistrations Hi) by lia.
  rewrite (report_total _ tr failedRegistrations Hi) by lia.
  rewrite Hsucc, Hfail.
  rewrite <- Nat2Z.inj_add. f_equal.
  clear. induction nets as [|net nets IH]; cbn; [reflexivity|].
  destruct (registers net); cbn; lia.
Qed.

Lemma main_reports_every_session_witness :
  exists s tr,
    main [Scenario.unreachable; Scenario.answered Scenario.exists_409]
      (repeat Pool.OfMain 3 ++ repeat (Pool.Of 0) 4 ++ repeat Pool.OfMain 3 ++
       repeat (Pool.Of 1) 8 ++ repeat Pool.OfMain 4)%list = Some s /\
    Pool.reported s = Some tr /\
    LoadInt32 (report tr) successfulRegistrations
    + LoadInt32 (report tr) failedRegistrations = 2.
Proof.
  eexists. eexists. split; [vm_compute; reflexivity|].
  split; [reflexivity|].
  refine (proj2 (proj2 (proj2 (main_reports_every_session
            [Scenario.unreachable; Scenario.answered Scenario.exists_409]
            (repeat Pool.OfMain 3 ++ repeat (Pool.Of 0) 4 ++ repeat Pool.OfMain 3 ++
             repeat (Pool.Of 1) 8 ++ repeat Pool.OfMain 4)%list _ _ _ _ _ _)))).
  - cbn. repeat split; reflexivity.
  - unfold Int.max_int32. cbn. lia.
  - vm_compute. reflexivity.
  - reflexivity.
Defined.

End Launching.

End Session.

(** * The registration-only client *)

Section Registration.
Import Json CreatePlayers.

(** registerPlayer classifies the response as the session does: by the
    type first, whatever the code. *)
Lemma registerPlayer_is_decided_by_type (id : Z) (net : Network)
    (doc : value) (resp : ServerResponse) :
  dial net = true ->
  set_deadline net = true ->
  write net = true ->
  read net = Some (Some doc) ->
  Unmarshal doc = Some resp ->
  (Type_ resp = "event_player_leaderboard_entry_start" ->
   In (AtomicAddInt32 successfulRegistrations 1) (registerPlayer id net) /\
   ~ In (AtomicAddInt32 failedRegistrations 1) (registerPlayer id net)) /\
  (Type_ resp <> "event_player_leaderboard_entry_start" ->
   In (AtomicAddInt32 failedRegistrations 1) (registerPlayer id net) /\
   ~ In (AtomicAddInt32 successfulRegistrations 1) (registerPlayer id net)).
Proof.
  intros Hd Hs Hw Hr Hdec. unfold registerPlayer.
  rewrite Hd, Hs, Hw, Hr, Hdec. cbn [negb].
  split; intros Hty.
  - rewrite Hty. cbn. split; [tauto|].
    intros H. repeat destruct H as [H | H]; try discriminate; contradiction.
  - destruct (String.eqb_spec (Type_ resp) "event_player_leaderboard_entry_start");
      [contradiction|].
    destruct (Code resp =? 0); cbn; (split; [tauto|]);
      intros H; repeat destruct H as [H | H]; try discriminate; contradiction.
Qed.

(** ** Every path of registerPlayer *)

(** X16.  On every path registerPlayer adds to a counter exactly once,
    and adds one: to successfulRegistrations when the dial, the deadline
    and the write succeed and the line read decodes to an envelope of type
    event_player_leaderboard_entry_start, to failedRegistrations
    otherwise. *)
Theorem registerPlayer_counts_once (id : Z) (net : Network) :
  total successfulRegistrations (registerPlayer id net) =
    (if accepted net then 1 else 0) /\
  total failedRegistrations (registerPlayer id net) =
    (if accepted net then 0 else 1) /\
  List.length
    (filter (fun o => match o with AtomicAddInt32 _ _ => true | _ => false end)
            (registerPlayer id net)) = 1%nat.
Proof.
  unfold registerPlayer, accepted.
  destruct (dial net), (set_deadline net), (write net); cbn;
    try (repeat split; reflexivity).
  destruct (read net) as [[doc|]|]; cbn; try (repeat split; reflexivity).
  destruct (Unmarshal doc) as [resp|]; cbn; try (repeat split; reflexivity).
  destruct (String.eqb (Type_ resp) "event_player_leaderboard_entry_start");
    cbn; try (repeat split; reflexivity).
  destruct (Code resp =? 0); cbn; repeat split; reflexivity.
Qed.

(** X17.  On every path registerPlayer ends with its deferred calls, in
    the reverse order of the defer statements: conn.Close() if the dial had
    succeeded, the release of the semaphore slot, wg.Done(); none of them
    occurs earlier.  Before them it writes at most once: the registration
    of its own username and password, and only if the dial and the
    deadline succeeded. *)
Theorem registerPlayer_cleans_up (id : Z) (net : Network) :
  exists body,
    registerPlayer id net =
      (body ++ (if dial net then [ConnClose] else [])
            ++ [SemaphoreRelease; WgDone])%list /\
    Forall (fun o => is_deferred o = false) body /\
    writes body =
      (if dial net && set_deadline net then [registration id] else []).
Proof.
  unfold registerPlayer, registration.
  destruct (dial net); cbn [negb andb].
  - match goal with
    | |- exists body, ((?inner ++ _) ++ _)%list = _ /\ _ => exists inner
    end.
    split; [rewrite <- app_assoc; reflexivity|].
    destruct (set_deadline net); cbn [negb];
      [|split; [repeat constructor | reflexivity]].
    destruct (write net); cbn [negb];
      [|split; [repeat constructor | reflexivity]].
    destruct (read net) as [[doc|]|];
      try (split; [repeat constructor | reflexivity]).
    destruct (Unmarshal doc) as [resp|];
      [|split; [repeat constructor | reflexivity]].
    destruct (String.eqb (Type_ resp) "event_player_leaderboard_entry_start");
      [split; [repeat constructor | reflexivity]|].
    destruct (Code resp =? 0); cbn [negb];
      (split; [repeat constructor | reflexivity]).
  - eexists. split; [reflexivity|].
    split; [repeat constructor | reflexivity].
Qed.

Lemma registerPlayer_returns (id : Z) (net : Network) :
  Pool.returns sync (registerPlayer id net).
Proof.
  unfold registerPlayer.
  destruct (dial net), (set_deadline net), (write net); cbn [negb app].
  5-8: repeat first [ apply returns_base; reflexivity
                    | apply returns_cons; [reflexivity|] ].
  2-4: repeat first [ apply returns_base; reflexivity
                    | apply returns_cons; [reflexivity|] ].
  destruct (read net) as [[doc|]|].
  2-3: repeat first [ apply returns_base; reflexivity
                    | apply returns_cons; [reflexivity|] ].
  destruct (Unmarshal doc) as [resp|].
  2: repeat first [ apply returns_base; reflexivity
                  | apply returns_cons; [reflexivity|] ].
  destruct (String.eqb (Type_ resp) "event_player_leaderboard_entry_start").
  1: repeat first [ apply returns_base; reflexivity
                  | apply returns_cons; [reflexivity|] ].
  destruct (Code resp =? 0); cbn [negb app];
    repeat first [ apply returns_base; reflexivity
                 | apply returns_cons; [reflexivity|] ].
Qed.

Lemma spawn_returns (nets : list Network) :
  forall i, Forall (Pool.returns sync) (spawn i nets).
Proof.
  induction nets as [|net nets IH]; intros i; cbn; constructor.
  - apply registerPlayer_returns.
  - apply IH.
Qed.

Lemma spawn_length (nets : list Network) :
  forall i, List.length (spawn i nets) = List.length nets.
Proof.
  induction nets as [|net nets IH]; intros i; cbn;
    [reflexivity | rewrite IH; reflexivity].
Qed.

Lemma creations_allowed : 0 < maxConcurrentRegistrations.
Proof. reflexivity. Qed.

(** X18.  Whatever the network answers, in every state main and the
    attempts reach, at most maxConcurrentRegistrations of the attempts
    started have their slot of the semaphore still, no step panics, and
    main and the attempts can go on until main has returned, after a
    number of steps fixed from the start. *)
Theorem creator_is_bounded_and_finishes (nets : list Network)
    (schedule : list Pool.Step) (s : Pool.System) :
  main nets schedule = Some s ->
  0 <= in_flight s <= maxConcurrentRegistrations /\
  (forall a,
      Pool.step sync maxConcurrentRegistrations (spawn 0 nets) s a
      <> Pool.Panics) /\
  exists rest s',
    main nets (schedule ++ rest) = Some s' /\
    Pool.main s' = Pool.Exited /\
    (List.length schedule + List.length rest =
     3 * List.length nets + 4
     + Pool.sum (map (@List.length Op) (spawn 0 nets)))%nat.
Proof.
  intros Hs.
  pose proof (kept_when_reachable sync _ _ creations_allowed (spawn_returns nets 0)
                s (ex_intro _ schedule Hs)) as Hinv.
  split; [split|split].
  - apply count_nonneg.
  - apply (in_flight_bound sync _ _ s Hinv).
  - intros a. apply never_panics. exact Hinv.
  - destruct (runs_to_the_end sync _ _ creations_allowed (spawn_returns nets 0)
                schedule s Hs)
      as (Hlen & _ & rest & s' & Hrest & Hm & Hl).
    exists rest, s'. split; [exact Hrest|]. split; [exact Hm|].
    rewrite Hl, Hlen, spawn_length. reflexivity.
Qed.

Lemma creator_is_bounded_and_finishes_witness :
  exists rest s',
    main [unreachable; answered (Obj [("type", Str "event_player_leaderboard_entry_start")])]
         ([Pool.OfMain; Pool.OfMain; Pool.OfMain; Pool.Of 0] ++ rest) = Some s' /\
    Pool.main s' = Pool.Exited /\
    (4 + List.length rest = 19)%nat.
Proof.
  refine (proj2 (proj2 (creator_is_bounded_and_finishes
            [unreachable; answered (Obj [("type", Str "event_player_leaderboard_entry_start")])]
            [Pool.OfMain; Pool.OfMain; Pool.OfMain; Pool.Of 0] _ _))).
  vm_compute. reflexivity.
Defined.

Lemma AddInt32_in_range (g : Globals) (addr : Counter) (delta : Z) :
  (forall c, - 2 ^ 31 <= g c < 2 ^ 31) ->
  forall c, - 2 ^ 31 <= AddInt32 g addr delta c < 2 ^ 31.
Proof.
  intros Hg c. unfold AddInt32. destruct (Counter_eqb c addr); [|apply Hg].
  apply wrap32_range.
Qed.

Lemma run_adds (tr : list Op) :
  forall (g : Globals) (c : Counter),
    (forall c', - 2 ^ 31 <= g c' < 2 ^ 31) ->
    run g tr c = Int.wrap 32 (g c + total c tr).
Proof.
  induction tr as [|o tr IH]; intros g c Hg.
  - cbn. rewrite Z.add_0_r. symmetry. apply wrap32_small. apply Hg.
  - destruct o; cbn [run fold_left exec total]; try (apply (IH g c Hg)).
    change (run (AddInt32 g addr delta) tr c =
            Int.wrap 32 (g c + ((if Counter_eqb c addr then delta else 0)
                                + total c tr))).
    rewrite (IH _ c (AddInt32_in_range g addr delta Hg)).
    unfold AddInt32. destruct (Counter_eqb c addr).
    + rewrite wrap32_idem. f_equal. lia.
    + f_equal.
Qed.

Lemma merged_total (c : Counter) (threads : list (list Op)) (tr : list Op) :
  Pool.Interleaving threads tr -> total c tr = sumZ (map (total c) threads).
Proof.
  assert (Happ : forall l r, sumZ (l ++ r) = sumZ l + sumZ r).
  { intros l r. unfold sumZ. induction l as [|x l IH]; cbn; [reflexivity|].
    rewrite IH. lia. }
  assert (Hcons : forall o t,
            total c (o :: t) = total c [o] + total c t).
  { intros o t. destruct o; cbn; lia. }
  induction 1 as [ts Hnil | before after o t tr _ IH].
  - induction Hnil as [|t ts Ht _ IH]; [reflexivity|].
    subst t. cbn [map]. unfold sumZ in *. cbn [fold_right].
    rewrite <- IH. reflexivity.
  - rewrite Hcons, IH, !map_app, !Happ. cbn [map sumZ fold_right].
    rewrite (Hcons o t). lia.
Qed.

Lemma spawn_adds (nets : list Network) :
  forall i : Z,
    sumZ (map (total successfulRegistrations) (spawn i nets)) =
      Z.of_nat (List.length (filter accepted nets)) /\
    sumZ (map (total failedRegistrations) (spawn i nets)) =
      Z.of_nat (List.length nets) - Z.of_nat (List.length (filter accepted nets)).
Proof.
  induction nets as [|net nets IH]; intros i; [split; reflexivity|].
  destruct (IH (i + 1)) as [IHs IHf].
  cbn [spawn map sumZ fold_right filter].
  fold (sumZ (map (total successfulRegistrations) (spawn (i + 1) nets))).
  fold (sumZ (map (total failedRegistrations) (spawn (i + 1) nets))).
  rewrite IHs, IHf.
  assert (Hone :
    total successfulRegistrations (registerPlayer i net) =
      (if accepted net then 1 else 0) /\
    total failedRegistrations (registerPlayer i net) =
      (if accepted net then 0 else 1)).
  { unfold registerPlayer, accepted.
    destruct (dial net), (set_deadline net), (write net); cbn;
      try (split; reflexivity).
    destruct (read net) as [[doc|]|]; cbn; try (split; reflexivity).
    destruct (Unmarshal doc) as [resp|]; cbn; try (split; reflexivity).
    destruct (String.eqb (Type_ resp) "event_player_leaderboard_entry_start");
      cbn; try (split; reflexivity).
    destruct (Code resp =? 0); cbn; split; reflexivity. }
  destruct Hone as [-> ->].
  destruct (accepted net); cbn [List.length]; split; lia.
Qed.

(** X19.  For at most MaxInt32 attempts: when main prints the counters,
    every attempt has been started and has run all its operations, the
    number of successful registrations printed is the number of attempts
    that took the success path, and the two numbers printed add up to the
    number of attempts. *)
Theorem creator_reports_every_attempt (nets : list Network)
    (schedule : list Pool.Step) (s : Pool.System) (tr : list Op) :
  Z.of_nat (List.length nets) <= Int.max_int32 ->
  main nets schedule = Some s ->
  Pool.reported s = Some tr ->
  Forall (fun t => t = []) (Pool.goroutines s) /\
  List.length (Pool.goroutines s) = List.length nets /\
  LoadInt32 (report tr) successfulRegistrations =
    Z.of_nat (List.length (filter accepted nets)) /\
  LoadInt32 (report tr) successfulRegistrations
  + LoadInt32 (report tr) failedRegistrations = Z.of_nat (List.length nets).
Proof.
  intros HN Hs Hr.
  pose proof (kept_when_reachable sync _ _ creations_allowed (spawn_returns nets 0)
                s (ex_intro _ schedule Hs)) as Hinv.
  destruct (reported_interleaving sync _ _ s tr Hinv Hr)
    as (_ & _ & Hi & Hlen & Hall).
  split; [exact Hall|].
  split; [rewrite Hlen; apply spawn_length|].
  destruct (spawn_adds nets 0) as [Hsucc Hfail].
  pose proof (filter_length_le accepted nets) as Hle.
  unfold LoadInt32, report.
  rewrite !run_adds by (intros c'; unfold zero; lia).
  rewrite !(merged_total _ _ tr Hi), Hsucc, Hfail.
  unfold Int.max_int32 in HN. unfold zero.
  rewrite !wrap32_small by lia. lia.
Qed.

Lemma creator_reports_every_attempt_witness :
  exists s tr,
    main [unreachable; answered (Obj [("type", Str "event_player_leaderboard_entry_start")])]
      (repeat Pool.OfMain 3 ++ repeat (Pool.Of 0) 4 ++ repeat Pool.OfMain 3 ++
       repeat (Pool.Of 1) 5 ++ repeat Pool.OfMain 4)%list = Some s /\
    Pool.reported s = Some tr /\
    LoadInt32 (report tr) successfulRegistrations = 1.
Proof.
  eexists. eexists. split; [vm_compute; reflexivity|].
  split; [reflexivity|].
  refine (proj1 (proj2 (proj2 (creator_reports_every_attempt
            [unreachable; answered (Obj [("type", Str "event_player_leaderboard_entry_start")])]
            (repeat Pool.OfMain 3 ++ repeat (Pool.Of 0) 4 ++ repeat Pool.OfMain 3 ++
             repeat (Pool.Of 1) 5 ++ repeat Pool.OfMain 4)%list _ _ _ _ _)))).
  - unfold Int.max_int32. cbn. lia.
  - vm_compute. reflexivity.
  - reflexivity.
Defined.

(** ** The names of the attempts *)

Lemma to_int_normal (z : Z) :
  Z.to_int z <> Decimal.Pos Decimal.Nil /\ Z.to_int z <> Decimal.Neg Decimal.Nil.
Proof.
  pose proof (DecimalZ.to_of (Z.to_int z)) as H.
  rewrite DecimalZ.of_to in H. rewrite H.
  destruct (Z.to_int z) as [d | d]; cbn.
  - split; [|discriminate].
    intros E. injection E as E. exact (DecimalFacts.unorm_nonnil d E).
  - destruct (Decimal.nzhead d); split; discriminate.
Qed.

Lemma Itoa_injective (i j : Z) : Int.Itoa i = Int.Itoa j -> i = j.
Proof.
  unfold Int.Itoa. intros H.
  destruct (to_int_normal i) as [Hi1 Hi2].
  destruct (to_int_normal j) as [Hj1 Hj2].
  pose proof (NilZero.isi (Z.to_int i) Hi1 Hi2) as Ei.
  pose proof (NilZero.isi (Z.to_int j) Hj1 Hj2) as Ej.
  rewrite H, Ej in Ei. injection Ei as Ei.
  apply DecimalZ.to_int_inj. symmetry. exact Ei.
Qed.

(** X20.  strconv.Itoa is injective, so different sessions have
    different usernames and send different registrations, in both
    clients. *)
Theorem attempts_have_their_own_names (i j : Z) :
  (CreateAndPlay.username (CreateAndPlay.playerState i) =
   CreateAndPlay.username (CreateAndPlay.playerState j) <-> i = j) /\
  (CreateAndPlay.registration
     (CreateAndPlay.baseUsername ++ Int.Itoa i)
     (CreateAndPlay.basePassword ++ Int.Itoa i) =
   CreateAndPlay.registration
     (CreateAndPlay.baseUsername ++ Int.Itoa j)
     (CreateAndPlay.basePassword ++ Int.Itoa j) <-> i = j) /\
  (registration i = registration j <-> i = j).
Proof.
  split; [|split]; split; try (intros ->; reflexivity).
  - cbn. intros H. injection H as H. exact (Itoa_injective i j H).
  - unfold CreateAndPlay.registration. cbn. intros H.
    injection H as H _. exact (Itoa_injective i j H).
  - unfold registration. cbn. intros H.
    injection H as H _. exact (Itoa_injective i j H).
Qed.

End Registration.

(** * Properties of the attack workers *)

Section Cancellation.
Import Attack.

Example worker_returns_at_the_signal :
  option_map (fun s => (main s, worker s 0, wg s, globals s requestsSent,
                        globals s successfulHits))
             (exec init in_flight_at_close) =
  Some (Waiting, Exited, 4999, 1, 1).
Proof. vm_compute. reflexivity. Qed.

Lemma nth_replace_same (l : list Worker) (n : nat) (w d : Worker) :
  (n < List.length l)%nat -> nth n (replace n w l) d = w.
Proof.
  revert n. induction l as [|x l IH]; intros [|n] H; cbn in *; try lia.
  - reflexivity.
  - apply IH. lia.
Qed.

Lemma nth_replace_other (l : list Worker) (n m : nat) (w d : Worker) :
  n <> m -> nth m (replace n w l) d = nth m l d.
Proof.
  revert n m. induction l as [|x l IH]; intros [|n] [|m] H; cbn; try reflexivity.
  - congruence.
  - apply IH. congruence.
Qed.

Lemma nth_spawn (l : list Worker) (m : nat) :
  nth m (l ++ [AtSelect]) AtSelect = nth m l AtSelect.
Proof.
  revert m. induction l as [|x l IH]; intros [|m]; cbn; try reflexivity.
  - destruct m; reflexivity.
  - apply IH.
Qed.

(** What one step of the system does to worker [m]. *)
Lemma step_worker (s s' : System) (a : Step) (m : nat) :
  step s a = Some s' ->
  match a with
  | Of n b =>
      if Nat.eqb n m then next (stopSignal s) (worker s m) b = Some (worker s' m)
      else worker s' m = worker s m
  | _ => worker s' m = worker s m
  end.
Proof.
  unfold step, worker, next.
  destruct a; cbn.
  - destruct (main s); try discriminate.
    destruct (i <? numAttackers); [|discriminate].
    intros H; injection H as <-. cbn. apply nth_spawn.
  - destruct (main s); try discriminate.
    destruct (i <? numAttackers); [discriminate|].
    intros H; injection H as <-. reflexivity.
  - destruct (main s); try discriminate.
    intros H; injection H as <-. reflexivity.
  - destruct (main s); try discriminate.
    intros H; injection H as <-. reflexivity.
  - destruct (main s); try discriminate.
    destruct (wg s =? 0); [|discriminate].
    intros H; injection H as <-. reflexivity.
  - destruct (nth_error (workers s) w) as [w0|] eqn:Hw; [|discriminate].
    destruct (worker_step (stopSignal s) w0 a) as [[w' add]|] eqn:Hs; [|discriminate].
    intros H; injection H as <-. cbn.
    destruct (Nat.eqb_spec w m) as [->|Hne].
    + rewrite (nth_error_nth _ _ _ Hw), Hs. cbn.
      rewrite nth_replace_same; [reflexivity|].
      apply nth_error_Some. congruence.
    + apply nth_replace_other. exact Hne.
Qed.

Lemma next_any_of (closed : bool) (w w' : Worker) (a : WorkerStep) :
  next closed w a = Some w' -> next_any w a = Some w'.
Proof.
  unfold next_any, next.
  destruct closed, w, a; cbn; try discriminate;
    try (destruct (_ =? _)); cbn; auto.
Qed.

Lemma step_keeps_closed (s s' : System) (a : Step) :
  step s a = Some s' -> stopSignal s = true -> stopSignal s' = true.
Proof.
  unfold step. intros H Hc.
  destruct a; cbn in H;
    repeat match type of H with
           | match ?x with _ => _ end = _ => destruct x; try discriminate
           | (if ?x then _ else _) = _ => destruct x; try discriminate
           end;
    injection H as <-; cbn; auto.
Qed.

Lemma exec_path_any (schedule : list Step) :
  forall (s s' : System) (m : nat),
    exec s schedule = Some s' ->
    path next_any (worker s m) (steps_of m schedule) = Some (worker s' m).
Proof.
  induction schedule as [|a schedule IH]; intros s s' m; cbn [exec].
  - intros H; injection H as <-. reflexivity.
  - destruct (step s a) as [s1|] eqn:Hstep; [|discriminate].
    intros H. specialize (IH s1 s' m H).
    pose proof (step_worker s s1 a m Hstep) as Hw.
    destruct a; cbn [steps_of]; try (rewrite <- Hw; exact IH).
    destruct (Nat.eqb w m).
    + cbn [path]. rewrite (next_any_of _ _ _ _ Hw). exact IH.
    + rewrite <- Hw. exact IH.
Qed.

Lemma exec_path_closed (schedule : list Step) :
  forall (s s' : System) (m : nat),
    stopSignal s = true ->
    exec s schedule = Some s' ->
    path (next true) (worker s m) (steps_of m schedule) = Some (worker s' m).
Proof.
  induction schedule as [|a schedule IH]; intros s s' m Hc; cbn [exec].
  - intros H; injection H as <-. reflexivity.
  - destruct (step s a) as [s1|] eqn:Hstep; [|discriminate].
    intros H.
    specialize (IH s1 s' m (step_keeps_closed s s1 a Hstep Hc) H).
    pose proof (step_worker s s1 a m Hstep) as Hw.
    destruct a; cbn [steps_of]; try (rewrite <- Hw; exact IH).
    destruct (Nat.eqb w m).
    + cbn [path]. rewrite Hc in Hw. rewrite Hw. exact IH.
    + rewrite <- Hw. exact IH.
Qed.

Lemma exec_after_close (schedule : list Step) :
  forall s s' : System,
    exec s schedule = Some s' ->
    after_close schedule = [] \/
    exists s1, stopSignal s1 = true /\ exec s1 (after_close schedule) = Some s'.
Proof.
  induction schedule as [|a schedule IH]; intros s s'; cbn [exec].
  - left. reflexivity.
  - destruct (step s a) as [s1|] eqn:Hstep; [|discriminate].
    intros H.
    destruct a; cbn [after_close]; try (apply (IH s1 s' H)).
    right. exists s1. split; [|exact H].
    unfold step in Hstep. destruct (main s); try discriminate.
    injection Hstep as <-. reflexivity.
Qed.

Lemma closed_budget (steps : list WorkerStep) :
  forall w w' : Worker,
    path (next true) w steps = Some w' ->
    (count starts_request steps <= may_start w)%nat /\
    (count completes_request steps <= may_complete w)%nat /\
    ~ In SeeNoStop steps.
Proof.
  unfold count.
  induction steps as [|a steps IH]; intros w w'; cbn [path].
  - intros _. cbn. repeat split; try lia; try (intros []).
  - destruct (next true w a) as [w1|] eqn:Hn; [|discriminate].
    intros H. destruct (IH w1 w' H) as (Hs & Hc & Hno).
    unfold next in Hn.
    destruct w, a; cbn in Hn; try discriminate;
      try match type of Hn with
          | context [if ?b then _ else _] => destruct b; cbn in Hn
          end;
      injection Hn as <-;
      cbn in *; repeat split; try lia;
      intros [Heq | Hin]; try discriminate; contradiction.
Qed.

Lemma path_app (f : Worker -> WorkerStep -> option Worker)
    (l1 l2 : list WorkerStep) :
  forall w : Worker,
    path f w (l1 ++ l2) =
    match path f w l1 with
    | Some w1 => path f w1 l2
    | None => None
    end.
Proof.
  induction l1 as [|a l1 IH]; intros w; cbn [app path]; [reflexivity|].
  destruct (f w a); [apply IH | reflexivity].
Qed.

(** The last step of a non-empty path. *)
Lemma path_last (l : list WorkerStep) (w0 w : Worker) :
  path next_any w0 l = Some w ->
  l = [] /\ w = w0 \/
  exists l' a w1,
    l = (l' ++ [a])%list /\ path next_any w0 l' = Some w1 /\
    next_any w1 a = Some w.
Proof.
  destruct l as [|a l] using rev_ind.
  - intros H; injection H as <-. left. split; reflexivity.
  - clear IHl. rewrite path_app.
    destruct (path next_any w0 l) as [w1|] eqn:Hl; [|discriminate].
    cbn [path]. destruct (next_any w1 a) as [w2|] eqn:Ha; [|discriminate].
    intros H; injection H as <-.
    right. exists l, a, w1. repeat split; assumption.
Qed.

Ltac which_step H :=
  match type of H with
  | next_any ?w ?a = Some _ =>
      unfold next_any, next in H;
      destruct w; (tryif is_var a then destruct a else idtac);
      cbn in H; try discriminate;
      try match type of H with
          | context [if ?b then _ else _] => destruct b; cbn in H
          end;
      try discriminate
  end.

(** A request is only ever started right after a select that found the
    channel open and the counting of the request. *)
Lemma looks_before_each_request (before after : list WorkerStep)
    (w : Worker) :
  path next_any AtSelect (before ++ CallGet :: after) = Some w ->
  exists earlier, before = (earlier ++ [SeeNoStop; CountRequest])%list.
Proof.
  rewrite path_app.
  destruct (path next_any AtSelect before) as [w1|] eqn:Hb; [|discriminate].
  cbn [path]. destruct (next_any w1 CallGet) as [w2|] eqn:Hcall; [|discriminate].
  intros _. which_step Hcall.
  destruct (path_last before AtSelect AtGet Hb)
    as [[_ Habs] | (l1 & a1 & w3 & -> & Hl1 & Ha1)]; [discriminate|].
  which_step Ha1.
  destruct (path_last l1 AtSelect AtAdd Hl1)
    as [[_ Habs] | (l2 & a2 & w4 & -> & Hl2 & Ha2)]; [discriminate|].
  which_step Ha2.
  exists l2. rewrite <- app_assoc. reflexivity.
Qed.

(** Having seen the signal, a worker takes no further step. *)
Lemma nothing_after_the_signal (before after : list WorkerStep)
    (w0 w : Worker) :
  path next_any w0 (before ++ SeeStop :: after) = Some w -> after = [].
Proof.
  rewrite path_app.
  destruct (path next_any w0 before) as [w1|]; [|discriminate].
  cbn [path]. destruct (next_any w1 SeeStop) as [w2|] eqn:Hsee; [|discriminate].
  which_step Hsee. injection Hsee as <-.
  destruct after as [|a after]; [reflexivity|].
  cbn [path]. destruct a; discriminate.
Qed.

Lemma step_signal (s s' : System) (a : Step) :
  step s a = Some s' -> a = Close_stopSignal \/ stopSignal s' = stopSignal s.
Proof.
  unfold step. intros H.
  destruct a; cbn in H;
    repeat match type of H with
           | match ?x with _ => _ end = _ => destruct x; try discriminate
           | (if ?x then _ else _) = _ => destruct x; try discriminate
           end;
    injection H as <-; cbn; auto.
Qed.

(** The channel is closed by main and by nothing else. *)
Lemma closed_only_by_main (schedule : list Step) :
  forall s s' : System,
    exec s schedule = Some s' ->
    stopSignal s' = true ->
    stopSignal s = true \/ In Close_stopSignal schedule.
Proof.
  induction schedule as [|a schedule IH]; intros s s'; cbn [exec].
  - intros H; injection H as <-. auto.
  - destruct (step s a) as [s1|] eqn:Hstep; [|discriminate].
    intros H Hclosed.
    destruct (IH s1 s' H Hclosed) as [H1 | Hin]; [|right; right; exact Hin].
    destruct (step_signal s s1 a Hstep) as [-> | Hsame].
    + right. left. reflexivity.
    + left. congruence.
Qed.

Lemma exec_app (l1 l2 : list Step) :
  forall s : System,
    exec s (l1 ++ l2) =
    match exec s l1 with
    | Some s1 => exec s1 l2
    | None => None
    end.
Proof.
  induction l1 as [|a l1 IH]; intros s; cbn [app exec]; [reflexivity|].
  destruct (step s a); [apply IH | reflexivity].
Qed.

(** A worker has at most one request in flight: of the requests it
    completes from any point on, all but at most one were started from
    that point on. *)
Lemma one_request_in_flight (steps : list WorkerStep) :
  forall w w' : Worker,
    path next_any w steps = Some w' ->
    (count completes_request steps <=
     count starts_request steps + match w with InGet => 1 | _ => 0 end)%nat.
Proof.
  unfold count.
  induction steps as [|a steps IH]; intros w w'; cbn [path].
  - intros _. cbn. lia.
  - destruct (next_any w a) as [w1|] eqn:Hn; [|discriminate].
    intros H. specialize (IH w1 w' H).
    which_step Hn; injection Hn as <-; cbn in *; lia.
Qed.

(** C9.  In every execution of main and its workers, for every worker:
    each request it starts comes right after a select that found the
    stop channel open (the signal is looked at at the top of each
    iteration); once it has seen the channel closed it takes no further
    step, so starts no request; it sees the channel closed only after
    main has closed it; and after the close it never again finds the
    channel open, starts at most one request and completes at most one
    (the one in flight, or about to be sent, when the channel was
    closed).  Moreover, from any instant of the execution on (such as
    the passing of the deadline), at most one of the requests the worker
    completes was started before that instant. *)
Theorem workers_stop_at_the_signal (schedule : list Step) (s : System)
    (n : nat) :
  exec init schedule = Some s ->
  (forall before after : list WorkerStep,
      steps_of n schedule = (before ++ CallGet :: after)%list ->
      exists earlier, before = (earlier ++ [SeeNoStop; CountRequest])%list) /\
  (forall before after : list WorkerStep,
      steps_of n schedule = (before ++ SeeStop :: after)%list -> after = []) /\
  (forall before after : list Step,
      schedule = (before ++ Of n SeeStop :: after)%list ->
      In Close_stopSignal before) /\
  ~ In SeeNoStop (steps_of n (after_close schedule)) /\
  (count starts_request (steps_of n (after_close schedule)) <= 1)%nat /\
  (count completes_request (steps_of n (after_close schedule)) <= 1)%nat /\
  (forall earlier later : list Step,
      schedule = (earlier ++ later)%list ->
      (count completes_request (steps_of n later) <=
       count starts_request (steps_of n later) + 1)%nat).
Proof.
  intros Hexec.
  pose proof (exec_path_any schedule init s n Hexec) as Hpath.
  change (worker init n) with (nth n (@nil Worker) AtSelect) in Hpath.
  replace (nth n (@nil Worker) AtSelect) with AtSelect in Hpath
    by (destruct n; reflexivity).
  split; [|split; [|split]].
  - intros before after Heq. rewrite Heq in Hpath.
    exact (looks_before_each_request before after _ Hpath).
  - intros before after Heq. rewrite Heq in Hpath.
    exact (nothing_after_the_signal before after _ _ Hpath).
  - intros before after Heq. subst schedule.
    rewrite exec_app in Hexec.
    destruct (exec init before) as [s1|] eqn:Hbefore; [|discriminate].
    cbn [exec] in Hexec.
    destruct (step s1 (Of n SeeStop)) as [s2|] eqn:Hstep; [|discriminate].
    assert (Hclosed : stopSignal s1 = true).
    { unfold step in Hstep.
      destruct (nth_error (workers s1) n) as [w|]; [|discriminate].
      destruct (stopSignal s1); [reflexivity|].
      destruct w; discriminate. }
    destruct (closed_only_by_main before init s1 Hbefore Hclosed) as [Habs | Hin];
      [discriminate | exact Hin].
  - assert (Hafter :
              ~ In SeeNoStop (steps_of n (after_close schedule)) /\
              (count starts_request (steps_of n (after_close schedule)) <= 1)%nat /\
              (count completes_request (steps_of n (after_close schedule)) <= 1)%nat).
    { destruct (exec_after_close schedule init s Hexec)
        as [-> | (s1 & Hc & Hrest)].
      - cbn. repeat split; try lia; try (intros []).
      - pose proof (exec_path_closed _ s1 s n Hc Hrest) as Hclosed.
        destruct (closed_budget _ _ _ Hclosed) as (Hs & Hd & Hno).
        split; [exact Hno|].
        split; [destruct (worker s1 n); cbn in Hs; lia
               | destruct (worker s1 n); cbn in Hd; lia]. }
    destruct Hafter as (HD & HE & HF).
    split; [exact HD|]. split; [exact HE|]. split; [exact HF|].
    intros earlier later Heq. subst schedule.
    rewrite exec_app in Hexec.
    destruct (exec init earlier) as [s1|]; [|discriminate].
    pose proof (one_request_in_flight _ _ _ (exec_path_any later s1 s n Hexec)).
    destruct (worker s1 n); lia.
Qed.

Lemma workers_stop_at_the_signal_witness :
  option_map main (exec init in_flight_at_close) = Some Waiting /\
  steps_of 0 (after_close in_flight_at_close) =
    [GetReturns 200; Drain; Classify; SeeStop] /\
  (count completes_request (steps_of 0 (after_close in_flight_at_close)) <= 1)%nat.
Proof.
  assert (Hmain : option_map main (exec init in_flight_at_close) = Some Waiting)
    by (vm_compute; reflexivity).
  split; [exact Hmain|]. split; [vm_compute; reflexivity|].
  destruct (exec init in_flight_at_close) as [s|] eqn:Hexec; [|discriminate].
  exact (proj1 (proj2 (proj2 (proj2 (proj2 (proj2
           (workers_stop_at_the_signal in_flight_at_close s 0 Hexec))))))).
Defined.

(** ** Further properties of main and the workers *)

Lemma wrap64_add (a b : Z) : Int.wrap 64 (Int.wrap 64 a + b) = Int.wrap 64 (a + b).
Proof.
  unfold Int.wrap. change (64 - 1) with 63.
  replace ((a + 2 ^ 63) mod 2 ^ 64 - 2 ^ 63 + b + 2 ^ 63)
    with ((a + 2 ^ 63) mod 2 ^ 64 + b) by lia.
  rewrite Zplus_mod_idemp_l.
  replace (a + 2 ^ 63 + b) with (a + b + 2 ^ 63) by lia. reflexivity.
Qed.

Lemma wrap64_small (x : Z) : - 2 ^ 63 <= x < 2 ^ 63 -> Int.wrap 64 x = x.
Proof.
  intros H. unfold Int.wrap. change (64 - 1) with 63.
  rewrite Z.mod_small; lia.
Qed.

Lemma sumZ_replace (f : Worker -> Z) (l : list Worker) :
  forall (n : nat) (w w' : Worker),
    nth_error l n = Some w ->
    sumZ (map f (replace n w' l)) = sumZ (map f l) - f w + f w'.
Proof.
  unfold sumZ.
  induction l as [|x l IH]; intros [|n] w w'; cbn; try discriminate.
  - intros H; injection H as ->. lia.
  - intros H. rewrite (IH n w w' H). lia.
Qed.

Lemma sumZ_snoc (f : Worker -> Z) (l : list Worker) (w : Worker) :
  sumZ (map f (l ++ [w])) = sumZ (map f l) + f w.
Proof.
  unfold sumZ. induction l as [|x l IH]; cbn; [lia | rewrite IH; lia].
Qed.

Lemma length_replace (l : list Worker) :
  forall (n : nat) (w : Worker), List.length (replace n w l) = List.length l.
Proof.
  induction l as [|x l IH]; intros [|n] w; cbn; try reflexivity.
  rewrite IH. reflexivity.
Qed.

Lemma invariant_init : invariant init.
Proof.
  unfold invariant. cbn. repeat split; try reflexivity.
  vm_compute. discriminate.
Qed.

Lemma live_nonneg (l : list Worker) : 0 <= sumZ (map live l).
Proof.
  unfold sumZ. induction l as [|w l IH]; cbn [map fold_right]; [lia|].
  destruct w; cbn [live]; lia.
Qed.

Lemma all_exited (l : list Worker) :
  sumZ (map live l) = 0 -> Forall (fun w => w = Exited) l.
Proof.
  induction l as [|w l IH]; [constructor|].
  unfold sumZ. cbn [map fold_right]. fold (sumZ (map live l)).
  pose proof (live_nonneg l).
  intros H0. constructor.
  - destruct w; cbn [live] in H0; try lia. reflexivity.
  - apply IH. destruct w; cbn [live] in H0; lia.
Qed.

Lemma exited_is_stuck (closed : bool) (a : WorkerStep) :
  worker_step closed Exited a = None.
Proof. destruct a; reflexivity. Qed.

Lemma invariant_step (s s' : System) (a : Step) :
  invariant s -> step s a = Some s' -> invariant s'.
Proof.
  intros (Hacc & Hwg & Hmain). unfold step.
  destruct a.
  - destruct (main s) eqn:Hm; try discriminate.
    destruct (Z.ltb_spec i numAttackers); [|discriminate].
    intros Heq; injection Heq as <-. unfold invariant. cbn.
    rewrite !sumZ_snoc, length_app, Nat2Z.inj_add. cbn.
    rewrite Z.add_0_r. repeat split; try tauto; lia.
  - destruct (main s) eqn:Hm; try discriminate.
    destruct (Z.ltb_spec i numAttackers); [discriminate|].
    intros Heq; injection Heq as <-. unfold invariant. cbn.
    repeat split; try tauto; lia.
  - destruct (main s) eqn:Hm; try discriminate.
    intros Heq; injection Heq as <-. unfold invariant. cbn.
    destruct after; repeat split; tauto.
  - destruct (main s) eqn:Hm; try discriminate.
    intros Heq; injection Heq as <-. unfold invariant. cbn.
    repeat split; tauto.
  - destruct (main s) eqn:Hm; try discriminate.
    destruct (Z.eqb_spec (wg s) 0); [|discriminate].
    intros Heq; injection Heq as <-. unfold invariant. cbn.
    repeat split; tauto.
  - destruct (nth_error (workers s) w) as [w0|] eqn:Hw; [|discriminate].
    destruct (worker_step (stopSignal s) w0 a) as [[w' add]|] eqn:Hs; [|discriminate].
    intros Heq; injection Heq as <-. unfold invariant. cbn.
    rewrite !(sumZ_replace _ _ _ _ _ Hw), length_replace.
    assert (Hlive : live w0 = 1).
    { destruct w0; try reflexivity. rewrite exited_is_stuck in Hs. discriminate. }
    split; [|split].
    + destruct w0, a; cbn in Hs; try discriminate;
        try (destruct (stopSignal s); try discriminate);
        try match type of Hs with
            | context [if ?b then _ else _] => destruct b
            end;
        injection Hs as <- <-; cbn; unfold AddInt64; cbn;
        try rewrite <- Hacc; rewrite ?wrap64_add;
        match goal with
        | |- Int.wrap 64 ?x = Int.wrap 64 ?y =>
            first [ f_equal; lia
                  | match x with
                    | context [Int.wrap 64 ?u] =>
                        replace x with (Int.wrap 64 u + (x - Int.wrap 64 u)) by lia;
                        rewrite wrap64_add; f_equal; lia
                    end ]
        end.
    + rewrite Hlive. destruct w'; cbn; lia.
    + destruct (main s); try tauto.
      destruct Hmain as (_ & _ & Hz). rewrite Hz in Hwg. symmetry in Hwg.
      pose proof (all_exited _ Hwg) as Hall.
      rewrite Forall_forall in Hall.
      rewrite (Hall w0 (nth_error_In _ _ Hw)) in Hlive. discriminate.
Qed.

Lemma invariant_exec (schedule : list Step) :
  forall s s', invariant s -> exec s schedule = Some s' -> invariant s'.
Proof.
  induction schedule as [|a schedule IH]; intros s s' Hs; cbn [exec].
  - intros H; injection H as <-. exact Hs.
  - destruct (step s a) as [s1|] eqn:Hstep; [|discriminate].
    apply IH. exact (invariant_step s s1 a Hs Hstep).
Qed.

Lemma invariant_reachable (s : System) : reachable s -> invariant s.
Proof. intros [schedule H]. exact (invariant_exec schedule init s invariant_init H). Qed.

Lemma exited_not_pending (l : list Worker) :
  Forall (fun w => w = Exited) l -> sumZ (map pending l) = 0.
Proof.
  unfold sumZ. induction 1 as [|w l Hw _ IH]; [reflexivity|].
  subst w. cbn [map fold_right pending]. lia.
Qed.

(** X9.  In every state main and the workers can reach, requestsSent
    equals successfulHits plus failedHits plus the requests counted but
    not yet classified (modulo 2^64, the counters being int64); when main
    has returned from wg.Wait() nothing is outstanding, so the report
    shows requestsSent = successfulHits + failedHits. *)
Theorem requests_are_accounted_for (s : System) :
  reachable s ->
  Int.wrap 64 (globals s successfulHits + globals s failedHits
               + sumZ (map pending (workers s))) = globals s requestsSent /\
  (main s = Finished ->
   globals s requestsSent =
     Int.wrap 64 (globals s successfulHits + globals s failedHits) /\
   (- 2 ^ 63 <= globals s successfulHits + globals s failedHits < 2 ^ 63 ->
    globals s requestsSent = globals s successfulHits + globals s failedHits)).
Proof.
  intros Hr. destruct (invariant_reachable s Hr) as (Hacc & Hwg & Hmain).
  split; [exact Hacc|]. intros Hfin. rewrite Hfin in Hmain.
  destruct Hmain as (_ & _ & Hz). rewrite Hz in Hwg. symmetry in Hwg.
  rewrite (exited_not_pending _ (all_exited _ Hwg)), Z.add_0_r in Hacc.
  split; [symmetry; exact Hacc|].
  intros Hrange. rewrite <- Hacc. apply wrap64_small. exact Hrange.
Qed.

(** X10.  In every reachable state the wait group counts the workers that
    have not returned; there are never more than numAttackers workers, and
    all of them have been started before the channel is closed; when main
    has returned from wg.Wait() every one of the numAttackers workers has
    returned. *)
Theorem main_waits_for_every_worker (s : System) :
  reachable s ->
  wg s = sumZ (map live (workers s)) /\
  (stopSignal s = true -> Z.of_nat (List.length (workers s)) = numAttackers) /\
  Z.of_nat (List.length (workers s)) <= numAttackers /\
  (main s = Finished ->
   Z.of_nat (List.length (workers s)) = numAttackers /\
   Forall (fun w => w = Exited) (workers s)).
Proof.
  intros Hr. destruct (invariant_reachable s Hr) as (Hacc & Hwg & Hmain).
  split; [exact Hwg|].
  split; [destruct (main s); intros Hc; try tauto;
          destruct Hmain as (_ & Hopen); try destruct Hopen as (_ & Hopen);
          congruence|].
  split; [destruct (main s); lia|].
  intros Hfin. rewrite Hfin in Hmain. destruct Hmain as (Hlen & _ & Hz).
  split; [exact Hlen|]. apply all_exited. congruence.
Qed.




Lemma closed_steps_left (steps : list WorkerStep) :
  forall w w' : Worker,
    path (next true) w steps = Some w' ->
    (List.length steps + steps_left w' <= steps_left w)%nat.
Proof.
  induction steps as [|a steps IH]; intros w w'; cbn [path].
  - intros H; injection H as <-. cbn. lia.
  - destruct (next true w a) as [w1|] eqn:Hn; [|discriminate].
    intros H. specialize (IH w1 w' H).
    unfold next in Hn.
    destruct w, a; cbn in Hn; try discriminate;
      try match type of Hn with
          | context [if ?b then _ else _] => destruct b; cbn in Hn
          end;
      injection Hn as <-; cbn in *; lia.
Qed.

(** X12.  Once the channel is closed a worker takes at most six more steps
    (count the request, send it, get the answer, handle it, see the
    signal, return): the steps it has taken since the close and the steps
    it still needs never add up to more than six. *)
Theorem workers_return_within_six_steps (schedule : list Step) (s : System)
    (n : nat) :
  exec init schedule = Some s ->
  (List.length (steps_of n (after_close schedule)) + steps_left (worker s n) <= 6)%nat.
Proof.
  intros Hexec.
  destruct (exec_after_close schedule init s Hexec) as [Hnil | (s1 & Hc & Hrest)].
  - rewrite Hnil. cbn. destruct (worker s n); cbn; lia.
  - pose proof (closed_steps_left _ _ _ (exec_path_closed _ s1 s n Hc Hrest)) as H.
    destruct (worker s1 n); cbn in H; lia.
Qed.

(** The state at the end of [full_run]. *)
Lemma full_run_finishes :
  exists s, exec init full_run = Some s /\ main s = Finished.
Proof.
  assert (Hmain : option_map main (exec init full_run) = Some Finished)
    by (vm_compute; reflexivity).
  destruct (exec init full_run) as [s|]; [|discriminate].
  exists s. split; [reflexivity|]. cbn in Hmain. congruence.
Qed.

Lemma requests_are_accounted_for_witness :
  exists s,
    exec init full_run = Some s /\ main s = Finished /\
    globals s requestsSent =
      Int.wrap 64 (globals s successfulHits + globals s failedHits).
Proof.
  destruct full_run_finishes as (s & Hexec & Hfin).
  exists s. split; [exact Hexec|]. split; [exact Hfin|].
  exact (proj1 (proj2 (requests_are_accounted_for s
                         (ex_intro _ full_run Hexec)) Hfin)).
Defined.

Lemma main_waits_for_every_worker_witness :
  exists s,
    exec init full_run = Some s /\ main s = Finished /\
    Forall (fun w => w = Exited) (workers s).
Proof.
  destruct full_run_finishes as (s & Hexec & Hfin).
  exists s. split; [exact Hexec|]. split; [exact Hfin|].
  exact (proj2 (proj2 (proj2 (proj2 (main_waits_for_every_worker s
                                       (ex_intro _ full_run Hexec)))) Hfin)).
Defined.


Lemma workers_return_within_six_steps_witness :
  option_map main (exec init in_flight_at_close) = Some Waiting /\
  (List.length (steps_of 0 (after_close in_flight_at_close)) <= 6)%nat.
Proof.
  assert (Hmain : option_map main (exec init in_flight_at_close) = Some Waiting)
    by (vm_compute; reflexivity).
  split; [exact Hmain|].
  destruct (exec init in_flight_at_close) as [s|] eqn:Hexec; [|discriminate].
  pose proof (workers_return_within_six_steps in_flight_at_close s 0 Hexec) as H.
  lia.
Defined.

End Cancellation.

(** * Properties of the discovery of the game *)

Section Finding.
Import Attack Discovery.

Lemma lists_plays (p : string) (game : ListedGame) :
  lists p game = true <-> plays p game.
Proof.
  unfold lists, plays. destruct (Players (GameState game)) as [players|].
  - rewrite existsb_exists. split.
    + intros (player & Hin & Heq). apply String.eqb_eq in Heq.
      exists players, player. repeat split; assumption.
    + intros (players' & player & Hp & Hin & Heq). injection Hp as <-.
      exists player. split; [exact Hin | apply String.eqb_eq; exact Heq].
  - split; [discriminate|]. intros (players & player & Hp & _). discriminate.
Qed.

Lemma first_listing_spec (p : string) (games : list ListedGame) :
  match first_listing p games with
  | Some game =>
      exists before after,
        games = (before ++ game :: after)%list /\
        Forall (fun g => ~ plays p g) before /\ plays p game
  | None => Forall (fun g => ~ plays p g) games
  end.
Proof.
  induction games as [|g games IH]; cbn; [constructor|].
  destruct (lists p g) eqn:Hg.
  - exists [], games. repeat split; [constructor | apply lists_plays; exact Hg].
  - assert (Hn : ~ plays p g).
    { intros H. apply lists_plays in H. congruence. }
    destruct (first_listing p games) as [game|].
    + destruct IH as (before & after & -> & Hb & Hp).
      exists (g :: before), after. repeat split; [constructor|]; assumption.
    + constructor; assumption.
Qed.

(** X21.  findTargetPlayerGameIDInCurrentList returns an error exactly
    when the request fails, the status is not 200, the body does not
    decode, or the list decoded is nil or empty; it then returns the empty
    id and prints nothing.  Otherwise it returns the game_id of the first
    game of the list that has the player among its players, and prints it,
    or the empty id, printing nothing, when no game of the list has the
    player. *)
Theorem first_listed_game_is_returned (p : string)
    (get : Get (option (list ListedGame))) :
  let '(printed, (gameID, err)) := findTargetPlayerGameIDInCurrentList p get in
  match err with
  | Some _ =>
      gameID = "" /\ printed = [] /\
      (get = NoResponse \/
       exists resp,
         get = Responds resp /\
         (StatusCode resp <> StatusOK \/ Decoded resp = None \/
          Decoded resp = Some None \/ Decoded resp = Some (Some [])))
  | None =>
      exists resp games,
        get = Responds resp /\ StatusCode resp = StatusOK /\
        Decoded resp = Some (Some games) /\ games <> [] /\
        ((exists before game after,
             games = (before ++ game :: after)%list /\
             Forall (fun g => ~ plays p g) before /\ plays p game /\
             gameID = GameID game /\
             printed = [Printf "Found player %s in gameID: %s"
                               [AString p; AString (GameID game)]]) \/
         (Forall (fun g => ~ plays p g) games /\ gameID = "" /\ printed = []))
  end.
Proof.
  unfold findTargetPlayerGameIDInCurrentList, getAndUnmarshal.
  destruct get as [|resp]; cbn.
  - repeat split. left. reflexivity.
  - destruct (Z.eqb_spec (StatusCode resp) StatusOK) as [Hok | Hno]; cbn.
    2: { repeat split. right. exists resp. split; [reflexivity|]. left. exact Hno. }
    destruct (Decoded resp) as [[games|]|] eqn:Hd; cbn.
    + destruct games as [|g games].
      * cbn. repeat split. right. exists resp. split; [reflexivity|]. tauto.
      * change (Z.of_nat (List.length (g :: games)) =? 0) with false. cbv iota.
        pose proof (first_listing_spec p (g :: games)) as Hspec.
        destruct (first_listing p (g :: games)) as [game|].
        -- destruct Hspec as (before & after & Hg & Hb & Hp).
           exists resp, (g :: games). repeat split; try assumption; try discriminate.
           left. exists before, game, after. repeat split; assumption.
        -- exists resp, (g :: games). repeat split; try assumption; try discriminate.
           right. repeat split. exact Hspec.
    + repeat split. right. exists resp. split; [reflexivity|]. tauto.
    + repeat split. right. exists resp. split; [reflexivity|]. tauto.
Qed.

Section Discovering.
Variable answer : Z -> Get (option (list ListedGame)).

#[local] Arguments Z.add : simpl never.
#[local] Arguments Z.mul : simpl never.
#[local] Arguments Z.of_nat : simpl never.

Lemma found_is_quiet (p : string) (get : Get (option (list ListedGame))) :
  Forall (fun o => is_sleep o = false /\ is_attempt o = false /\ is_exit o = false)
         (fst (findTargetPlayerGameIDInCurrentList p get)).
Proof.
  unfold findTargetPlayerGameIDInCurrentList, getAndUnmarshal.
  destruct get as [|resp]; cbn; [constructor|].
  destruct (negb (StatusCode resp =? StatusOK)); cbn; [constructor|].
  destruct (Decoded resp) as [slice|]; cbn; [|constructor].
  destruct (len slice =? 0); [constructor|].
  destruct (first_listing p _); cbn; repeat constructor.
Qed.

Lemma quiet_counts (tr : list Output) :
  Forall (fun o => is_sleep o = false /\ is_attempt o = false /\ is_exit o = false) tr ->
  sleeps tr = 0 /\ attempts tr = 0 /\ Forall (fun o => is_exit o = false) tr.
Proof.
  unfold sleeps, attempts.
  induction 1 as [|o tr (Hs & Ha & He) _ (IHs & IHa & IHe)]; cbn.
  - repeat split. constructor.
  - rewrite Hs, Ha. repeat split; try assumption. constructor; assumption.
Qed.

Lemma sleeps_app (a b : list Output) : sleeps (a ++ b) = sleeps a + sleeps b.
Proof. unfold sleeps. rewrite filter_app, length_app. lia. Qed.

Lemma attempts_app (a b : list Output) : attempts (a ++ b) = attempts a + attempts b.
Proof. unfold attempts. rewrite filter_app, length_app. lia. Qed.

(** One iteration: what it prints, and whether the loop goes on. *)
Lemma find_attempt_spec (attempt : Z) (get : Get (option (list ListedGame))) :
  let (tr, r) := find_attempt attempt get in
  r = finds get /\
  (forall gameID, r = Some gameID -> gameID <> "") /\
  sleeps tr =
    match r with
    | Some _ => 0
    | None => if attempt <? maxFindPlayerAttempts then 1 else 0
    end /\
  attempts tr = 1 /\
  Forall (fun o => is_exit o = false) tr.
Proof.
  unfold find_attempt, finds.
  pose proof (found_is_quiet targetPlayerID get) as Hq.
  apply quiet_counts in Hq.
  destruct (findTargetPlayerGameIDInCurrentList targetPlayerID get)
    as [found [gameID [e|]]]; cbn [fst snd] in *.
  all: destruct Hq as (Hs & Ha & He).
  all: change (Printf "Attempt %d/%d to find player %s..."
                [AInt attempt; AInt maxFindPlayerAttempts; AString targetPlayerID]
              :: found)
        with ([Printf "Attempt %d/%d to find player %s..."
                [AInt attempt; AInt maxFindPlayerAttempts; AString targetPlayerID]]
              ++ found)%list.
  - rewrite andb_false_r.
    destruct (gameID =? "")%string; (split; [reflexivity|]);
      (split; [discriminate|]);
      rewrite !sleeps_app, !attempts_app, Hs, Ha;
      destruct (attempt <? maxFindPlayerAttempts);
      (split; [reflexivity|]; split; [reflexivity|]);
      repeat (apply Forall_app; split); try assumption; repeat constructor.
  - destruct (String.eqb_spec gameID "") as [-> | Hne]; cbn [andb].
    + split; [reflexivity|]. split; [discriminate|].
      rewrite !sleeps_app, !attempts_app, Hs, Ha.
      destruct (attempt <? maxFindPlayerAttempts).
      all: split; [reflexivity|]; split; [reflexivity|].
      all: repeat (apply Forall_app; split); try assumption; repeat constructor.
    + split; [reflexivity|].
      split; [intros g Hg; injection Hg as <-; exact Hne|].
      rewrite !sleeps_app, !attempts_app, Hs, Ha.
      split; [reflexivity|]; split; [reflexivity|].
      apply Forall_app. split; [repeat constructor | assumption].
Qed.

Lemma find_loop_finds (k : Z) (gameID : string) :
  k <= maxFindPlayerAttempts ->
  finds (answer k) = Some gameID ->
  forall (fuel : nat) (attempt : Z),
    1 <= attempt <= k ->
    (Z.to_nat (k - attempt) < fuel)%nat ->
    (forall j, attempt <= j < k -> finds (answer j) = None) ->
    exists tr,
      find_loop fuel attempt answer = Some (tr, Some gameID) /\
      sleeps tr = k - attempt /\ attempts tr = k - attempt + 1 /\
      Forall (fun o => is_exit o = false) tr.
Proof.
  intros Hk Hfound.
  induction fuel as [|fuel IH]; intros attempt Ha Hfuel Hnone; [lia|].
  cbn [find_loop].
  destruct (Z.leb_spec attempt maxFindPlayerAttempts); [|lia].
  pose proof (find_attempt_spec attempt (answer attempt)) as Hspec.
  destruct (find_attempt attempt (answer attempt)) as [tr r].
  destruct Hspec as (Hr & Hne & Hs & Hat & He).
  destruct (Z.eq_dec attempt k) as [-> | Hlt].
  - rewrite Hfound in Hr. subst r. exists tr.
    repeat split; try assumption; lia.
  - rewrite (Hnone attempt) in Hr by lia. subst r.
    destruct (IH (attempt + 1)) as (later & Hl & Hls & Hla & Hle);
      [lia | lia | intros j Hj; apply Hnone; lia |].
    rewrite Hl. exists (tr ++ later)%list.
    rewrite sleeps_app, attempts_app, Hs, Hat, Hls, Hla.
    destruct (Z.ltb_spec attempt maxFindPlayerAttempts); [|lia].
    repeat split; try lia. apply Forall_app. split; assumption.
Qed.

Lemma find_loop_gives_up :
  forall (fuel : nat) (attempt : Z),
    1 <= attempt <= maxFindPlayerAttempts + 1 ->
    (Z.to_nat (maxFindPlayerAttempts + 1 - attempt) < fuel)%nat ->
    (forall j, attempt <= j <= maxFindPlayerAttempts -> finds (answer j) = None) ->
    exists tr,
      find_loop fuel attempt answer = Some (tr, None) /\
      sleeps tr = Z.max 0 (maxFindPlayerAttempts - attempt) /\
      attempts tr = maxFindPlayerAttempts + 1 - attempt /\
      Forall (fun o => is_exit o = false) tr.
Proof.
  induction fuel as [|fuel IH]; intros attempt Ha Hfuel Hnone; [lia|].
  cbn [find_loop].
  destruct (Z.leb_spec attempt maxFindPlayerAttempts).
  - pose proof (find_attempt_spec attempt (answer attempt)) as Hspec.
    destruct (find_attempt attempt (answer attempt)) as [tr r].
    destruct Hspec as (Hr & Hne & Hs & Hat & He).
    rewrite (Hnone attempt) in Hr by lia. subst r.
    destruct (IH (attempt + 1)) as (later & Hl & Hls & Hla & Hle);
      [lia | lia | intros j Hj; apply Hnone; lia |].
    rewrite Hl. exists (tr ++ later)%list.
    rewrite sleeps_app, attempts_app, Hs, Hat, Hls, Hla.
    destruct (Z.ltb_spec attempt maxFindPlayerAttempts);
      repeat split; try lia; apply Forall_app; split; assumption.
  - exists []. split; [reflexivity|].
    change (sleeps []) with 0. change (attempts []) with 0.
    repeat split; try lia. constructor.
Qed.

End Discovering.

(** X22.  If attempt [k], one of the maxFindPlayerAttempts, is the first
    whose request finds a game with a non-empty id, the workers are started
    on that game: main has made exactly [k] attempts and slept [k - 1]
    times, and does not exit. *)
Theorem workers_start_on_the_first_game_found
    (answer : Z -> Get (option (list ListedGame))) (fuel : nat)
    (k : Z) (gameID : string) :
  (Z.to_nat maxFindPlayerAttempts < fuel)%nat ->
  1 <= k <= maxFindPlayerAttempts ->
  (forall j, 1 <= j < k -> finds (answer j) = None) ->
  finds (answer k) = Some gameID ->
  gameID <> "" /\
  exists tr,
    find_game fuel answer = Some (tr, Some gameID) /\
    attempts tr = k /\ sleeps tr = k - 1 /\
    Forall (fun o => is_exit o = false) tr.
Proof.
  intros Hfuel Hk Hnone Hfound.
  split.
  { pose proof (find_attempt_spec k (answer k)) as Hspec.
    destruct (find_attempt k (answer k)) as [tr r].
    destruct Hspec as (Hr & Hne & _). apply Hne. rewrite Hr. exact Hfound. }
  destruct (find_loop_finds answer k gameID (proj2 Hk) Hfound fuel 1)
    as (tr & Hl & Hs & Ha & He); [lia | lia | exact Hnone |].
  unfold find_game. rewrite Hl. eexists. split; [reflexivity|].
  change (?x :: ?l ++ ?y)%list with ([x] ++ l ++ y)%list.
  rewrite !attempts_app, !sleeps_app, Hs, Ha.
  repeat split; try (cbn; lia).
  repeat (apply Forall_app; split); try assumption; repeat constructor.
Qed.

(** X23.  If none of the maxFindPlayerAttempts attempts finds a game
    with a non-empty id, main makes all of them, sleeps between them but not
    after the last, and ends with os.Exit(1) without starting a worker. *)
Theorem gives_up_after_the_last_attempt
    (answer : Z -> Get (option (list ListedGame))) (fuel : nat) :
  (Z.to_nat maxFindPlayerAttempts < fuel)%nat ->
  (forall j, 1 <= j <= maxFindPlayerAttempts -> finds (answer j) = None) ->
  exists tr,
    find_game fuel answer = Some ((tr ++ [Exit 1])%list, None) /\
    attempts tr = maxFindPlayerAttempts /\
    sleeps tr = maxFindPlayerAttempts - 1 /\
    Forall (fun o => is_exit o = false) tr.
Proof.
  intros Hfuel Hnone.
  destruct (find_loop_gives_up answer fuel 1)
    as (tr & Hl & Hs & Ha & He);
    [unfold maxFindPlayerAttempts; lia | lia | exact Hnone |].
  unfold find_game. rewrite Hl. eexists. split.
  - rewrite app_comm_cons.
    change [?x; Exit 1] with ([x] ++ [Exit 1])%list.
    rewrite app_assoc. reflexivity.
  - change (?x :: ?l)%list with ([x] ++ l)%list.
    rewrite !attempts_app, !sleeps_app, Hs, Ha.
    unfold maxFindPlayerAttempts.
    repeat split; try (cbn; lia).
    repeat (apply Forall_app; split); try assumption; repeat constructor.
Qed.

Lemma workers_start_on_the_first_game_found_witness :
  exists tr,
    find_game 101 second_time = Some (tr, Some "g7") /\
    attempts tr = 2 /\ sleeps tr = 2 - 1 /\
    Forall (fun o => is_exit o = false) tr.
Proof.
  refine (proj2 (workers_start_on_the_first_game_found second_time 101 2 "g7"
                   _ _ _ _)).
  - vm_compute. lia.
  - unfold maxFindPlayerAttempts. lia.
  - intros j Hj. assert (j = 1) as -> by lia. reflexivity.
  - reflexivity.
Defined.

Lemma gives_up_after_the_last_attempt_witness :
  exists tr,
    find_game 101 (fun _ => NoResponse) = Some ((tr ++ [Exit 1])%list, None) /\
    attempts tr = maxFindPlayerAttempts /\
    sleeps tr = maxFindPlayerAttempts - 1 /\
    Forall (fun o => is_exit o = false) tr.
Proof.
  refine (gives_up_after_the_last_attempt (fun _ => NoResponse) 101 _ _).
  - vm_compute. lia.
  - intros j _. reflexivity.
Defined.

Lemma first_listing_found (p : string) (game : ListedGame)
    (after : list ListedGame) :
  forall before,
    Forall (fun g => ~ plays p g) before -> plays p game ->
    first_listing p (before ++ game :: after) = Some game.
Proof.
  induction before as [|g before IH]; intros Hb Hp; cbn.
  - apply lists_plays in Hp. rewrite Hp. reflexivity.
  - inversion Hb as [|? ? Hg Hb']; subst.
    destruct (lists p g) eqn:Hl; [apply lists_plays in Hl; contradiction|].
    apply IH; assumption.
Qed.

(** X24.  When the first game that lists the player has an empty
    game_id, the attempt prints that the player was found and then that the
    player was not found, and the loop goes on as after a miss. *)
Theorem empty_game_id_counts_as_not_found (attempt : Z)
    (resp : Response (option (list ListedGame)))
    (before after : list ListedGame) (game : ListedGame) :
  StatusCode resp = StatusOK ->
  Decoded resp = Some (Some (before ++ game :: after)%list) ->
  Forall (fun g => ~ plays targetPlayerID g) before ->
  plays targetPlayerID game ->
  GameID game = "" ->
  find_attempt attempt (Responds resp) =
    ((Printf "Attempt %d/%d to find player %s..."
             [AInt attempt; AInt maxFindPlayerAttempts; AString targetPlayerID]
      :: Printf "Found player %s in gameID: %s"
                [AString targetPlayerID; AString ""]
      :: Printf "  Player %s not found in current game list (attempt %d/%d)."
                [AString targetPlayerID; AInt attempt; AInt maxFindPlayerAttempts]
      :: (if attempt <? maxFindPlayerAttempts then
            [Printf "  Will retry in %d seconds..."
                    [AInt findPlayerRetryDelaySeconds];
             Sleep (findPlayerRetryDelaySeconds * Second)]
          else []))%list,
     None).
Proof.
  intros Hok Hd Hb Hp Hid.
  unfold find_attempt, findTargetPlayerGameIDInCurrentList, getAndUnmarshal.
  rewrite Hok, Hd. cbn [negb Z.eqb StatusOK Pos.eqb].
  assert (Hlen : (len (Some (before ++ game :: after)%list) =? 0) = false).
  { apply Z.eqb_neq. unfold len. rewrite length_app. cbn [List.length]. lia. }
  rewrite Hlen, (first_listing_found _ game after before Hb Hp), Hid.
  reflexivity.
Qed.

Lemma empty_game_id_counts_as_not_found_witness :
  snd (find_attempt 1 (listing "" [targetPlayerID])) = None.
Proof.
  unfold listing.
  rewrite (empty_game_id_counts_as_not_found 1 _ [] []
             {| GameID := "";
                GameState :=
                  {| GameState_GameID := "";
                     Players := Some [{| PlayerID := targetPlayerID; Chips := 1000 |}] |};
                Timestamp := "" |}).
  - reflexivity.
  - reflexivity.
  - reflexivity.
  - constructor.
  - eexists. eexists. split; [reflexivity|]. split; [left; reflexivity | reflexivity].
  - reflexivity.
Defined.

End Finding.
